(** * vtpc: a user-space page cache with 2Q replacement

    A shallow embedding of [src/lib/vtpc.c] and the properties of its
    specification.  Machine integers are [Z] with the wrap-around written
    out ([size_t] and [uint64_t] are 64 bits wide), the three arrays of the
    open-addressing table are lists updated by index, the intrusive doubly
    linked lists are the sequences of their nodes from head to tail, and the
    heap-allocated entries live in a store keyed by their address, so that
    the index and the lists alias the same entry as they do in C. *)

From Stdlib Require Import ZArith Lia Bool String Ascii.
From Stdlib.Strings Require Import Byte.
From stdpp Require Import base list gmap strings.

Local Open Scope Z_scope.

(** ** Machine arithmetic *)

Definition wrap64 (x : Z) : Z := x mod 2 ^ 64.
Definition SIZE_MAX : Z := 2 ^ 64 - 1.
Definition OFF_MAX : Z := 2 ^ 63 - 1.
Definition LONG_MAX : Z := 2 ^ 63 - 1.
Definition LONG_MIN : Z := - 2 ^ 63.

Definition ptr := Z.
Definition NULL : ptr := 0.

Definition VTPC_MAX_HANDLES : Z := 1024.
Definition VTPC_DEFAULT_CACHE_PAGES : Z := 256.

(** The constants of <fcntl.h> and <unistd.h> (Linux values). *)
Definition O_RDONLY : Z := 0.
Definition O_WRONLY : Z := 1.
Definition O_RDWR : Z := 2.
Definition O_ACCMODE : Z := 3.
Definition O_TRUNC : Z := 512.
Definition O_APPEND : Z := 1024.
Definition SEEK_SET : Z := 0.
Definition SEEK_CUR : Z := 1.
Definition SEEK_END : Z := 2.

Inductive errno_t : Type :=
| E0 | EBADF | EINVAL | ENOMEM | EMFILE | EIO | ENOSPC | EINTR.

Global Instance errno_eq_dec : EqDecision errno_t.
Proof. solve_decision. Defined.

(** Array access: [rd] is [a[i]], [wr] is [a[i] = x]. *)
Definition rd {A : Type} (d : A) (a : list A) (i : Z) : A :=
  default d (a !! Z.to_nat i).
Definition wr {A : Type} (a : list A) (i : Z) (x : A) : list A :=
  <[Z.to_nat i := x]> a.

Definition min_sz (a b : Z) : Z := if a <? b then a else b.
Definition max_sz (a b : Z) : Z := if a >? b then a else b.

(** [next_pow2]: the loop doubles [p] at most 64 times before the shift
    wraps to zero, after which it never ends. *)
Fixpoint next_pow2_loop (fuel : nat) (p x : Z) : option Z :=
  match fuel with
  | O => None
  | S fuel' =>
      if p <? x then next_pow2_loop fuel' (wrap64 (Z.shiftl p 1)) x
      else Some p
  end.
Definition next_pow2 (x : Z) : option Z := next_pow2_loop 66 1 x.

Definition hash_u64 (x : Z) : Z :=
  let x := wrap64 (x + 0x9e3779b97f4a7c15) in
  let x := wrap64 (Z.lxor x (Z.shiftr x 30) * 0xbf58476d1ce4e5b9) in
  let x := wrap64 (Z.lxor x (Z.shiftr x 27) * 0x94d049bb133111eb) in
  Z.lxor x (Z.shiftr x 31).

(** ** The open-addressing table *)

Record ht_t : Type := mk_ht {
  cap : Z;
  keys : list Z;
  vals : list ptr;
  state : list Z
}.

(** [calloc]ed arrays of [cap] zeros. *)
Definition ht_fresh (cap_pow2 : Z) : ht_t :=
  {| cap := cap_pow2;
     keys := replicate (Z.to_nat cap_pow2) 0;
     vals := replicate (Z.to_nat cap_pow2) NULL;
     state := replicate (Z.to_nat cap_pow2) 0 |}.

(** After [ht_destroy]: [memset(t, 0, sizeof( *t))]. *)
Definition ht_zero : ht_t := {| cap := 0; keys := []; vals := []; state := [] |}.

Definition ht_mask (t : ht_t) : Z := wrap64 (cap t - 1).

(** The probe loops run until they meet an empty slot or the key.  A probe
    that has not stopped after [cap] steps has seen every slot and never
    stops: the loops below return [None] for a probe that does not end. *)
Fixpoint ht_get_loop (fuel : nat) (t : ht_t) (key i : Z) : option ptr :=
  match fuel with
  | O => None
  | S fuel' =>
      let st := rd 0 (state t) i in
      if st =? 0 then Some NULL
      else if (st =? 1) && (rd 0 (keys t) i =? key) then Some (rd NULL (vals t) i)
      else ht_get_loop fuel' t key (Z.land (i + 1) (ht_mask t))
  end.

Definition ht_get (t : ht_t) (key : Z) : option ptr :=
  if cap t =? 0 then Some NULL
  else ht_get_loop (Z.to_nat (cap t)) t key (Z.land (hash_u64 key) (ht_mask t)).

Fixpoint ht_put_loop (fuel : nat) (t : ht_t) (key : Z) (val : ptr)
    (i first_tomb : Z) : option ht_t :=
  match fuel with
  | O => None
  | S fuel' =>
      let st := rd 0 (state t) i in
      if st =? 0 then
        let idx := if negb (first_tomb =? SIZE_MAX) then first_tomb else i in
        Some {| cap := cap t;
                keys := wr (keys t) idx key;
                vals := wr (vals t) idx val;
                state := wr (state t) idx 1 |}
      else
        let first_tomb :=
          if (st =? 2) && (first_tomb =? SIZE_MAX) then i else first_tomb in
        if (st =? 1) && (rd 0 (keys t) i =? key) then
          Some {| cap := cap t; keys := keys t;
                  vals := wr (vals t) i val; state := state t |}
        else ht_put_loop fuel' t key val (Z.land (i + 1) (ht_mask t)) first_tomb
  end.

Definition ht_put (t : ht_t) (key : Z) (val : ptr) : option ht_t :=
  ht_put_loop (Z.to_nat (cap t)) t key val
    (Z.land (hash_u64 key) (ht_mask t)) SIZE_MAX.

Fixpoint ht_del_loop (fuel : nat) (t : ht_t) (key i : Z) : option ht_t :=
  match fuel with
  | O => None
  | S fuel' =>
      let st := rd 0 (state t) i in
      if st =? 0 then Some t
      else if (st =? 1) && (rd 0 (keys t) i =? key) then
        Some {| cap := cap t; keys := keys t;
                vals := wr (vals t) i NULL; state := wr (state t) i 2 |}
      else ht_del_loop fuel' t key (Z.land (i + 1) (ht_mask t))
  end.

Definition ht_del (t : ht_t) (key : Z) : option ht_t :=
  ht_del_loop (Z.to_nat (cap t)) t key (Z.land (hash_u64 key) (ht_mask t)).

(** ** Entries, cache and handle *)

Definition Q_A1IN : Z := 1.
Definition Q_AM : Z := 2.

Record page_entry_t : Type := mk_page {
  page_no : Z;
  data : list byte;
  valid_len : Z;
  dirty : Z;
  q : Z
}.

Record ghost_entry_t : Type := mk_ghost { g_page_no : Z }.

(** [a1in], [am] and [a1out] are the lists between the head and tail
    pointers of the C structure, head first. *)
Record vtpc_cache_t : Type := mk_cache {
  page_size : Z;
  capacity : Z;
  kin : Z;
  kout : Z;
  am_cap : Z;
  a1in_sz : Z;
  am_sz : Z;
  a1out_sz : Z;
  a1in : list ptr;
  am : list ptr;
  a1out : list ptr;
  resident : ht_t;
  ghosts : ht_t
}.

Definition cache_zero : vtpc_cache_t :=
  mk_cache 0 0 0 0 0 0 0 0 [] [] [] ht_zero ht_zero.

(** The field [size] of the C structure is [h_size] here. *)
Record vtpc_handle_t : Type := mk_handle {
  used : Z;
  os_fd : Z;
  flags : Z;
  direct : Z;
  pos : Z;
  h_size : Z;
  cache : vtpc_cache_t
}.

Definition handle_zero : vtpc_handle_t := mk_handle 0 0 0 0 0 0 cache_zero.

(** ** The world: process globals, the heap and the operating system

    One slot of [g_handles] is modelled, the first one that
    [alloc_handle_slot] hands out (descriptor 3), with the one file it
    is opened on.  [oracle] lists the outcomes of the coming fallible
    calls ([calloc], [posix_memalign], [open], [fstat], [pread], [pwrite],
    [ftruncate], [fsync], [close]): [Some e] makes the call fail with
    [errno = e], [None] (and an exhausted list) lets it succeed. *)
Record world : Type := mk_world {
  g_inited : Z;
  g_cfg_cache_pages : Z;
  hnd : vtpc_handle_t;
  pages : gmap Z page_entry_t;
  ghost_objs : gmap Z ghost_entry_t;
  next_ptr : Z;
  env_cache_pages : option string;
  sys_pagesize : Z;
  file : list byte;
  oracle : list (option errno_t);
  errno : errno_t
}.

Definition boot (env : option string) (pagesize : Z) (f : list byte)
    (o : list (option errno_t)) : world :=
  mk_world 0 0 handle_zero ∅ ∅ 1 env pagesize f o E0.

Definition with_hnd (f : vtpc_handle_t → vtpc_handle_t) (w : world) : world :=
  mk_world (g_inited w) (g_cfg_cache_pages w) (f (hnd w)) (pages w)
    (ghost_objs w) (next_ptr w) (env_cache_pages w) (sys_pagesize w)
    (file w) (oracle w) (errno w).
Definition with_pages (f : gmap Z page_entry_t → gmap Z page_entry_t)
    (w : world) : world :=
  mk_world (g_inited w) (g_cfg_cache_pages w) (hnd w) (f (pages w))
    (ghost_objs w) (next_ptr w) (env_cache_pages w) (sys_pagesize w)
    (file w) (oracle w) (errno w).
Definition with_ghost_objs (f : gmap Z ghost_entry_t → gmap Z ghost_entry_t)
    (w : world) : world :=
  mk_world (g_inited w) (g_cfg_cache_pages w) (hnd w) (pages w)
    (f (ghost_objs w)) (next_ptr w) (env_cache_pages w) (sys_pagesize w)
    (file w) (oracle w) (errno w).
Definition with_next_ptr (n : Z) (w : world) : world :=
  mk_world (g_inited w) (g_cfg_cache_pages w) (hnd w) (pages w)
    (ghost_objs w) n (env_cache_pages w) (sys_pagesize w)
    (file w) (oracle w) (errno w).
Definition with_file (f : list byte) (w : world) : world :=
  mk_world (g_inited w) (g_cfg_cache_pages w) (hnd w) (pages w)
    (ghost_objs w) (next_ptr w) (env_cache_pages w) (sys_pagesize w)
    f (oracle w) (errno w).
Definition with_oracle (o : list (option errno_t)) (w : world) : world :=
  mk_world (g_inited w) (g_cfg_cache_pages w) (hnd w) (pages w)
    (ghost_objs w) (next_ptr w) (env_cache_pages w) (sys_pagesize w)
    (file w) o (errno w).
Definition with_errno (e : errno_t) (w : world) : world :=
  mk_world (g_inited w) (g_cfg_cache_pages w) (hnd w) (pages w)
    (ghost_objs w) (next_ptr w) (env_cache_pages w) (sys_pagesize w)
    (file w) (oracle w) e.
Definition with_globals (i c : Z) (w : world) : world :=
  mk_world i c (hnd w) (pages w)
    (ghost_objs w) (next_ptr w) (env_cache_pages w) (sys_pagesize w)
    (file w) (oracle w) (errno w).

Definition with_cache (f : vtpc_cache_t → vtpc_cache_t)
    (h : vtpc_handle_t) : vtpc_handle_t :=
  mk_handle (used h) (os_fd h) (flags h) (direct h) (pos h) (h_size h)
    (f (cache h)).
Definition with_pos (p : Z) (h : vtpc_handle_t) : vtpc_handle_t :=
  mk_handle (used h) (os_fd h) (flags h) (direct h) p (h_size h) (cache h).
Definition with_size (s : Z) (h : vtpc_handle_t) : vtpc_handle_t :=
  mk_handle (used h) (os_fd h) (flags h) (direct h) (pos h) s (cache h).

Definition with_a1in (l : list ptr) (n : Z) (c : vtpc_cache_t) : vtpc_cache_t :=
  mk_cache (page_size c) (capacity c) (kin c) (kout c) (am_cap c)
    n (am_sz c) (a1out_sz c) l (am c) (a1out c) (resident c) (ghosts c).
Definition with_am (l : list ptr) (n : Z) (c : vtpc_cache_t) : vtpc_cache_t :=
  mk_cache (page_size c) (capacity c) (kin c) (kout c) (am_cap c)
    (a1in_sz c) n (a1out_sz c) (a1in c) l (a1out c) (resident c) (ghosts c).
Definition with_a1out (l : list ptr) (n : Z) (c : vtpc_cache_t) : vtpc_cache_t :=
  mk_cache (page_size c) (capacity c) (kin c) (kout c) (am_cap c)
    (a1in_sz c) (am_sz c) n (a1in c) (am c) l (resident c) (ghosts c).
Definition with_resident (t : ht_t) (c : vtpc_cache_t) : vtpc_cache_t :=
  mk_cache (page_size c) (capacity c) (kin c) (kout c) (am_cap c)
    (a1in_sz c) (am_sz c) (a1out_sz c) (a1in c) (am c) (a1out c) t (ghosts c).
Definition with_ghosts (t : ht_t) (c : vtpc_cache_t) : vtpc_cache_t :=
  mk_cache (page_size c) (capacity c) (kin c) (kout c) (am_cap c)
    (a1in_sz c) (am_sz c) (a1out_sz c) (a1in c) (am c) (a1out c) (resident c) t.

(** ** The monad of the library's code

    A call returns a value and a new world, or never returns ([Diverge]),
    or has no defined behaviour in C ([Undef]: a dangling pointer, an
    overflow of the signed [off_t]). *)
Inductive outcome (A : Type) : Type :=
| Ret (a : A) (w : world)
| Diverge
| Undef.
Arguments Ret {A} a w.
Arguments Diverge {A}.
Arguments Undef {A}.

Definition M (A : Type) : Type := world → outcome A.

Definition ret {A : Type} (a : A) : M A := λ w, Ret a w.
Definition bind {A B : Type} (m : M A) (k : A → M B) : M B :=
  λ w, match m w with
       | Ret a w' => k a w'
       | Diverge => Diverge
       | Undef => Undef
       end.
Definition diverge {A : Type} : M A := λ _, Diverge.
Definition undef {A : Type} : M A := λ _, Undef.

Notation "'let*' x := m 'in' k" := (bind m (λ x, k))
  (at level 10, x name, m at level 100, k at level 200).

Definition get_w : M world := λ w, Ret w w.
Definition modify (f : world → world) : M unit := λ w, Ret tt (f w).
Definition get_h : M vtpc_handle_t := λ w, Ret (hnd w) w.
Definition get_c : M vtpc_cache_t := λ w, Ret (cache (hnd w)) w.
Definition mod_h (f : vtpc_handle_t → vtpc_handle_t) : M unit :=
  modify (with_hnd f).
Definition mod_c (f : vtpc_cache_t → vtpc_cache_t) : M unit :=
  modify (with_hnd (with_cache f)).
Definition set_errno (e : errno_t) : M unit := modify (with_errno e).

(** A probe that does not end makes the caller diverge. *)
Definition lift_ht {A : Type} (o : option A) : M A :=
  match o with Some a => ret a | None => diverge end.

(** [p->field]: a pointer that is not live has no defined behaviour. *)
Definition deref (p : ptr) : M page_entry_t :=
  λ w, match pages w !! p with Some e => Ret e w | None => Undef end.
Definition store (p : ptr) (e : page_entry_t) : M unit :=
  modify (with_pages (<[p := e]>)).
Definition update (p : ptr) (f : page_entry_t → page_entry_t) : M unit :=
  let* e := deref p in store p (f e).
Definition deref_ghost (g : ptr) : M ghost_entry_t :=
  λ w, match ghost_objs w !! g with Some e => Ret e w | None => Undef end.

Definition set_dirty (d : Z) (e : page_entry_t) : page_entry_t :=
  mk_page (page_no e) (data e) (valid_len e) d (q e).
Definition set_q (x : Z) (e : page_entry_t) : page_entry_t :=
  mk_page (page_no e) (data e) (valid_len e) (dirty e) x.

(** ** System and library calls *)

Definition next_fault : M (option errno_t) :=
  λ w, match oracle w with
       | [] => Ret None w
       | f :: o => Ret f (with_oracle o w)
       end.

(** [calloc], [posix_memalign]: a fresh address, or failure. *)
Definition calloc : M ptr :=
  let* f := next_fault in
  match f with
  | Some _ => ret NULL
  | None => let* w := get_w in
            let* _ := modify (with_next_ptr (next_ptr w + 1)) in ret (next_ptr w)
  end.

Definition posix_memalign : M Z :=
  let* f := next_fault in
  match f with Some _ => ret 12 | None => ret 0 end.

Definition to_off (x : Z) : Z := if x >? OFF_MAX then x - 2 ^ 64 else x.

Definition acc_mode (fl : Z) : Z := Z.land fl O_ACCMODE.

(** The file read at [off]: the bytes there, fewer at the end of the file. *)
Definition file_read (f : list byte) (off n : Z) : list byte :=
  take (Z.to_nat n) (drop (Z.to_nat off) f).

(** The file after a write at [off]; a gap past the old end reads as zeros. *)
Definition file_write (f : list byte) (off : Z) (src : list byte) : list byte :=
  let f' := f ++ replicate (Z.to_nat off - length f)%nat x00 in
  take (Z.to_nat off) f' ++ src ++ drop (Z.to_nat off + length src)%nat f'.

Definition file_resize (f : list byte) (len : Z) : list byte :=
  take (Z.to_nat len) f ++ replicate (Z.to_nat len - length f)%nat x00.

Definition sys_pread (n off : Z) : M (Z * list byte) :=
  let* h := get_h in
  if acc_mode (flags h) =? O_WRONLY then let* _ := set_errno EBADF in ret (-1, [])
  else if off <? 0 then let* _ := set_errno EINVAL in ret (-1, [])
  else
    let* f := next_fault in
    match f with
    | Some e => let* _ := set_errno e in ret (-1, [])
    | None => let* w := get_w in
              let bs := file_read (file w) off n in
              ret (Z.of_nat (length bs), bs)
    end.

Definition sys_pwrite (buf : list byte) (off : Z) : M Z :=
  let* h := get_h in
  if acc_mode (flags h) =? O_RDONLY then let* _ := set_errno EBADF in ret (-1)
  else if off <? 0 then let* _ := set_errno EINVAL in ret (-1)
  else
    let* f := next_fault in
    match f with
    | Some e => let* _ := set_errno e in ret (-1)
    | None => let* w := get_w in
              let* _ := modify (with_file (file_write (file w) off buf)) in
              ret (Z.of_nat (length buf))
    end.

Definition sys_ftruncate (len : Z) : M Z :=
  let* h := get_h in
  if acc_mode (flags h) =? O_RDONLY then let* _ := set_errno EINVAL in ret (-1)
  else if len <? 0 then let* _ := set_errno EINVAL in ret (-1)
  else
    let* f := next_fault in
    match f with
    | Some e => let* _ := set_errno e in ret (-1)
    | None => let* w := get_w in
              let* _ := modify (with_file (file_resize (file w) len)) in ret 0
    end.

Definition sys_fsync : M Z :=
  let* f := next_fault in
  match f with
  | Some e => let* _ := set_errno e in ret (-1)
  | None => ret 0
  end.

Definition sys_close : M Z :=
  let* f := next_fault in
  match f with
  | Some e => let* _ := set_errno e in ret (-1)
  | None => ret 0
  end.

(** [size_t] arithmetic. *)
Definition sz_add (a b : Z) : Z := wrap64 (a + b).
Definition sz_sub (a b : Z) : Z := wrap64 (a - b).
Definition sz_mul (a b : Z) : Z := wrap64 (a * b).

(** ** List primitives

    Unlinking a node that is on no list (both links [NULL], neither head
    nor tail) leaves the list as it is. *)
Definition page_list_remove (l : list ptr) (p : ptr) : list ptr :=
  if p =? NULL then l else filter (λ x, x ≠ p) l.
Definition page_list_push_front (l : list ptr) (p : ptr) : list ptr := p :: l.
Definition page_list_pop_back (l : list ptr) : ptr * list ptr :=
  match last l with
  | None => (NULL, l)
  | Some p => (p, page_list_remove l p)
  end.

Definition ghost_list_remove (l : list ptr) (g : ptr) : list ptr :=
  if g =? NULL then l else filter (λ x, x ≠ g) l.
Definition ghost_list_push_front (l : list ptr) (g : ptr) : list ptr := g :: l.
Definition ghost_list_pop_back (l : list ptr) : ptr * list ptr :=
  match last l with
  | None => (NULL, l)
  | Some g => (g, ghost_list_remove l g)
  end.

(** ** Page store *)

(** [posix_fadvise] is advisory and its result is ignored. *)
Definition drop_os_cache : M Z := ret 0.

Definition pread_fullpage (ps off : Z) : M (Z * list byte) :=
  let* r := sys_pread ps off in
  let* h := get_h in
  let* _ := (if (direct h =? 0) && (fst r >=? 0) then drop_os_cache else ret 0) in
  ret r.

Definition pwrite_fullpage (buf : list byte) (ps off : Z) : M Z :=
  let* w := sys_pwrite (take (Z.to_nat ps) buf) off in
  let* h := get_h in
  let* _ := (if (direct h =? 0) && (w >=? 0) then drop_os_cache else ret 0) in
  ret w.

Definition cache_free_page (p : ptr) : M unit :=
  if p =? NULL then ret tt else modify (with_pages (delete p)).

Definition cache_free_ghost (g : ptr) : M unit :=
  modify (with_ghost_objs (delete g)).

Definition cache_flush_page (p : ptr) : M Z :=
  if p =? NULL then ret 0 else
  let* e := deref p in
  if dirty e =? 0 then ret 0 else
  let* h := get_h in
  let off := to_off (sz_mul (page_no e) (page_size (cache h))) in
  let* w := pwrite_fullpage (data e) (page_size (cache h)) off in
  if w <? 0 then ret (-1) else
  let* r := sys_ftruncate (h_size h) in
  if negb (r =? 0) then ret (-1) else
  let* _ := update p (set_dirty 0) in
  ret 0.

(** ** The 2Q policy *)

Fixpoint trim_a1out (fuel : nat) : M unit :=
  match fuel with
  | O => diverge
  | S fuel' =>
      let* c := get_c in
      if a1out_sz c >? kout c then
        let '(old, l) := ghost_list_pop_back (a1out c) in
        if old =? NULL then ret tt else
        let* _ := mod_c (with_a1out l (a1out_sz c)) in
        let* ge := deref_ghost old in
        let* t := lift_ht (ht_del (ghosts c) (g_page_no ge)) in
        let* _ := mod_c (with_ghosts t) in
        let* _ := mod_c (with_a1out l (sz_sub (a1out_sz c) 1)) in
        let* _ := cache_free_ghost old in
        trim_a1out fuel'
      else ret tt
  end.

Definition cache_add_ghost (pno : Z) : M Z :=
  let* c := get_c in
  let* existing := lift_ht (ht_get (ghosts c) pno) in
  if negb (existing =? NULL) then
    let l := ghost_list_remove (a1out c) existing in
    let* _ := mod_c (with_a1out (ghost_list_push_front l existing) (a1out_sz c)) in
    ret 0
  else
    let* g := calloc in
    if g =? NULL then let* _ := set_errno ENOMEM in ret (-1) else
    let* _ := modify (with_ghost_objs (<[g := mk_ghost pno]>)) in
    let* _ := mod_c (with_a1out (ghost_list_push_front (a1out c) g)
                                (sz_add (a1out_sz c) 1)) in
    let* t := lift_ht (ht_put (ghosts c) pno g) in
    let* _ := mod_c (with_ghosts t) in
    let* c := get_c in
    let* _ := trim_a1out (S (length (a1out c))) in
    ret 0.

Definition evict_from_a1in : M Z :=
  let* c := get_c in
  let '(victim, l) := page_list_pop_back (a1in c) in
  if victim =? NULL then ret 0 else
  let* _ := mod_c (with_a1in l (sz_sub (a1in_sz c) 1)) in
  let* e := deref victim in
  let* t := lift_ht (ht_del (resident c) (page_no e)) in
  let* _ := mod_c (with_resident t) in
  let* r := cache_flush_page victim in
  if negb (r =? 0) then
    let* c := get_c in
    let* _ := mod_c (with_a1in (page_list_push_front (a1in c) victim)
                               (sz_add (a1in_sz c) 1)) in
    let* e := deref victim in
    let* t := lift_ht (ht_put (resident c) (page_no e) victim) in
    let* _ := mod_c (with_resident t) in
    ret (-1)
  else
    let* e := deref victim in
    let* _ := cache_add_ghost (page_no e) in
    let* _ := cache_free_page victim in
    ret 0.

Definition evict_from_am : M Z :=
  let* c := get_c in
  let '(victim, l) := page_list_pop_back (am c) in
  if victim =? NULL then ret 0 else
  let* _ := mod_c (with_am l (sz_sub (am_sz c) 1)) in
  let* e := deref victim in
  let* t := lift_ht (ht_del (resident c) (page_no e)) in
  let* _ := mod_c (with_resident t) in
  let* r := cache_flush_page victim in
  if negb (r =? 0) then
    let* c := get_c in
    let* _ := mod_c (with_am (page_list_push_front (am c) victim)
                             (sz_add (am_sz c) 1)) in
    let* e := deref victim in
    let* t := lift_ht (ht_put (resident c) (page_no e) victim) in
    let* _ := mod_c (with_resident t) in
    ret (-1)
  else
    let* _ := cache_free_page victim in
    ret 0.

(** The loops of [ensure_space_for_a1in] and [ensure_space_for_am].  An
    eviction that returns 0 has either unlinked a page or found its list
    empty and changed nothing, so a loop that has not left after one more
    round than there are pages on the two lists repeats an unchanged state
    for ever. *)
Fixpoint a1in_total_loop (fuel : nat) : M Z :=
  match fuel with
  | O => diverge
  | S fuel' =>
      let* c := get_c in
      if sz_add (a1in_sz c) (am_sz c) >=? capacity c then
        if am_sz c >? 0 then
          let* r := evict_from_am in
          if negb (r =? 0) then ret (-1) else a1in_total_loop fuel'
        else
          let* r := evict_from_a1in in
          if negb (r =? 0) then ret (-1) else a1in_total_loop fuel'
      else ret 0
  end.

Definition ensure_space_for_a1in : M Z :=
  let* c := get_c in
  if a1in_sz c >=? kin c then evict_from_a1in
  else a1in_total_loop (S (length (a1in c) + length (am c))).

Fixpoint am_cap_loop (fuel : nat) : M Z :=
  match fuel with
  | O => diverge
  | S fuel' =>
      let* c := get_c in
      if am_sz c >=? am_cap c then
        let* r := evict_from_am in
        if negb (r =? 0) then ret (-1) else am_cap_loop fuel'
      else ret 0
  end.

Fixpoint am_total_loop (fuel : nat) : M Z :=
  match fuel with
  | O => diverge
  | S fuel' =>
      let* c := get_c in
      if sz_add (a1in_sz c) (am_sz c) >=? capacity c then
        if a1in_sz c >? 0 then
          let* r := evict_from_a1in in
          if negb (r =? 0) then ret (-1) else am_total_loop fuel'
        else
          let* r := evict_from_am in
          if negb (r =? 0) then ret (-1) else am_total_loop fuel'
      else ret 0
  end.

Definition ensure_space_for_am : M Z :=
  let* c := get_c in
  let* r := am_cap_loop (S (length (am c))) in
  if negb (r =? 0) then ret (-1) else
  let* c := get_c in
  am_total_loop (S (length (a1in c) + length (am c))).

Definition load_page (pno : Z) : M ptr :=
  let* c := get_c in
  let* p := calloc in
  if p =? NULL then let* _ := set_errno ENOMEM in ret NULL else
  let* rc := posix_memalign in
  if negb (rc =? 0) then let* _ := set_errno ENOMEM in ret NULL else
  let off := to_off (sz_mul pno (page_size c)) in
  let* r := pread_fullpage (page_size c) off in
  if fst r <? 0 then ret NULL else
  let vl := fst r in
  let buf := if vl <? page_size c
             then snd r ++ replicate (Z.to_nat (sz_sub (page_size c) vl)) x00
             else snd r in
  let* _ := store p (mk_page pno buf vl 0 0) in
  ret p.

Definition cache_get (pno : Z) : M ptr :=
  let* c := get_c in
  let* p := lift_ht (ht_get (resident c) pno) in
  if negb (p =? NULL) then
    let* e := deref p in
    if q e =? Q_A1IN then
      let* _ := mod_c (with_a1in (page_list_remove (a1in c) p)
                                 (sz_sub (a1in_sz c) 1)) in
      let* r := ensure_space_for_am in
      if negb (r =? 0) then ret NULL else
      let* _ := update p (set_q Q_AM) in
      let* c := get_c in
      let* _ := mod_c (with_am (page_list_push_front (am c) p)
                               (sz_add (am_sz c) 1)) in
      ret p
    else
      let l := page_list_remove (am c) p in
      let* _ := mod_c (with_am (page_list_push_front l p) (am_sz c)) in
      ret p
  else
  let* g := lift_ht (ht_get (ghosts c) pno) in
  if negb (g =? NULL) then
    let* _ := mod_c (with_a1out (ghost_list_remove (a1out c) g) (a1out_sz c)) in
    let* t := lift_ht (ht_del (ghosts c) pno) in
    let* _ := mod_c (with_ghosts t) in
    let* _ := mod_c (with_a1out (ghost_list_remove (a1out c) g)
                                (sz_sub (a1out_sz c) 1)) in
    let* _ := cache_free_ghost g in
    let* r := ensure_space_for_am in
    if negb (r =? 0) then ret NULL else
    let* p := load_page pno in
    if p =? NULL then ret NULL else
    let* _ := update p (set_q Q_AM) in
    let* c := get_c in
    let* _ := mod_c (with_am (page_list_push_front (am c) p)
                             (sz_add (am_sz c) 1)) in
    let* t := lift_ht (ht_put (resident c) pno p) in
    let* _ := mod_c (with_resident t) in
    ret p
  else
  let* r := ensure_space_for_a1in in
  if negb (r =? 0) then ret NULL else
  let* p := load_page pno in
  if p =? NULL then ret NULL else
  let* _ := update p (set_q Q_A1IN) in
  let* c := get_c in
  let* _ := mod_c (with_a1in (page_list_push_front (a1in c) p)
                             (sz_add (a1in_sz c) 1)) in
  let* t := lift_ht (ht_put (resident c) pno p) in
  let* _ := mod_c (with_resident t) in
  ret p.

Fixpoint flush_list (l : list ptr) : M Z :=
  match l with
  | [] => ret 0
  | p :: l' =>
      let* r := cache_flush_page p in
      if negb (r =? 0) then ret (-1) else flush_list l'
  end.

Definition cache_flush_all : M Z :=
  let* c := get_c in
  let* r := flush_list (a1in c) in
  if negb (r =? 0) then ret (-1) else
  let* r := flush_list (am c) in
  if negb (r =? 0) then ret (-1) else
  let* r := sys_fsync in
  if negb (r =? 0) then ret (-1) else
  let* h := get_h in
  let* r := sys_ftruncate (h_size h) in
  if negb (r =? 0) then ret (-1) else ret 0.

Definition cache_destroy : M unit :=
  let* c := get_c in
  let* _ := modify (with_pages (λ m, foldr delete m (a1in c ++ am c))) in
  let* _ := modify (with_ghost_objs (λ m, foldr delete m (a1out c))) in
  mod_c (λ _, cache_zero).

(** ** Initialisation *)

Definition isspace (c : ascii) : bool :=
  let n := Z.of_nat (nat_of_ascii c) in
  (n =? 32) || ((9 <=? n) && (n <=? 13)).

Definition digit_of (c : ascii) : option Z :=
  let n := Z.of_nat (nat_of_ascii c) in
  if (48 <=? n) && (n <=? 57) then Some (n - 48) else None.

Fixpoint skip_space (s : string) : string :=
  match s with
  | String c s' => if isspace c then skip_space s' else s
  | EmptyString => s
  end.

Fixpoint strtol_digits (s : string) (acc : Z) (seen : bool) : Z * bool :=
  match s with
  | String c s' =>
      match digit_of c with
      | Some d => strtol_digits s' (10 * acc + d) true
      | None => (acc, seen)
      end
  | EmptyString => (acc, seen)
  end.

(** [strtol(s, &end, 10)] of the C library: white space, an optional sign,
    then decimal digits up to the first other character; the value is
    clamped to the range of [long].  The second component is [end != s]:
    at least one digit was converted. *)
Definition strtol10 (s : string) : Z * bool :=
  let s1 := skip_space s in
  let '(neg, s2) :=
    match s1 with
    | String c s' =>
        if Ascii.eqb c "-" then (true, s')
        else if Ascii.eqb c "+" then (false, s')
        else (false, s1)
    | EmptyString => (false, s1)
    end in
  let '(v, seen) := strtol_digits s2 0 false in
  let v := if neg then - v else v in
  ((if v >? LONG_MAX then LONG_MAX else if v <? LONG_MIN then LONG_MIN else v),
   seen).

Definition parse_cache_pages (env : option string) (cfg : Z) : Z :=
  let cfg :=
    match env with
    | Some (String c s' as e) =>
        let '(v, moved) := strtol10 e in
        if moved && (v >? 0) && (v <? 10 * 1000 * 1000) then v else cfg
    | _ => cfg
    end in
  if cfg =? 0 then VTPC_DEFAULT_CACHE_PAGES else cfg.

Definition vtpc_init_once : M unit :=
  let* w := get_w in
  if negb (g_inited w =? 0) then ret tt else
  let* _ := modify (with_globals 1
              (parse_cache_pages (env_cache_pages w) (g_cfg_cache_pages w))) in
  mod_h (λ _, handle_zero).

Definition vtpc_page_size : M Z :=
  let* w := get_w in
  if sys_pagesize w <=? 0 then ret 4096 else ret (sys_pagesize w).

(** The model follows one handle, that of slot 3, the first slot
    [alloc_handle_slot] hands out; the other slots of [g_handles] are
    taken to be free and to stay free.  What is proved below is about that
    handle, or about states in which no handle is open; it says nothing
    about a second handle opened while the first is open, which C would
    put in slot 4 and which the model refuses. *)
Definition get_handle (fd : Z) : M (option vtpc_handle_t) :=
  if (fd <? 0) || (fd >=? VTPC_MAX_HANDLES) then ret None else
  let* h := get_h in
  if negb (fd =? 3) || (used h =? 0) then ret None else ret (Some h).

Definition alloc_handle_slot : M Z :=
  let* h := get_h in
  if used h =? 0 then ret 3 else let* _ := set_errno EMFILE in ret (-1).

(** The three [calloc]s of [ht_init]. *)
Definition ht_init (cap_pow2 : Z) : M (option ht_t) :=
  let* k := next_fault in
  let* v := next_fault in
  let* s := next_fault in
  match k, v, s with
  | None, None, None => ret (Some (ht_fresh cap_pow2))
  | _, _, _ => let* _ := set_errno ENOMEM in ret None
  end.

Definition cache_geometry (cfg ps : Z) : vtpc_cache_t :=
  let capacity := if cfg <? 4 then 4 else cfg in
  let kin := capacity / 4 in
  let kin := if kin <? 1 then 1 else kin in
  let kin := if kin >=? capacity then capacity / 2 else kin in
  let am_cap := sz_sub capacity kin in
  let am_cap := if am_cap <? 1 then 1 else am_cap in
  let kout := capacity / 2 in
  let kout := if kout <? 1 then 1 else kout in
  mk_cache ps capacity kin kout am_cap 0 0 0 [] [] [] ht_zero ht_zero.

Definition cache_init (ps : Z) : M Z :=
  let* w := get_w in
  let c := cache_geometry (g_cfg_cache_pages w) ps in
  let* _ := mod_c (λ _, c) in
  let* resident_cap := lift_ht (next_pow2 (sz_mul (capacity c) 4)) in
  let* ghosts_cap := lift_ht (next_pow2 (sz_mul (kout c) 4)) in
  let* r := ht_init resident_cap in
  match r with
  | None => ret (-1)
  | Some tr =>
      let* _ := mod_c (with_resident tr) in
      let* g := ht_init ghosts_cap in
      match g with
      | None => let* _ := mod_c (with_resident ht_zero) in ret (-1)
      | Some tg => let* _ := mod_c (with_ghosts tg) in ret 0
      end
  end.

(** ** The API *)

(** [open]: a first attempt with [O_DIRECT]; a second without when the
    first fails with [EINVAL].  [O_TRUNC] empties the file. *)
Definition sys_open (fl : Z) : M Z :=
  let* f := next_fault in
  match f with
  | Some e => let* _ := set_errno e in ret (-1)
  | None =>
      let* _ := (if negb (Z.land fl O_TRUNC =? 0) && negb (acc_mode fl =? O_RDONLY)
                 then modify (with_file []) else ret tt) in
      ret 3
  end.

Definition sys_fstat : M (Z * Z) :=
  let* f := next_fault in
  match f with
  | Some e => let* _ := set_errno e in ret (-1, 0)
  | None => let* w := get_w in ret (0, Z.of_nat (length (file w)))
  end.

Definition vtpc_open (path : bool) (mode access : Z) : M Z :=
  let* _ := vtpc_init_once in
  if negb path then let* _ := set_errno EINVAL in ret (-1) else
  let* slot := alloc_handle_slot in
  if slot <? 0 then ret (-1) else
  let fl := mode in
  let* fd1 := sys_open fl in
  let* w := get_w in
  let* r := (if (fd1 <? 0) && bool_decide (errno w = EINVAL)
             then let* fd2 := sys_open fl in ret (fd2, 0)
             else ret (fd1, 1)) in
  let '(fd, dir) := r in
  if fd <? 0 then ret (-1) else
  let* st := sys_fstat in
  if negb (fst st =? 0) then
    let* w := get_w in
    let* _ := sys_close in
    let* _ := set_errno (errno w) in
    ret (-1)
  else
  let* _ := mod_h (λ _, mk_handle 1 fd fl dir 0 (snd st) cache_zero) in
  let* ps := vtpc_page_size in
  let* rc := cache_init ps in
  if negb (rc =? 0) then
    let* w := get_w in
    let* _ := sys_close in
    let* _ := mod_h (λ _, handle_zero) in
    let* _ := set_errno (errno w) in
    ret (-1)
  else ret slot.

Definition vtpc_close (fd : Z) : M Z :=
  let* oh := get_handle fd in
  match oh with
  | None => let* _ := set_errno EBADF in ret (-1)
  | Some _ =>
      let* flush_rc := cache_flush_all in
      let* w1 := get_w in
      let* rc := sys_close in
      let* w2 := get_w in
      let* _ := cache_destroy in
      let* _ := mod_h (λ _, handle_zero) in
      if negb (flush_rc =? 0) then let* _ := set_errno (errno w1) in ret (-1)
      else if negb (rc =? 0) then let* _ := set_errno (errno w2) in ret (-1)
      else ret 0
  end.

Definition vtpc_lseek (fd offset whence : Z) : M Z :=
  let* oh := get_handle fd in
  match oh with
  | None => let* _ := set_errno EBADF in ret (-1)
  | Some h =>
      let obase :=
        if whence =? SEEK_SET then Some 0
        else if whence =? SEEK_CUR then Some (pos h)
        else if whence =? SEEK_END then Some (h_size h)
        else None in
      match obase with
      | None => let* _ := set_errno EINVAL in ret (-1)
      | Some base =>
          let np := base + offset in
          if (np >? OFF_MAX) || (np <? - OFF_MAX - 1) then undef else
          if np <? 0 then let* _ := set_errno EINVAL in ret (-1) else
          let* _ := mod_h (with_pos np) in
          ret np
      end
  end.

(** The loop of [vtpc_read]; [buf] holds the bytes copied to the caller's
    buffer so far.  Every round that does not leave the loop adds at least
    one byte to [total], so [count] rounds and a last test suffice. *)
Fixpoint read_loop (fuel : nat) (count ps total : Z) (buf : list byte)
    : M (Z * list byte) :=
  match fuel with
  | O => diverge
  | S fuel' =>
      if total <? count then
        let* h := get_h in
        let cur := pos h in
        let pno := wrap64 (Z.quot cur ps) in
        let in_page := wrap64 (Z.rem cur ps) in
        let want := min_sz (sz_sub count total) (sz_sub ps in_page) in
        let* p := cache_get pno in
        if p =? NULL then
          if total >? 0 then ret (total, buf) else ret (-1, buf)
        else
        let* e := deref p in
        if in_page >=? valid_len e then ret (total, buf) else
        let avail := sz_sub (valid_len e) in_page in
        let tk := min_sz want avail in
        let buf := buf ++ take (Z.to_nat tk) (drop (Z.to_nat in_page) (data e)) in
        let total := sz_add total tk in
        let* h := get_h in
        if pos h + tk >? OFF_MAX then undef else
        let* _ := mod_h (with_pos (pos h + tk)) in
        if tk <? want then ret (total, buf)
        else read_loop fuel' count ps total buf
      else ret (total, buf)
  end.

Definition vtpc_read (fd : Z) (buf : bool) (count : Z) : M (Z * list byte) :=
  let* oh := get_handle fd in
  match oh with
  | None => let* _ := set_errno EBADF in ret (-1, [])
  | Some h =>
      if negb buf && (count >? 0) then let* _ := set_errno EINVAL in ret (-1, [])
      else if count =? 0 then ret (0, [])
      else if acc_mode (flags h) =? O_WRONLY then
        let* _ := set_errno EBADF in ret (-1, [])
      else read_loop (S (Z.to_nat count)) count (page_size (cache h)) 0 []
  end.

Definition write_page (e : page_entry_t) (in_page chunk : Z) (src : list byte)
    : page_entry_t :=
  let d := data e in
  let d := if in_page >? valid_len e
           then take (Z.to_nat (valid_len e)) d
                ++ replicate (Z.to_nat (sz_sub in_page (valid_len e))) x00
                ++ drop (Z.to_nat in_page) d
           else d in
  let d := take (Z.to_nat in_page) d ++ src
           ++ drop (Z.to_nat (in_page + chunk)) d in
  mk_page (page_no e) d (max_sz (valid_len e) (sz_add in_page chunk)) 1 (q e).

Fixpoint write_loop (fuel : nat) (src : list byte) (count ps total : Z) : M Z :=
  match fuel with
  | O => diverge
  | S fuel' =>
      if total <? count then
        let* h := get_h in
        let cur := pos h in
        let pno := wrap64 (Z.quot cur ps) in
        let in_page := wrap64 (Z.rem cur ps) in
        let chunk := min_sz (sz_sub count total) (sz_sub ps in_page) in
        let* p := cache_get pno in
        if p =? NULL then
          if total >? 0 then ret total else ret (-1)
        else
        let* e := deref p in
        let bytes := take (Z.to_nat chunk) (drop (Z.to_nat total) src) in
        let* _ := store p (write_page e in_page chunk bytes) in
        let total := sz_add total chunk in
        let* h := get_h in
        if pos h + chunk >? OFF_MAX then undef else
        let* _ := mod_h (with_pos (pos h + chunk)) in
        let new_end := pos h + chunk in
        if new_end >? h_size h then
          let* _ := mod_h (with_size new_end) in
          let* r := sys_ftruncate new_end in
          if negb (r =? 0) then
            if total >? 0 then ret total else ret (-1)
          else write_loop fuel' src count ps total
        else write_loop fuel' src count ps total
      else ret total
  end.

(** [buf = None] is the null pointer; a buffer shorter than [count] is read
    past its end, which has no defined behaviour. *)
Definition vtpc_write (fd : Z) (buf : option (list byte)) (count : Z) : M Z :=
  let* oh := get_handle fd in
  match oh with
  | None => let* _ := set_errno EBADF in ret (-1)
  | Some h =>
      match buf with
      | None =>
          if count >? 0 then let* _ := set_errno EINVAL in ret (-1)
          else ret 0
      | Some src =>
          if count =? 0 then ret 0
          else if acc_mode (flags h) =? O_RDONLY then
            let* _ := set_errno EBADF in ret (-1)
          else if Z.of_nat (length src) <? count then undef
          else
            let* _ := (if negb (Z.land (flags h) O_APPEND =? 0)
                       then mod_h (with_pos (h_size h)) else ret tt) in
            write_loop (S (Z.to_nat count)) src count (page_size (cache h)) 0
      end
  end.

Definition vtpc_fsync (fd : Z) : M Z :=
  let* oh := get_handle fd in
  match oh with
  | None => let* _ := set_errno EBADF in ret (-1)
  | Some _ => cache_flush_all
  end.

(** ** Histories of one handle

    An operation of the API on descriptor [fd], run under the outcomes
    [faults] of its fallible calls. *)
Inductive op : Type :=
| Open (path : bool) (mode access : Z)
| Close (fd : Z)
| Lseek (fd offset whence : Z)
| Read (fd : Z) (buf : bool) (count : Z)
| Write (fd : Z) (buf : option (list byte)) (count : Z)
| Fsync (fd : Z).

Definition exec (o : op) : M Z :=
  match o with
  | Open p m a => vtpc_open p m a
  | Close fd => vtpc_close fd
  | Lseek fd off wh => vtpc_lseek fd off wh
  | Read fd b n => let* r := vtpc_read fd b n in ret (fst r)
  | Write fd b n => vtpc_write fd b n
  | Fsync fd => vtpc_fsync fd
  end.

(** Arguments a C caller can pass: [count] is a [size_t] no larger than
    [SSIZE_MAX], [offset] an [off_t]. *)
Definition op_ok (o : op) : Prop :=
  match o with
  | Lseek _ off _ => - OFF_MAX - 1 ≤ off ≤ OFF_MAX
  | Read _ _ n => 0 ≤ n ≤ OFF_MAX
  | Write _ _ n => 0 ≤ n ≤ OFF_MAX
  | _ => True
  end.

Definition step (o : op) (faults : list (option errno_t)) : M Z :=
  let* _ := modify (with_oracle faults) in exec o.

Inductive reachable : world → Prop :=
| reach_boot env ps f :
    ps < 2 ^ 32 → Z.of_nat (length f) ≤ OFF_MAX →
    reachable (boot env ps f [])
| reach_step w o faults r w' :
    reachable w → op_ok o → step o faults w = Ret r w' → reachable w'.

(** Running a list of operations with their fault schedules. *)
Fixpoint run (l : list (op * list (option errno_t))) : M (list Z) :=
  match l with
  | [] => ret []
  | (o, fs) :: l' =>
      let* r := step o fs in
      let* rs := run l' in
      ret (r :: rs)
  end.

(** The page numbers on a list of resident entries or of ghosts. *)
Definition page_nos (w : world) (l : list ptr) : list Z :=
  map (λ p, default (-1) (page_no <$> pages w !! p)) l.
Definition ghost_nos (w : world) (l : list ptr) : list Z :=
  map (λ g, default (-1) (g_page_no <$> ghost_objs w !! g)) l.

(** What the spec calls the state of the cache: the three lists as page
    numbers and the three counters. *)
Definition a1in_pages (w : world) : list Z := page_nos w (a1in (cache (hnd w))).
Definition am_pages (w : world) : list Z := page_nos w (am (cache (hnd w))).
Definition a1out_pages (w : world) : list Z := ghost_nos w (a1out (cache (hnd w))).

Definition in_resident_index (w : world) (pno : Z) : Prop :=
  ∃ p, ht_get (resident (cache (hnd w))) pno = Some p ∧ p ≠ NULL.
Definition in_ghost_index (w : world) (pno : Z) : Prop :=
  ∃ g, ht_get (ghosts (cache (hnd w))) pno = Some g ∧ g ≠ NULL.

(** ** The properties of the specification *)

(** The bounds of the four counters. *)
Definition bounds (c : vtpc_cache_t) : Prop :=
  a1in_sz c ≤ kin c ∧ am_sz c ≤ am_cap c
  ∧ a1in_sz c + am_sz c ≤ capacity c ∧ a1out_sz c ≤ kout c.

(** The queue tag of the entry the resident index holds for a page. *)
Definition tag_of (w : world) (pno : Z) : option Z :=
  match ht_get (resident (cache (hnd w))) pno with
  | Some p => q <$> pages w !! p
  | None => None
  end.

(** A page is in the resident index iff it is on exactly one of A1in and
    Am, and its tag names that list. *)
Definition index_matches_lists (w : world) : Prop :=
  ∀ pno, in_resident_index w pno ↔
    ((pno ∈ a1in_pages w ∧ (pno ∉ am_pages w) ∧ tag_of w pno = Some Q_A1IN)
     ∨ (pno ∈ am_pages w ∧ (pno ∉ a1in_pages w) ∧ tag_of w pno = Some Q_AM)).

(** A resident entry's buffer: [valid_len] within the page, zeros after. *)
Definition page_ok (ps : Z) (e : page_entry_t) : Prop :=
  0 ≤ valid_len e ≤ ps
  ∧ Z.of_nat (length (data e)) = ps
  ∧ ∀ i, valid_len e ≤ i < ps → data e !! Z.to_nat i = Some x00.

(** The entries the resident index points to. *)
Definition resident_entry (w : world) (e : page_entry_t) : Prop :=
  ∃ i p, rd 0 (state (resident (cache (hnd w)))) i = 1
         ∧ rd NULL (vals (resident (cache (hnd w)))) i = p
         ∧ pages w !! p = Some e.

(** The handle of the modelled slot is open. *)
Definition is_open (w : world) : Prop := used (hnd w) ≠ 0.

(** The capacity configured by the first use of the library under the
    environment value [env]. *)
Definition configured_capacity (env : option string) : Z :=
  match vtpc_init_once (boot env 4096 [] []) with
  | Ret _ w => g_cfg_cache_pages w
  | _ => 0
  end.

(** A value of the variable as the specification reads it: an optional
    sign and decimal digits, nothing else. *)
Fixpoint all_digits (s : string) : bool :=
  match s with
  | EmptyString => true
  | String c s' => match digit_of c with Some _ => all_digits s' | None => false end
  end.

Fixpoint digits_value (s : string) (acc : Z) : Z :=
  match s with
  | EmptyString => acc
  | String c s' => digits_value s' (10 * acc + default 0 (digit_of c))
  end.

Definition decimal_value (s : string) : option Z :=
  match s with
  | EmptyString => None
  | String c d =>
      if Ascii.eqb c "-" then
        if all_digits d && negb (String.eqb d "") then Some (- digits_value d 0)
        else None
      else if Ascii.eqb c "+" then
        if all_digits d && negb (String.eqb d "") then Some (digits_value d 0)
        else None
      else if all_digits s then Some (digits_value s 0) else None
  end.

(** The capacity the specification's rule gives: the value when it is a
    decimal number strictly between 0 and 10,000,000, else the default. *)
Definition spec_capacity (env : option string) : Z :=
  match env with
  | None => VTPC_DEFAULT_CACHE_PAGES
  | Some s =>
      match decimal_value s with
      | Some v => if (0 <? v) && (v <? 10000000) then v
                  else VTPC_DEFAULT_CACHE_PAGES
      | None => VTPC_DEFAULT_CACHE_PAGES
      end
  end.

(** The digits at the start of a string. *)
Fixpoint take_digits (s : string) : string :=
  match s with
  | String c s' =>
      match digit_of c with
      | Some _ => String c (take_digits s')
      | None => EmptyString
      end
  | EmptyString => EmptyString
  end.

(** The longest prefix of a string that is an optional sign followed by
    digits. *)
Definition number_prefix (s : string) : string :=
  match s with
  | String c s' =>
      if Ascii.eqb c "-" || Ascii.eqb c "+" then String c (take_digits s')
      else take_digits s
  | EmptyString => EmptyString
  end.

(** A string that does not start with a digit. *)
Definition no_digit_first (t : string) : Prop :=
  match t with String c _ => digit_of c = None | EmptyString => True end.

(** ** Scenarios *)

Definition final (l : list (op * list (option errno_t))) (w : world) : world :=
  match run l w with Ret _ w' => w' | _ => w end.

Definition op_okb (o : op) : bool :=
  match o with
  | Lseek _ off _ => (- OFF_MAX - 1 <=? off) && (off <=? OFF_MAX)
  | Read _ _ n => (0 <=? n) && (n <=? OFF_MAX)
  | Write _ _ n => (0 <=? n) && (n <=? OFF_MAX)
  | _ => true
  end.

Definition returns {A : Type} (o : outcome A) : bool :=
  match o with Ret _ _ => true | _ => false end.

Definition results (l : list (op * list (option errno_t))) (w : world) : list Z :=
  match run l w with Ret rs _ => rs | _ => [] end.

Definition read_page_at (k : Z) : list (op * list (option errno_t)) :=
  [(Lseek 3 (k * 4096) SEEK_SET, []); (Read 3 true 4096, [])].

(** A file of five pages, capacity configured to 4. *)
Definition five_pages : world :=
  boot (Some "4"%string) 4096 (replicate (Z.to_nat 20480) x01) [].

Definition open_rw : list (op * list (option errno_t)) := [(Open true O_RDWR 0, [])].

(** The reads of the ghost-list scenario. *)

Definition five_reads : list (op * list (option errno_t)) :=
  open_rw ++ read_page_at 0 ++ read_page_at 1 ++ read_page_at 2
          ++ read_page_at 3 ++ read_page_at 4.

Definition three_reads : list (op * list (option errno_t)) :=
  open_rw ++ read_page_at 0 ++ read_page_at 1 ++ read_page_at 2.

(** Three pages promoted to Am, the first of them dirty, and a fourth page
    in A1in: the cache is full. *)
Definition full_cache : list (op * list (option errno_t)) :=
  open_rw
  ++ [(Lseek 3 0 SEEK_SET, []); (Write 3 (Some [x42]) 1, [])]
  ++ read_page_at 0
  ++ read_page_at 1 ++ read_page_at 1
  ++ read_page_at 2 ++ read_page_at 2
  ++ read_page_at 3.

(** The second read of page 3 promotes it; the write-back of the victim
    of Am fails. *)
Definition failed_promotion : list (op * list (option errno_t)) :=
  full_cache ++ [(Lseek 3 (3 * 4096) SEEK_SET, []); (Read 3 true 4096, [Some EIO])].

Definition retried_promotion : list (op * list (option errno_t)) :=
  failed_promotion ++ read_page_at 3.

Definition open_wo : list (op * list (option errno_t)) := [(Open true O_WRONLY 0, [])].

(** The world in which the configuration has been read as [cfg]. *)
Definition configured (cfg : Z) : world :=
  with_globals 1 cfg (boot None 4096 [] []).

Definition after {A : Type} (m : M A) (w : world) : world :=
  match m w with Ret _ w' => w' | _ => w end.

(** The outcome of [m] in [w], when there is one, satisfies [Q]. *)
Definition wp {A : Type} (m : M A) (Q : A → world → Prop) (w : world) : Prop :=
  match m w with Ret a w' => Q a w' | _ => True end.

(** The handle is open for writing only. *)
Definition write_only (w : world) : Prop :=
  is_open w ∧ acc_mode (flags (hnd w)) = O_WRONLY.

(** A file of 34 pages, capacity configured to 4. *)
Definition file_34_pages : world :=
  boot (Some "4"%string) 4096 (replicate (Z.to_nat 139264) x01) [].

Fixpoint read_twice (n : nat) (k : Z) : list (op * list (option errno_t)) :=
  match n with
  | O => []
  | S n' => read_page_at k ++ read_page_at k ++ read_twice n' (k + 1)
  end.

(** Pages 0 to 25 are read twice each; every one of them is promoted to Am
    and pushes the oldest page out of it. *)
Definition churn : list (op * list (option errno_t)) := open_rw ++ read_twice 26 0.

Definition payload : list byte := replicate (Z.to_nat 4097) x42.

(** 4097 bytes written at the start of page 32, then read back. *)
Definition write_pages_32_33 : list (op * list (option errno_t)) :=
  churn ++ [(Lseek 3 (32 * 4096) SEEK_SET, []); (Write 3 (Some payload) 4097, []);
            (Lseek 3 (32 * 4096) SEEK_SET, [])].

(** A file of 10 bytes under the default capacity: its only page is read,
    one byte is written at offset 5000, and the cursor goes back to 10. *)
Definition ten_bytes : world :=
  boot None 4096 (replicate 10 x01) [].

Definition extend_behind_cached_page : list (op * list (option errno_t)) :=
  open_rw ++ [(Read 3 true 10, []); (Lseek 3 5000 SEEK_SET, []);
              (Write 3 (Some [x42]) 1, []); (Lseek 3 10 SEEK_SET, [])].

(** The number of empty slots of a table. *)
Definition empty_slots (t : ht_t) : nat :=
  length (filter (λ s, s = 0) (state t)).

(** ** Well-formed tables *)

(** The capacity is a power of two below 2^64 and the three arrays have
    that many cells. *)
Definition table_ok (t : ht_t) : Prop :=
  (∃ n, 0 ≤ n < 64 ∧ cap t = 2 ^ n)
  ∧ length (state t) = Z.to_nat (cap t)
  ∧ length (keys t) = Z.to_nat (cap t)
  ∧ length (vals t) = Z.to_nat (cap t).

(** The probe for [key] stops at slot [i]: the slot is empty or holds the key. *)
Definition stops (t : ht_t) (key i : Z) : Prop :=
  rd 0 (state t) i = 0 ∨ (rd 0 (state t) i = 1 ∧ rd 0 (keys t) i = key).

Definition has_empty (t : ht_t) : Prop :=
  ∃ s, 0 ≤ s < cap t ∧ rd 0 (state t) s = 0.

(** No slot is empty and none holds [key]. *)
Definition no_stop (t : ht_t) (key : Z) : Prop :=
  ∀ i, 0 ≤ i < cap t → ¬ stops t key i.

(** The table with slot [idx] occupied by [key] and [val]. *)
Definition slot_set (t : ht_t) (idx key : Z) (val : ptr) : ht_t :=
  {| cap := cap t;
     keys := wr (keys t) idx key;
     vals := wr (vals t) idx val;
     state := wr (state t) idx 1 |}.

(** The table with the occupied slot [idx] turned into a tombstone. *)
Definition slot_del (t : ht_t) (idx : Z) : ht_t :=
  {| cap := cap t; keys := keys t;
     vals := wr (vals t) idx NULL; state := wr (state t) idx 2 |}.

(** What [ht_put] may overwrite: an empty slot, a tombstone, or the slot
    of the key. *)
Definition writable (t : ht_t) (key idx : Z) : Prop :=
  rd 0 (state t) idx = 0 ∨ rd 0 (state t) idx = 2
  ∨ (rd 0 (state t) idx = 1 ∧ rd 0 (keys t) idx = key).

(** The value of [first_tomb] inside [ht_put]: unset, or a tombstone. *)
Definition tomb_ok (t : ht_t) (ft : Z) : Prop :=
  ft = SIZE_MAX ∨ (0 ≤ ft < cap t ∧ rd 0 (state t) ft = 2).

Definition stopsb (t : ht_t) (key i : Z) : bool :=
  (rd 0 (state t) i =? 0)
  || ((rd 0 (state t) i =? 1) && (rd 0 (keys t) i =? key)).

Definition no_stopb (t : ht_t) (key : Z) : bool :=
  forallb (λ i, negb (stopsb t key i)) (seqZ 0 (cap t)).

(** The value a call returns, when it returns. *)
Definition value {A : Type} (o : outcome A) : option A :=
  match o with Ret a _ => Some a | _ => None end.

(** ** The invariant of the page buffers *)

(** The page size of the system as [vtpc_page_size] reads it. *)
Definition eff_page_size (w : world) : Z :=
  if sys_pagesize w <=? 0 then 4096 else sys_pagesize w.

Definition hnd_ok (PS : Z) (h : vtpc_handle_t) : Prop :=
  used h ≠ 0 ∧ page_size (cache h) = PS
  ∧ 0 ≤ pos h ∧ 0 ≤ h_size h.

Definition heap_ok (PS : Z) (w : world) : Prop :=
  ∀ p e, pages w !! p = Some e → page_ok PS e.

(** The state inside a call on the open handle. *)
Definition inner_ok (PS : Z) (w : world) : Prop :=
  heap_ok PS w ∧ hnd_ok PS (hnd w) ∧ eff_page_size w = PS ∧ 0 < PS < 2 ^ 32.

(** The state between two calls of the API. *)
Definition api_ok (w : world) : Prop :=
  heap_ok (eff_page_size w) w
  ∧ 0 < eff_page_size w < 2 ^ 32
  ∧ (used (hnd w) ≠ 0 → hnd_ok (eff_page_size w) (hnd w))
  ∧ (used (hnd w) = 0 → hnd w = handle_zero).

(** [m] keeps [inner_ok] and returns a value that satisfies [R]. *)
Definition pres (PS : Z) {A : Type} (m : M A) (R : A → Prop) : Prop :=
  ∀ w, inner_ok PS w → wp m (λ a w', inner_ok PS w' ∧ R a) w.

(** The heap, the handle and the page size are the same in both worlds. *)
Definition same_core (w w' : world) : Prop :=
  pages w' = pages w ∧ hnd w' = hnd w ∧ sys_pagesize w' = sys_pagesize w.

Definition quiet {A : Type} (m : M A) : Prop :=
  ∀ w, wp m (λ _ w', same_core w w') w.

(** The entry at address [p], for a live [p]. *)
Definition entry_at (w : world) (p : ptr) : page_entry_t :=
  default (mk_page 0 [] 0 0 0) (pages w !! p).

(** ** A write-back that fails

    The write-back of entry [e] fails with [err]: the handle may write,
    the offset of the page is an [off_t], and either [pwrite] fails, or
    [pwrite] succeeds and [ftruncate] fails. *)
Definition wb_fails (w : world) (e : page_entry_t) (err : errno_t) : Prop :=
  acc_mode (flags (hnd w)) ≠ O_RDONLY
  ∧ 0 ≤ to_off (sz_mul (page_no e) (page_size (cache (hnd w))))
  ∧ 0 ≤ h_size (hnd w)
  ∧ ∃ o, oracle w = Some err :: o ∨ oracle w = None :: Some err :: o.

(** The cache without its list Am, or without its list A1in, and without
    its resident index: the part of it that a failed eviction from that
    list has to leave as it was, field by field (the counter of the list
    included). *)
Definition without_am (c : vtpc_cache_t) : vtpc_cache_t :=
  with_resident ht_zero (with_am [] (am_sz c) c).
Definition without_a1in (c : vtpc_cache_t) : vtpc_cache_t :=
  with_resident ht_zero (with_a1in [] (a1in_sz c) c).

(** What a failed eviction leaves in [w'] of the state [w]: the victim at
    the front of its list [l]; the rest of the cache ([rest], see above)
    equal field by field; a resident index that answers every lookup as
    before (the victim may sit in another slot of it); the other fields
    of the handle, every page entry and every ghost as they were. *)
Definition restored (w w' : world) (victim : ptr) (l l' : list ptr)
    (rest rest' : vtpc_cache_t) : Prop :=
  l' = victim :: page_list_remove l victim
  ∧ rest' = rest
  ∧ (∀ k, ht_get (resident (cache (hnd w'))) k
          = ht_get (resident (cache (hnd w))) k)
  ∧ with_cache (λ _, cache_zero) (hnd w') = with_cache (λ _, cache_zero) (hnd w)
  ∧ pages w' = pages w
  ∧ ghost_objs w' = ghost_objs w.

(** The three lists hold the same pages as before, in whatever order. *)
Definition same_lists (w w' : world) : Prop :=
  a1in_pages w' ≡ₚ a1in_pages w ∧ am_pages w' ≡ₚ am_pages w
  ∧ a1out_pages w' ≡ₚ a1out_pages w.

(** The full cache after one more cold miss: page 3 has left A1in for
    A1out, Am is full and its tail (page 0) is dirty; the cursor is on
    page 3 and the next fallible call fails with [EIO]. *)
Definition ghost_hit_wb_fails : world :=
  final (full_cache ++ read_page_at 4
         ++ [(Lseek 3 12288 SEEK_SET, [Some EIO])]) five_pages.

(** The full cache of [full_cache], with the next [pwrite] failing. *)
Definition full_cache_wb_fails : world :=
  with_oracle [Some EIO] (final full_cache five_pages).

(** * Keys of a table, the fields of a handle, clean pages *)

(** [key] is stored in at most one slot of the table. *)
Definition key_once (t : ht_t) (key : Z) : Prop :=
  ∀ i j, 0 ≤ i < cap t → 0 ≤ j < cap t →
    rd 0 (state t) i = 1 → rd 0 (keys t) i = key →
    rd 0 (state t) j = 1 → rd 0 (keys t) j = key → i = j.

(** A table of 16 slots that holds the keys 7 and 23. *)
Definition small_table : ht_t :=
  default ht_zero (ht_put (ht_fresh 16) 7 5 ≫= (λ t, ht_put t 23 6)).

(** What a handle holds besides its cache, and the page size of the system. *)
Definition hdr (w : world) : Z * Z * Z * Z * Z * Z * Z :=
  (used (hnd w), os_fd (hnd w), flags (hnd w), direct (hnd w),
   pos (hnd w), h_size (hnd w), sys_pagesize w).

(** [m] leaves these fields alone. *)
Definition keeps {A : Type} (m : M A) : Prop :=
  ∀ w, wp m (λ _ w', hdr w' = hdr w) w.

(** The entry at [p], if there is one, has nothing to write back. *)
Definition clean (w : world) (p : ptr) : Prop :=
  ∀ e, pages w !! p = Some e → dirty e = 0.

(** The descriptor an operation names. *)
Definition fd_of (o : op) : option Z :=
  match o with
  | Open _ _ _ => None
  | Close fd | Lseek fd _ _ | Read fd _ _ | Write fd _ _ | Fsync fd => Some fd
  end.

(** The cursor a write starts from: the end of the file under [O_APPEND]. *)
Definition write_start (h : vtpc_handle_t) : Z :=
  if negb (Z.land (flags h) O_APPEND =? 0) then h_size h else pos h.

(** The file of five pages opened read-only. *)
Definition open_ro : list (op * list (option errno_t)) :=
  [(Open true O_RDONLY 0, [])].

(** ** The benchmark, [src/bench/vtpc_bench.c]

    [xorshift64] on a [uint64_t] state: the new state, which is also the
    number returned. *)
Definition xorshift64 (s : Z) : Z :=
  let x := s in
  let x := Z.lxor x (wrap64 (Z.shiftl x 13)) in
  let x := Z.lxor x (Z.shiftr x 7) in
  let x := Z.lxor x (wrap64 (Z.shiftl x 17)) in
  x.

(** [main] clamps the working set to the file. *)
Definition clamp_ws (ws_pages file_pages : Z) : Z :=
  if ws_pages >? file_pages then file_pages else ws_pages.

(** The offset of the page that one round of the loops of [main] reads
    from the state [seed]. *)
Definition bench_offset (seed ws_pages file_pages ps : Z) : Z :=
  to_off (sz_mul (xorshift64 seed mod clamp_ws ws_pages file_pages) ps).

(** What [vtpc_open] leaves in the slot when it succeeds with the flags
    [fl]: the cursor at the start, the size of the file, an empty cache
    whose pages have the size of the system's. *)
Definition opened (fl : Z) (w : world) : Prop :=
  used (hnd w) = 1 ∧ flags (hnd w) = fl ∧ pos (hnd w) = 0
  ∧ h_size (hnd w) = Z.of_nat (length (file w))
  ∧ page_size (cache (hnd w)) = eff_page_size w
  ∧ a1in (cache (hnd w)) = [] ∧ am (cache (hnd w)) = []
  ∧ a1out (cache (hnd w)) = [].

(** * Histories and concrete scenarios *)

Lemma run_reachable l : ∀ w rs w',
  reachable w → Forall (λ x, op_ok (fst x)) l → run l w = Ret rs w' →
  reachable w'.
Proof.
  induction l as [|[o fs] l IH]; intros w rs w' Hw Hok Hrun.
  - simpl in Hrun. unfold ret in Hrun. by inversion Hrun; subst.
  - inversion Hok as [|? ? Ho Hl]; subst. simpl in Hrun, Ho.
    unfold bind in Hrun at 1.
    destruct (step o fs w) as [r w1| |] eqn:Hs; try discriminate.
    unfold bind in Hrun at 1.
    destruct (run l w1) as [rs1 w2| |] eqn:Hr; try discriminate.
    unfold ret in Hrun. inversion Hrun; subst.
    eapply IH; [|exact Hl|exact Hr].
    eapply reach_step; eauto.
Qed.

Lemma final_reachable l w :
  reachable w → Forall (λ x, op_ok (fst x)) l → returns (run l w) = true →
  reachable (final l w).
Proof.
  intros Hw Hok Hrun. unfold final.
  destruct (run l w) as [rs w'| |] eqn:E; try discriminate.
  eapply run_reachable; eauto.
Qed.

Lemma five_pages_reachable : reachable five_pages.
Proof.
  unfold five_pages. apply reach_boot; [lia|].
  rewrite length_replicate. unfold OFF_MAX. lia.
Qed.

Lemma op_okb_ok o : op_okb o = true → op_ok o.
Proof. destruct o; simpl; try done; intros H; lia. Qed.

Lemma ops_okb_ok (l : list (op * list (option errno_t))) :
  forallb (λ x, op_okb (fst x)) l = true → Forall (λ x, op_ok (fst x)) l.
Proof.
  induction l as [|x l IH]; simpl; intros H; [constructor|].
  apply andb_true_iff in H as [H1 H2].
  constructor; [by apply op_okb_ok | by apply IH].
Qed.

Ltac ops_ok := apply ops_okb_ok; vm_compute; reflexivity.

Ltac scenario_reachable :=
  apply final_reachable;
  [apply five_pages_reachable | ops_ok | vm_compute; reflexivity].

Lemma five_reads_results :
  results five_reads five_pages
  = [3; 0; 4096; 4096; 4096; 8192; 4096; 12288; 4096; 16384; 4096].
Proof. vm_compute. reflexivity. Qed.

Lemma five_reads_reachable : reachable (final five_reads five_pages).
Proof. scenario_reachable. Qed.

(** * Reasoning about the monad *)

Lemma wp_elim {A : Type} (m : M A) (Q : A → world → Prop) w a w' :
  wp m Q w → m w = Ret a w' → Q a w'.
Proof. unfold wp. intros H E. by rewrite E in H. Qed.

Lemma wp_mono {A : Type} (m : M A) (Q Q' : A → world → Prop) w :
  wp m Q w → (∀ a w', Q a w' → Q' a w') → wp m Q' w.
Proof. unfold wp. destruct (m w); auto. Qed.

Lemma wp_bind {A B : Type} (m : M A) (k : A → M B) (Q : B → world → Prop) w :
  wp m (λ a w', wp (k a) Q w') w → wp (bind m k) Q w.
Proof. unfold wp, bind. destruct (m w); auto. Qed.

Lemma wp_ret {A : Type} (a : A) (Q : A → world → Prop) w :
  Q a w → wp (ret a) Q w.
Proof. done. Qed.

Lemma wp_conj {A : Type} (m : M A) (Q Q' : A → world → Prop) w :
  wp m Q w → wp m Q' w → wp m (λ a w', Q a w' ∧ Q' a w') w.
Proof. unfold wp. destruct (m w); auto. Qed.

Lemma wp_bind_get_w {B : Type} (k : world → M B) Q w :
  wp (k w) Q w → wp (bind get_w k) Q w.
Proof. done. Qed.

Lemma wp_bind_get_h {B : Type} (k : vtpc_handle_t → M B) Q w :
  wp (k (hnd w)) Q w → wp (bind get_h k) Q w.
Proof. done. Qed.

Lemma wp_bind_get_c {B : Type} (k : vtpc_cache_t → M B) Q w :
  wp (k (cache (hnd w))) Q w → wp (bind get_c k) Q w.
Proof. done. Qed.

Lemma wp_bind_modify {B : Type} f (k : unit → M B) Q w :
  wp (k tt) Q (f w) → wp (bind (modify f) k) Q w.
Proof. done. Qed.

Lemma wp_bind_ret {A B : Type} (a : A) (k : A → M B) Q w :
  wp (k a) Q w → wp (bind (ret a) k) Q w.
Proof. done. Qed.

Lemma ret_after {A : Type} (m : M A) w a :
  value (m w) = Some a → m w = Ret a (after m w).
Proof. unfold value, after. destruct (m w); congruence. Qed.

Lemma bind_eq {A B : Type} (m : M A) (k : A → M B) w a w1 :
  m w = Ret a w1 → bind m k w = k a w1.
Proof. unfold bind. by intros ->. Qed.

Lemma deref_eq p e w : pages w !! p = Some e → deref p w = Ret e w.
Proof. unfold deref. by intros ->. Qed.

(** Unfold the primitives of the monad and compute. *)
Ltac prims :=
  unfold bind, ret, diverge, undef, get_w, get_h, get_c, mod_h, mod_c, modify,
    set_errno, lift_ht, deref, deref_ghost, store, update, next_fault in *.

(** Case analysis on the first scrutinee that is not itself a case
    analysis. *)
Ltac atomic x :=
  lazymatch x with
  | context [match _ with _ => _ end] => fail
  | _ => idtac
  end.

Ltac case_goal :=
  match goal with
  | |- context [match ?x with _ => _ end] => atomic x; destruct x eqn:?
  end.

Ltac case_hyp H :=
  match type of H with
  | context [match ?x with _ => _ end] => atomic x; destruct x eqn:?
  end.

(** Use the specification [H : wp m Q w] of a call [m w] in the goal. *)
Ltac call H :=
  let E := fresh "E" in
  match type of H with
  | wp ?m _ ?w =>
      unfold wp in H; destruct (m w) as [? ?| |] eqn:E;
      [|try (simpl; exact I) ..]
  end.

(** * The open-addressing table *)

Lemma rd_wr_same {A : Type} (d : A) l i x :
  0 ≤ i → (Z.to_nat i < length l)%nat → rd d (wr l i x) i = x.
Proof. intros Hi Hl. unfold rd, wr. by rewrite list_lookup_insert_eq. Qed.

Lemma rd_wr_ne {A : Type} (d : A) l i j x :
  0 ≤ i → 0 ≤ j → i ≠ j → rd d (wr l i x) j = rd d l j.
Proof.
  intros Hi Hj Hne. unfold rd, wr. rewrite list_lookup_insert_ne; [done|lia].
Qed.

Lemma rd_wr_id {A : Type} (d : A) l i :
  (Z.to_nat i < length l)%nat → wr l i (rd d l i) = l.
Proof.
  intros Hl. unfold rd, wr. destruct (l !! Z.to_nat i) as [x|] eqn:E.
  - simpl. by apply list_insert_id.
  - apply lookup_ge_None in E. lia.
Qed.

Lemma length_wr {A : Type} (l : list A) i x : length (wr l i x) = length l.
Proof. unfold wr. apply length_insert. Qed.

Lemma wrap64_small x : 0 ≤ x < 2 ^ 64 → wrap64 x = x.
Proof. intros H. unfold wrap64. by apply Z.mod_small. Qed.

Section table.
Context (t : ht_t) (Hok : table_ok t).

Lemma cap_pos : 0 < cap t < 2 ^ 64.
Proof.
  destruct Hok as ((n & Hn & E) & _). rewrite E. split.
  - apply Z.pow_pos_nonneg; lia.
  - apply Z.pow_lt_mono_r; lia.
Qed.

Lemma ht_mask_eq : ht_mask t = cap t - 1.
Proof. unfold ht_mask. apply wrap64_small. pose proof cap_pos. lia. Qed.

Lemma land_mask x : Z.land x (ht_mask t) = x mod cap t.
Proof.
  rewrite ht_mask_eq. destruct Hok as ((n & Hn & E) & _). rewrite E.
  rewrite <- Z.land_ones by lia. f_equal. rewrite Z.ones_equiv. lia.
Qed.

Lemma land_mask_range x : 0 ≤ Z.land x (ht_mask t) < cap t.
Proof. rewrite land_mask. apply Z.mod_pos_bound. apply cap_pos. Qed.

Lemma in_state i : 0 ≤ i < cap t → (Z.to_nat i < length (state t))%nat.
Proof. destruct Hok as (_ & -> & _). lia. Qed.
Lemma in_keys i : 0 ≤ i < cap t → (Z.to_nat i < length (keys t))%nat.
Proof. destruct Hok as (_ & _ & -> & _). lia. Qed.
Lemma in_vals i : 0 ≤ i < cap t → (Z.to_nat i < length (vals t))%nat.
Proof. destruct Hok as (_ & _ & _ & ->). lia. Qed.

(** The test of the three loops. *)
Lemma stops_dec key i :
  stops t key i ↔
  (rd 0 (state t) i =? 0) = true
  ∨ ((rd 0 (state t) i =? 1) && (rd 0 (keys t) i =? key)) = true.
Proof. unfold stops. rewrite andb_true_iff. lia. Qed.

(** *** A probe over a table without an empty slot and without the key
    never ends, whatever the number of steps. *)
Lemma ht_get_loop_never key : no_stop t key →
  ∀ fuel i, 0 ≤ i < cap t → ht_get_loop fuel t key i = None.
Proof.
  intros Hn. induction fuel as [|fuel IH]; intros i Hi; [done|].
  simpl. pose proof (Hn i Hi) as Hs. rewrite stops_dec in Hs.
  destruct (rd 0 (state t) i =? 0); [tauto|].
  destruct ((rd 0 (state t) i =? 1) && (rd 0 (keys t) i =? key)); [tauto|].
  apply IH, land_mask_range.
Qed.

Lemma ht_put_loop_never key val : no_stop t key →
  ∀ fuel i ft, 0 ≤ i < cap t → ht_put_loop fuel t key val i ft = None.
Proof.
  intros Hn. induction fuel as [|fuel IH]; intros i ft Hi; [done|].
  simpl. pose proof (Hn i Hi) as Hs. rewrite stops_dec in Hs.
  destruct (rd 0 (state t) i =? 0); [tauto|].
  destruct ((rd 0 (state t) i =? 1) && (rd 0 (keys t) i =? key)); [tauto|].
  apply IH, land_mask_range.
Qed.

Lemma ht_del_loop_never key : no_stop t key →
  ∀ fuel i, 0 ≤ i < cap t → ht_del_loop fuel t key i = None.
Proof.
  intros Hn. induction fuel as [|fuel IH]; intros i Hi; [done|].
  simpl. pose proof (Hn i Hi) as Hs. rewrite stops_dec in Hs.
  destruct (rd 0 (state t) i =? 0); [tauto|].
  destruct ((rd 0 (state t) i =? 1) && (rd 0 (keys t) i =? key)); [tauto|].
  apply IH, land_mask_range.
Qed.

(** *** A probe reaches every slot within [cap] steps. *)
Lemma step_towards i s d :
  0 ≤ i < cap t → (i + Z.of_nat (S d)) mod cap t = s →
  (Z.land (i + 1) (ht_mask t) + Z.of_nat d) mod cap t = s.
Proof.
  intros Hi <-. rewrite land_mask, Zplus_mod_idemp_l. f_equal. lia.
Qed.

Lemma ht_get_loop_ends key s : stops t key s →
  ∀ d fuel i, 0 ≤ i < cap t → (i + Z.of_nat d) mod cap t = s →
    (d < fuel)%nat → is_Some (ht_get_loop fuel t key i).
Proof.
  intros Hs. induction d as [|d IH]; intros fuel i Hi Hd Hf;
    (destruct fuel as [|fuel]; [lia|]); simpl.
  - rewrite Z.add_0_r, Z.mod_small in Hd by done. subst s.
    rewrite stops_dec in Hs.
    destruct (rd 0 (state t) i =? 0); [done|].
    destruct ((rd 0 (state t) i =? 1) && (rd 0 (keys t) i =? key)); [done|].
    destruct Hs; discriminate.
  - destruct (rd 0 (state t) i =? 0); [done|].
    destruct ((rd 0 (state t) i =? 1) && (rd 0 (keys t) i =? key)); [done|].
    apply IH; [apply land_mask_range|by apply step_towards|lia].
Qed.

Lemma ht_put_loop_ends key val s : stops t key s →
  ∀ d fuel i ft, 0 ≤ i < cap t → (i + Z.of_nat d) mod cap t = s →
    (d < fuel)%nat → is_Some (ht_put_loop fuel t key val i ft).
Proof.
  intros Hs. induction d as [|d IH]; intros fuel i ft Hi Hd Hf;
    (destruct fuel as [|fuel]; [lia|]); simpl.
  - rewrite Z.add_0_r, Z.mod_small in Hd by done. subst s.
    rewrite stops_dec in Hs.
    destruct (rd 0 (state t) i =? 0); [done|].
    destruct ((rd 0 (state t) i =? 1) && (rd 0 (keys t) i =? key)); [done|].
    destruct Hs; discriminate.
  - destruct (rd 0 (state t) i =? 0); [done|].
    destruct ((rd 0 (state t) i =? 1) && (rd 0 (keys t) i =? key)); [done|].
    apply IH; [apply land_mask_range|by apply step_towards|lia].
Qed.

Lemma ht_del_loop_ends key s : stops t key s →
  ∀ d fuel i, 0 ≤ i < cap t → (i + Z.of_nat d) mod cap t = s →
    (d < fuel)%nat → is_Some (ht_del_loop fuel t key i).
Proof.
  intros Hs. induction d as [|d IH]; intros fuel i Hi Hd Hf;
    (destruct fuel as [|fuel]; [lia|]); simpl.
  - rewrite Z.add_0_r, Z.mod_small in Hd by done. subst s.
    rewrite stops_dec in Hs.
    destruct (rd 0 (state t) i =? 0); [done|].
    destruct ((rd 0 (state t) i =? 1) && (rd 0 (keys t) i =? key)); [done|].
    destruct Hs; discriminate.
  - destruct (rd 0 (state t) i =? 0); [done|].
    destruct ((rd 0 (state t) i =? 1) && (rd 0 (keys t) i =? key)); [done|].
    apply IH; [apply land_mask_range|by apply step_towards|lia].
Qed.

(** The distance from [i] to [s] along the probe sequence. *)
Lemma distance i s :
  0 ≤ i < cap t → 0 ≤ s < cap t →
  ∃ d, (d < Z.to_nat (cap t))%nat ∧ (i + Z.of_nat d) mod cap t = s.
Proof.
  intros Hi Hs. exists (Z.to_nat ((s - i) mod cap t)).
  pose proof (Z.mod_pos_bound (s - i) (cap t) ltac:(lia)) as Hb.
  split; [lia|]. rewrite Z2Nat.id by lia.
  rewrite Zplus_mod_idemp_r. replace (i + (s - i)) with s by lia.
  by apply Z.mod_small.
Qed.

Lemma cap_nonzero : (cap t =? 0) = false.
Proof. pose proof cap_pos. lia. Qed.

Lemma ht_get_ends key s :
  0 ≤ s < cap t → stops t key s → is_Some (ht_get t key).
Proof.
  intros Hs Hst. unfold ht_get. rewrite cap_nonzero.
  destruct (distance (Z.land (hash_u64 key) (ht_mask t)) s (land_mask_range _) Hs)
    as (d & Hd & E).
  eapply ht_get_loop_ends; eauto using land_mask_range.
Qed.

Lemma ht_put_ends key val s :
  0 ≤ s < cap t → stops t key s → is_Some (ht_put t key val).
Proof.
  intros Hs Hst. unfold ht_put.
  destruct (distance (Z.land (hash_u64 key) (ht_mask t)) s (land_mask_range _) Hs)
    as (d & Hd & E).
  eapply ht_put_loop_ends; eauto using land_mask_range.
Qed.

Lemma ht_del_ends key s :
  0 ≤ s < cap t → stops t key s → is_Some (ht_del t key).
Proof.
  intros Hs Hst. unfold ht_del.
  destruct (distance (Z.land (hash_u64 key) (ht_mask t)) s (land_mask_range _) Hs)
    as (d & Hd & E).
  eapply ht_del_loop_ends; eauto using land_mask_range.
Qed.

Lemma ht_get_never key : no_stop t key → ht_get t key = None.
Proof.
  intros Hn. unfold ht_get. rewrite cap_nonzero.
  apply ht_get_loop_never; [done|apply land_mask_range].
Qed.

Lemma in_bounds_not_max i : 0 ≤ i < cap t → (i =? SIZE_MAX) = false.
Proof. pose proof cap_pos. unfold SIZE_MAX. lia. Qed.

Lemma slot_set_overwrite key val i :
  0 ≤ i < cap t → rd 0 (state t) i = 1 → rd 0 (keys t) i = key →
  {| cap := cap t; keys := keys t; vals := wr (vals t) i val; state := state t |}
  = slot_set t i key val.
Proof.
  intros Hi Hs Hk. unfold slot_set. f_equal.
  - rewrite <- Hk. symmetry. apply rd_wr_id. by apply in_keys.
  - rewrite <- Hs. symmetry. apply rd_wr_id. by apply in_state.
Qed.

(** *** The slot [ht_put] writes *)
Lemma ht_put_loop_shape key val : ∀ fuel i ft t',
  0 ≤ i < cap t → tomb_ok t ft →
  ht_put_loop fuel t key val i ft = Some t' →
  ∃ idx, 0 ≤ idx < cap t ∧ writable t key idx ∧ t' = slot_set t idx key val.
Proof.
  induction fuel as [|fuel IH]; intros i ft t' Hi Hft H; [done|].
  simpl in H. destruct (rd 0 (state t) i =? 0) eqn:E0.
  - inversion H; subst t'; clear H. destruct Hft as [->|[Hb Hs]].
    + simpl. exists i. split_and!; [lia|lia|left; lia|done].
    + rewrite (in_bounds_not_max ft Hb). simpl. exists ft.
      split_and!; [lia|lia|right; left; done|done].
  - destruct ((rd 0 (state t) i =? 1) && (rd 0 (keys t) i =? key)) eqn:E1.
    + inversion H; subst t'; clear H. apply andb_true_iff in E1 as [E1 E2].
      exists i. split_and!; [lia|lia|right; right; lia|].
      apply slot_set_overwrite; lia.
    + eapply IH in H; [done|apply land_mask_range; done|].
      destruct ((rd 0 (state t) i =? 2) && (ft =? SIZE_MAX)) eqn:E2; [|done].
      right. split; [done|lia].
Qed.

Lemma get_at_slot_set key val idx fuel :
  0 ≤ idx < cap t →
  ht_get_loop (S fuel) (slot_set t idx key val) key idx = Some val.
Proof.
  intros Hi. simpl.
  rewrite !rd_wr_same by (try lia; auto using in_state, in_keys, in_vals).
  simpl. by rewrite Z.eqb_refl.
Qed.

Lemma get_skip t' key i fuel :
  cap t' = cap t →
  rd 0 (state t') i = rd 0 (state t) i →
  rd 0 (keys t') i = rd 0 (keys t) i →
  (rd 0 (state t) i =? 0) = false →
  (rd 0 (state t) i =? 1) && (rd 0 (keys t) i =? key) = false →
  ht_get_loop (S fuel) t' key i
  = ht_get_loop fuel t' key (Z.land (i + 1) (ht_mask t)).
Proof.
  intros Hc Hs Hk E0 E1. simpl. rewrite Hs, Hk, E0, E1.
  unfold ht_mask. by rewrite Hc.
Qed.

(** *** A key is found where [ht_put] has put it *)
Lemma ht_put_get_loop key val : ∀ fuel i ft t',
  0 ≤ i < cap t → tomb_ok t ft →
  ht_put_loop fuel t key val i ft = Some t' →
  (ft = SIZE_MAX → ht_get_loop fuel t' key i = Some val)
  ∧ (ft ≠ SIZE_MAX →
     t' = slot_set t ft key val
     ∨ (state t' = state t ∧ keys t' = keys t ∧ cap t' = cap t
        ∧ ht_get_loop fuel t' key i = Some val)).
Proof.
  induction fuel as [|fuel IH]; intros i ft t' Hi Hft H; [done|].
  pose proof H as Hshape. apply ht_put_loop_shape in Hshape; [|done..].
  destruct Hshape as (idx & Hidx & Hw & Et').
  simpl in H. destruct (rd 0 (state t) i =? 0) eqn:E0.
  { clear Et'. injection H as <-. split.
    - intros ->. by apply get_at_slot_set.
    - intros Hne. left. destruct Hft as [->|[Hb Hs]]; [done|].
      by rewrite (in_bounds_not_max ft Hb). }
  destruct ((rd 0 (state t) i =? 1) && (rd 0 (keys t) i =? key)) eqn:E1.
  { clear Et'. injection H as <-. apply andb_true_iff in E1 as [E1 E2].
    assert (G : ht_get_loop (S fuel)
                  {| cap := cap t; keys := keys t;
                     vals := wr (vals t) i val; state := state t |} key i
                = Some val).
    { simpl. rewrite E0, E1, E2. simpl.
      by rewrite rd_wr_same by (try lia; auto using in_vals). }
    split; [done|]. intros _. by right. }
  assert (Hn : 0 ≤ Z.land (i + 1) (ht_mask t) < cap t) by apply land_mask_range.
  destruct ((rd 0 (state t) i =? 2) && (ft =? SIZE_MAX)) eqn:E2.
  - apply andb_true_iff in E2 as [E2 E3].
    assert (Hti : tomb_ok t i) by (right; split; [done|lia]).
    destruct (IH _ _ _ Hn Hti H) as [_ IH2].
    assert (Hne : i ≠ SIZE_MAX) by (pose proof (in_bounds_not_max i Hi); lia).
    assert (G : ht_get_loop (S fuel) t' key i = Some val).
    { destruct (IH2 Hne) as [->|(Hs & Hk & Hc & Hg)].
      - by apply get_at_slot_set.
      - rewrite get_skip; [done|done|by rewrite Hs|by rewrite Hk|done|done]. }
    split; [done|]. intros Hft'. lia.
  - destruct (IH _ _ _ Hn Hft H) as [IH1 IH2]. split.
    + intros ->. specialize (IH1 eq_refl).
      assert (idx ≠ i).
      { intros ->. destruct Hw as [Hw|[Hw|[Hw1 Hw2]]]; lia. }
      rewrite get_skip; [done|by subst t'|..|done|done].
      * subst t'. simpl. rewrite rd_wr_ne; [done|lia..].
      * subst t'. simpl. rewrite rd_wr_ne; [done|lia..].
    + intros Hne. destruct (IH2 Hne) as [->|(Hs & Hk & Hc & Hg)]; [by left|].
      right. split_and!; try done.
      rewrite get_skip; [done|done|by rewrite Hs|by rewrite Hk|done|done].
Qed.

Lemma ht_put_shape key val t' :
  ht_put t key val = Some t' →
  ∃ idx, 0 ≤ idx < cap t ∧ writable t key idx ∧ t' = slot_set t idx key val.
Proof.
  unfold ht_put. apply ht_put_loop_shape; [apply land_mask_range|by left].
Qed.

Lemma ht_put_get key val t' :
  ht_put t key val = Some t' → ht_get t' key = Some val.
Proof.
  intros H. pose proof H as Hs. apply ht_put_shape in Hs as (idx & _ & _ & E).
  assert (Hc : cap t' = cap t) by by subst t'.
  unfold ht_put in H. apply ht_put_get_loop in H as [H _];
    [|apply land_mask_range|by left].
  unfold ht_get. rewrite Hc, cap_nonzero.
  replace (ht_mask t') with (ht_mask t) by (unfold ht_mask; by rewrite Hc).
  by apply H.
Qed.

(** *** The slot [ht_del] writes *)
Lemma ht_del_loop_shape key : ∀ fuel i t',
  0 ≤ i < cap t → ht_del_loop fuel t key i = Some t' →
  t' = t
  ∨ ∃ idx, 0 ≤ idx < cap t ∧ rd 0 (state t) idx = 1
           ∧ rd 0 (keys t) idx = key ∧ t' = slot_del t idx.
Proof.
  induction fuel as [|fuel IH]; intros i t' Hi H; [done|].
  simpl in H. destruct (rd 0 (state t) i =? 0) eqn:E0.
  - left. by inversion H.
  - destruct ((rd 0 (state t) i =? 1) && (rd 0 (keys t) i =? key)) eqn:E1.
    + inversion H; subst t'. apply andb_true_iff in E1 as [E1 E2].
      right. exists i. split_and!; [lia|lia|lia|lia|done].
    + eapply IH; [|done]. apply land_mask_range.
Qed.

Lemma ht_del_shape key t' :
  ht_del t key = Some t' →
  t' = t
  ∨ ∃ idx, 0 ≤ idx < cap t ∧ rd 0 (state t) idx = 1
           ∧ rd 0 (keys t) idx = key ∧ t' = slot_del t idx.
Proof. unfold ht_del. apply ht_del_loop_shape, land_mask_range. Qed.
End table.

Lemma slot_set_ok t idx key val : table_ok t → table_ok (slot_set t idx key val).
Proof.
  intros (Hc & H1 & H2 & H3). unfold table_ok, slot_set. simpl.
  rewrite !length_wr. done.
Qed.

Lemma slot_del_ok t idx : table_ok t → table_ok (slot_del t idx).
Proof.
  intros (Hc & H1 & H2 & H3). unfold table_ok, slot_del. simpl.
  rewrite !length_wr. done.
Qed.

Lemma ht_put_ok t key val t' : table_ok t → ht_put t key val = Some t' → table_ok t'.
Proof.
  intros Hok H. apply ht_put_shape in H as (idx & _ & _ & ->); [|done].
  by apply slot_set_ok.
Qed.

Lemma ht_del_ok t key t' : table_ok t → ht_del t key = Some t' → table_ok t'.
Proof.
  intros Hok H. apply ht_del_shape in H as [->|(idx & _ & _ & _ & ->)]; [done| |done].
  by apply slot_del_ok.
Qed.

(** No operation turns a slot that is not empty into an empty one. *)
Lemma ht_put_keeps_full t key val t' s :
  table_ok t → ht_put t key val = Some t' → 0 ≤ s →
  rd 0 (state t') s = 0 → rd 0 (state t) s = 0.
Proof.
  intros Hok H Hs. apply ht_put_shape in H as (idx & Hi & _ & ->); [|done].
  simpl. destruct (decide (idx = s)) as [->|Hne].
  - rewrite rd_wr_same; [lia|lia|]. by apply in_state.
  - rewrite rd_wr_ne by lia. done.
Qed.

Lemma ht_del_keeps_full t key t' s :
  table_ok t → ht_del t key = Some t' → 0 ≤ s →
  rd 0 (state t') s = 0 → rd 0 (state t) s = 0.
Proof.
  intros Hok H Hs. apply ht_del_shape in H as [->|(idx & Hi & _ & _ & ->)]; [done| |done].
  simpl. destruct (decide (idx = s)) as [->|Hne].
  - rewrite rd_wr_same; [lia|lia|]. by apply in_state.
  - rewrite rd_wr_ne by lia. done.
Qed.

(** * The page buffers: [valid_len] and the zero tail *)

Section pres.
Context (PS : Z).

Lemma pres_ret {A : Type} (a : A) (R : A → Prop) : R a → pres PS (ret a) R.
Proof. intros H w Hw. by split. Qed.

Lemma pres_bind {A B : Type} (m : M A) (k : A → M B) R1 R :
  pres PS m R1 → (∀ a, R1 a → pres PS (k a) R) → pres PS (bind m k) R.
Proof.
  intros Hm Hk w Hw. apply wp_bind. eapply wp_mono; [by apply Hm|].
  intros a w' [Hw' Ha]. by apply Hk.
Qed.

Lemma pres_weaken {A : Type} (m : M A) (R R' : A → Prop) :
  pres PS m R → (∀ a, R a → R' a) → pres PS m R'.
Proof.
  intros Hm HR w Hw. eapply wp_mono; [by apply Hm|].
  intros a w' [? ?]. auto.
Qed.

Lemma pres_diverge {A : Type} (R : A → Prop) : pres PS diverge R.
Proof. by intros w Hw. Qed.

Lemma pres_undef {A : Type} (R : A → Prop) : pres PS undef R.
Proof. by intros w Hw. Qed.

Lemma pres_get_w : pres PS get_w (inner_ok PS).
Proof. by intros w Hw. Qed.

Lemma pres_get_h : pres PS get_h (hnd_ok PS).
Proof. intros w Hw. split; [done|]. apply Hw. Qed.

Lemma pres_get_c : pres PS get_c (λ c, page_size c = PS).
Proof. intros w Hw. split; [done|]. apply Hw. Qed.

Lemma pres_lift_ht {A : Type} (o : option A) :
  pres PS (lift_ht o) (λ a, o = Some a).
Proof. intros w Hw. destruct o; by simpl. Qed.

Lemma pres_deref p : pres PS (deref p) (page_ok PS).
Proof.
  intros w Hw. unfold wp, deref. destruct (pages w !! p) eqn:E; [|done].
  split; [done|]. destruct Hw as (Hh & _). by eapply Hh.
Qed.

Lemma pres_deref_ghost g : pres PS (deref_ghost g) (λ _, True).
Proof.
  intros w Hw. unfold wp, deref_ghost. by destruct (ghost_objs w !! g).
Qed.

Lemma pres_store p e : page_ok PS e → pres PS (store p e) (λ _, True).
Proof.
  intros He w (Hh & Hn & Hes & Hps). split; [|done].
  unfold inner_ok, heap_ok, eff_page_size in *. simpl. split_and!; try lia; auto.
  intros p' e' H. destruct (decide (p = p')) as [->|Hne].
  - rewrite lookup_insert_eq in H. by inversion H; subst.
  - rewrite lookup_insert_ne in H by done. by eapply Hh.
Qed.

Lemma pres_update p f :
  (∀ e, page_ok PS e → page_ok PS (f e)) → pres PS (update p f) (λ _, True).
Proof.
  intros Hf. unfold update. eapply pres_bind; [apply pres_deref|].
  intros e He. by apply pres_store, Hf.
Qed.

Lemma pres_free p : pres PS (modify (with_pages (delete p))) (λ _, True).
Proof.
  intros w (Hh & Hn & Hes & Hps). split; [|done].
  unfold inner_ok, heap_ok, eff_page_size in *. simpl. split_and!; try lia; auto.
  intros p' e' H. apply lookup_delete_Some in H as [_ H].
  by eapply Hh.
Qed.

Lemma pres_mod_h f :
  (∀ h, hnd_ok PS h → hnd_ok PS (f h)) → pres PS (mod_h f) (λ _, True).
Proof.
  intros Hf w (Hh & Hn & He & Hps). split; [|done].
  unfold inner_ok, heap_ok, eff_page_size in *. simpl. split_and!; try lia; auto.
Qed.

Lemma pres_mod_c f :
  (∀ c, page_size (f c) = page_size c) → pres PS (mod_c f) (λ _, True).
Proof.
  intros Hf. apply pres_mod_h. intros h (H1 & H2 & H3 & H4).
  unfold hnd_ok. simpl. rewrite Hf. done.
Qed.

(** Changes of the world that the invariant does not look at. *)
Lemma pres_frame f :
  (∀ w, pages (f w) = pages w ∧ hnd (f w) = hnd w
        ∧ sys_pagesize (f w) = sys_pagesize w) →
  pres PS (modify f) (λ _, True).
Proof.
  intros Hf w (Hh & Hn & He & Hps). destruct (Hf w) as (E1 & E2 & E3).
  split; [|done]. unfold wp, modify, inner_ok, heap_ok, eff_page_size in *.
  rewrite E1, E2, E3. done.
Qed.

Lemma pres_set_errno e : pres PS (set_errno e) (λ _, True).
Proof. by apply pres_frame. Qed.

Lemma pres_next_fault : pres PS next_fault (λ _, True).
Proof.
  intros w Hw. unfold wp, next_fault. destruct (oracle w) eqn:E; [done|].
  split; [|done]. destruct Hw as (Hh & Hn & He & Hps).
  unfold inner_ok, heap_ok, eff_page_size in *. simpl. split_and!; try lia; auto.
Qed.

End pres.

Create HintDb pres.
Global Hint Resolve pres_get_w pres_get_h pres_get_c pres_lift_ht pres_deref
  pres_deref_ghost pres_free pres_set_errno pres_next_fault pres_diverge
  pres_undef : pres.

(** One step through the code of a function. *)
Ltac pres_step :=
  lazymatch goal with
  | |- pres _ (ret _) _ => apply pres_ret; try done
  | |- pres _ diverge _ => apply pres_diverge
  | |- pres _ undef _ => apply pres_undef
  | |- pres _ (bind _ _) _ =>
      eapply pres_bind; [solve [eauto with pres] | intros ? ?]
  | |- pres _ (if ?b then _ else _) _ => destruct b eqn:?
  | |- pres _ (match ?x with _ => _ end) _ => destruct x eqn:?
  end.

Ltac pres_go := repeat (pres_step; cbv beta iota zeta in *).

Global Hint Extern 1 (pres _ (modify _) _) =>
  (apply pres_frame; intros; done) : pres.
Global Hint Extern 1 (pres _ (mod_c _) _) =>
  (apply pres_mod_c; intros; done) : pres.
Global Hint Extern 1 (pres _ (update _ (set_dirty _)) _) =>
  (apply pres_update; intros ? ?; assumption) : pres.
Global Hint Extern 1 (pres _ (update _ (set_q _)) _) =>
  (apply pres_update; intros ? ?; assumption) : pres.

Lemma wrap64_range x : 0 ≤ wrap64 x < 2 ^ 64.
Proof. unfold wrap64. apply Z.mod_pos_bound. lia. Qed.

Lemma min_sz_le a b : min_sz a b ≤ a ∧ min_sz a b ≤ b.
Proof. unfold min_sz. destruct (a <? b) eqn:E; lia. Qed.

Lemma min_sz_ge a b : 0 ≤ a → 0 ≤ b → 0 ≤ min_sz a b.
Proof. unfold min_sz. destruct (a <? b); lia. Qed.

Lemma rem_page cur ps :
  0 ≤ cur → 0 < ps < 2 ^ 32 →
  wrap64 (Z.rem cur ps) = cur mod ps ∧ 0 ≤ cur mod ps < ps.
Proof.
  intros Hc Hp. rewrite Z.rem_mod_nonneg by lia.
  pose proof (Z.mod_pos_bound cur ps ltac:(lia)).
  split; [|done]. apply wrap64_small. lia.
Qed.

(** Bytes [s] copied over [l] at offset [a]. *)
Lemma lookup_splice {A : Type} (l s : list A) (a i : nat) :
  (a + length s ≤ length l)%nat →
  (take a l ++ s ++ drop (a + length s) l) !! i
  = if decide (i < a)%nat then l !! i
    else if decide (i < a + length s)%nat then s !! (i - a)%nat
    else l !! i.
Proof.
  intros H. case_decide.
  - rewrite lookup_app_l by (rewrite length_take; lia).
    by rewrite lookup_take_lt by lia.
  - rewrite lookup_app_r by (rewrite length_take; lia).
    rewrite length_take, Nat.min_l by lia. case_decide.
    + by rewrite lookup_app_l by lia.
    + rewrite lookup_app_r by lia. rewrite lookup_drop. f_equal. lia.
Qed.

Lemma length_splice {A : Type} (l s : list A) (a : nat) :
  (a + length s ≤ length l)%nat →
  length (take a l ++ s ++ drop (a + length s) l) = length l.
Proof.
  intros H. rewrite !length_app, length_take, length_drop. lia.
Qed.

Lemma page_ok_flags PS e d x :
  page_ok PS e → page_ok PS (mk_page (page_no e) (data e) (valid_len e) d x).
Proof. done. Qed.

(** A freshly loaded page: the bytes read, then zeros. *)
Lemma page_ok_loaded PS pno (bs : list byte) :
  0 < PS < 2 ^ 32 → Z.of_nat (length bs) ≤ PS →
  let vl := Z.of_nat (length bs) in
  page_ok PS (mk_page pno
    (if vl <? PS then bs ++ replicate (Z.to_nat (sz_sub PS vl)) x00 else bs)
    vl 0 0).
Proof.
  intros HPS Hl vl. unfold page_ok. simpl. split; [lia|].
  unfold sz_sub. rewrite wrap64_small by lia.
  destruct (vl <? PS) eqn:E.
  - split.
    + rewrite length_app, length_replicate. lia.
    + intros i Hi. rewrite lookup_app_r by lia.
      apply lookup_replicate_2. lia.
  - split; [lia|]. intros i Hi. lia.
Qed.

(** A write into a page keeps [valid_len] within the page and the bytes
    after it zero, also when it starts after [valid_len]. *)
Lemma page_ok_written PS e in_page chunk (src : list byte) :
  page_ok PS e → 0 < PS < 2 ^ 32 →
  0 ≤ in_page → 0 ≤ chunk → in_page + chunk ≤ PS →
  Z.of_nat (length src) = chunk →
  page_ok PS (write_page e in_page chunk src).
Proof.
  intros (Hvl & Hlen & Hz) HPS Hip Hch Hsum Hsrc.
  unfold write_page. cbv zeta.
  set (d1 := if in_page >? valid_len e
             then take (Z.to_nat (valid_len e)) (data e)
                  ++ replicate (Z.to_nat (sz_sub in_page (valid_len e))) x00
                  ++ drop (Z.to_nat in_page) (data e)
             else data e).
  assert (Hd1 : length d1 = length (data e)
                ∧ ∀ i, valid_len e ≤ i < PS → d1 !! Z.to_nat i = Some x00).
  { unfold d1. destruct (in_page >? valid_len e) eqn:E; [|done].
    unfold sz_sub. rewrite wrap64_small by lia.
    set (z := replicate (Z.to_nat (in_page - valid_len e)) x00).
    assert (Hzl : length z = Z.to_nat (in_page - valid_len e))
      by apply length_replicate.
    replace (Z.to_nat in_page)
      with (Z.to_nat (valid_len e) + length z)%nat by lia.
    split; [apply length_splice; lia|].
    intros i Hi. rewrite lookup_splice by lia.
    case_decide; [lia|]. case_decide; [|apply Hz; lia].
    apply lookup_replicate_2. lia. }
  destruct Hd1 as [Hl1 Hz1]. clearbody d1.
  unfold page_ok. cbn [valid_len data].
  unfold sz_add. rewrite wrap64_small by lia.
  replace (Z.to_nat (in_page + chunk))
    with (Z.to_nat in_page + length src)%nat by lia.
  unfold max_sz.
  destruct (valid_len e >? in_page + chunk) eqn:Emax;
    (split_and!;
     [lia | lia | rewrite length_splice by lia; lia
     | intros i Hi; rewrite lookup_splice by lia;
       case_decide; [lia|]; case_decide; [lia|]; apply Hz1; lia]).
Qed.

Global Hint Extern 2 (pres _ (if ?b then _ else _) _) => destruct b : pres.
Global Hint Extern 1 (pres _ (ret _) _) => (apply pres_ret; exact I) : pres.

Section funcs.
Context (PS : Z) (HPS : 0 < PS < 2 ^ 32).

Lemma pres_calloc : pres PS calloc (λ _, True).
Proof. unfold calloc. pres_go. Qed.

Lemma pres_posix_memalign : pres PS posix_memalign (λ _, True).
Proof. unfold posix_memalign. pres_go. Qed.

Lemma pres_sys_pread n off :
  pres PS (sys_pread n off)
    (λ r, fst r < 0 ∨ (fst r = Z.of_nat (length (snd r))
                       ∧ (length (snd r) ≤ Z.to_nat n)%nat)).
Proof.
  unfold sys_pread. pres_go; try (left; simpl; lia).
  right. simpl. split; [done|]. unfold file_read. rewrite length_take. lia.
Qed.

Lemma pres_sys_pwrite buf off : pres PS (sys_pwrite buf off) (λ _, True).
Proof. unfold sys_pwrite. pres_go. Qed.

Lemma pres_sys_ftruncate len : pres PS (sys_ftruncate len) (λ _, True).
Proof. unfold sys_ftruncate. pres_go. Qed.

Lemma pres_sys_fsync : pres PS sys_fsync (λ _, True).
Proof. unfold sys_fsync. pres_go. Qed.

Lemma pres_drop_os_cache : pres PS drop_os_cache (λ _, True).
Proof. unfold drop_os_cache. pres_go. Qed.

Local Hint Resolve pres_calloc pres_posix_memalign pres_sys_pread
  pres_sys_pwrite pres_sys_ftruncate pres_sys_fsync pres_drop_os_cache : pres.

Lemma pres_pread_fullpage n off :
  pres PS (pread_fullpage n off)
    (λ r, fst r < 0 ∨ (fst r = Z.of_nat (length (snd r))
                       ∧ (length (snd r) ≤ Z.to_nat n)%nat)).
Proof. unfold pread_fullpage. pres_go. Qed.

Lemma pres_pwrite_fullpage buf n off :
  pres PS (pwrite_fullpage buf n off) (λ _, True).
Proof. unfold pwrite_fullpage. pres_go. Qed.

Lemma pres_cache_free_page p : pres PS (cache_free_page p) (λ _, True).
Proof. unfold cache_free_page. pres_go. auto with pres. Qed.

Lemma pres_cache_free_ghost g : pres PS (cache_free_ghost g) (λ _, True).
Proof. unfold cache_free_ghost. auto with pres. Qed.

Local Hint Resolve pres_pread_fullpage pres_pwrite_fullpage
  pres_cache_free_page pres_cache_free_ghost : pres.

Lemma pres_cache_flush_page p : pres PS (cache_flush_page p) (λ _, True).
Proof. unfold cache_flush_page. pres_go. Qed.

Local Hint Resolve pres_cache_flush_page : pres.

Lemma pres_trim_a1out fuel : pres PS (trim_a1out fuel) (λ _, True).
Proof. induction fuel as [|fuel IH]; simpl; pres_go; apply IH. Qed.

Local Hint Resolve pres_trim_a1out : pres.

Lemma pres_cache_add_ghost pno : pres PS (cache_add_ghost pno) (λ _, True).
Proof. unfold cache_add_ghost. pres_go. Qed.

Local Hint Resolve pres_cache_add_ghost : pres.

Lemma pres_evict_from_a1in : pres PS evict_from_a1in (λ _, True).
Proof. unfold evict_from_a1in. pres_go. Qed.

Lemma pres_evict_from_am : pres PS evict_from_am (λ _, True).
Proof. unfold evict_from_am. pres_go. Qed.

Local Hint Resolve pres_evict_from_a1in pres_evict_from_am : pres.

Lemma pres_a1in_total_loop fuel : pres PS (a1in_total_loop fuel) (λ _, True).
Proof. induction fuel as [|fuel IH]; simpl; pres_go; apply IH. Qed.

Lemma pres_am_cap_loop fuel : pres PS (am_cap_loop fuel) (λ _, True).
Proof. induction fuel as [|fuel IH]; simpl; pres_go; apply IH. Qed.

Lemma pres_am_total_loop fuel : pres PS (am_total_loop fuel) (λ _, True).
Proof. induction fuel as [|fuel IH]; simpl; pres_go; apply IH. Qed.

Local Hint Resolve pres_a1in_total_loop pres_am_cap_loop pres_am_total_loop : pres.

Lemma pres_ensure_space_for_a1in : pres PS ensure_space_for_a1in (λ _, True).
Proof. unfold ensure_space_for_a1in. pres_go; auto with pres. Qed.

Lemma pres_ensure_space_for_am : pres PS ensure_space_for_am (λ _, True).
Proof. unfold ensure_space_for_am. pres_go; auto with pres. Qed.

Local Hint Resolve pres_ensure_space_for_a1in pres_ensure_space_for_am : pres.

Lemma pres_load_page pno : pres PS (load_page pno) (λ _, True).
Proof.
  unfold load_page. pres_go.
  eapply pres_bind; [|intros; pres_go].
  apply pres_store. simpl in *.
  match goal with H : _ ∨ _ |- _ => destruct H as [H|[Hfst Hlen]]; [lia|] end.
  match goal with H : page_size _ = PS |- _ => rewrite H in * end.
  rewrite Hfst. apply page_ok_loaded; [done|lia].
Qed.

Local Hint Resolve pres_load_page : pres.

Lemma pres_cache_get pno : pres PS (cache_get pno) (λ _, True).
Proof. unfold cache_get. pres_go. Qed.

Local Hint Resolve pres_cache_get : pres.

Lemma pres_flush_list l : pres PS (flush_list l) (λ _, True).
Proof. induction l as [|p l IH]; simpl; pres_go; apply IH. Qed.

Local Hint Resolve pres_flush_list : pres.

Lemma pres_cache_flush_all : pres PS cache_flush_all (λ _, True).
Proof. unfold cache_flush_all. pres_go. Qed.

Lemma hnd_ok_with_pos h x :
  hnd_ok PS h → 0 ≤ x → hnd_ok PS (with_pos x h).
Proof. intros (H1 & H2 & H3 & H4) Hx. by split_and!. Qed.

Lemma hnd_ok_with_size h x :
  hnd_ok PS h → 0 ≤ x → hnd_ok PS (with_size x h).
Proof. intros (H1 & H2 & H3 & H4) Hx. by split_and!. Qed.

Lemma pres_set_pos x :
  0 ≤ x → pres PS (mod_h (with_pos x)) (λ _, True).
Proof. intros Hx. apply pres_mod_h. intros h Hh. by apply hnd_ok_with_pos. Qed.

Lemma pres_set_size x :
  0 ≤ x → pres PS (mod_h (with_size x)) (λ _, True).
Proof. intros Hx. apply pres_mod_h. intros h Hh. by apply hnd_ok_with_size. Qed.

Lemma pres_read_loop fuel count : ∀ total buf,
  pres PS (read_loop fuel count PS total buf) (λ _, True).
Proof.
  induction fuel as [|fuel IH]; intros total buf; simpl; pres_go.
  match goal with H : hnd_ok PS ?h |- pres _ (bind (mod_h (with_pos (pos ?h + ?tk))) _) _ =>
    assert (0 ≤ tk) by (apply min_sz_ge; [apply min_sz_ge|]; apply wrap64_range);
    destruct H as (? & ? & ? & ?)
  end.
  eapply pres_bind; [apply pres_set_pos; lia|intros; pres_go]. apply IH.
Qed.

Lemma pres_write_loop fuel src count :
  count ≤ Z.of_nat (length src) → count < 2 ^ 64 →
  ∀ total, 0 ≤ total ≤ count →
  pres PS (write_loop fuel src count PS total) (λ _, True).
Proof.
  intros Hsrc Hcount.
  induction fuel as [|fuel IH]; intros total Htot; simpl; pres_go.
  match goal with H : hnd_ok PS ?h |- pres _ (bind (store _ (write_page _ ?ip ?ch _)) _) _ =>
    destruct H as (Hu & Hp & Hpos & Hsz);
    destruct (rem_page (pos h) PS ltac:(lia) HPS) as [Erem Hrem];
    assert (Hch : 0 ≤ ch ≤ count - total ∧ ch ≤ PS - ip)
  end.
  { pose proof (min_sz_le (sz_sub count total) (sz_sub PS (wrap64 (Z.rem (pos a) PS)))) as [L1 L2].
    unfold sz_sub in *. rewrite Erem in *.
    rewrite (wrap64_small (count - total)) in * by lia.
    rewrite (wrap64_small (PS - pos a mod PS)) in * by lia.
    split_and!; try lia. apply min_sz_ge; lia. }
  rewrite Erem in *.
  eapply pres_bind.
  { apply pres_store. apply page_ok_written; try done; try lia.
    rewrite length_take, length_drop. lia. }
  intros. pres_go.
  all: match goal with H : hnd_ok PS ?h |- _ => destruct H as (? & ? & ? & ?) end.
  - eapply pres_bind; [apply pres_set_pos; lia|intros; pres_go].
    + eapply pres_bind; [apply pres_set_size; lia|intros; pres_go].
      apply IH. unfold sz_add. rewrite wrap64_small by lia. lia.
    + apply IH. unfold sz_add. rewrite wrap64_small by lia. lia.
Qed.

Lemma pres_get_handle fd :
  pres PS (get_handle fd) (λ oh, ∀ h, oh = Some h → hnd_ok PS h).
Proof.
  unfold get_handle. pres_go; try (intros ? [=]). by subst.
Qed.

Local Hint Resolve pres_get_handle pres_cache_flush_all : pres.

Lemma pres_vtpc_read fd buf count : pres PS (vtpc_read fd buf count) (λ _, True).
Proof.
  unfold vtpc_read. pres_go.
  match goal with H : ∀ h, Some ?v = Some h → _ |- _ =>
    destruct (H v eq_refl) as (? & E & ? & ?) end.
  rewrite E. apply pres_read_loop.
Qed.

Lemma pres_vtpc_write fd buf count :
  0 ≤ count ≤ OFF_MAX → pres PS (vtpc_write fd buf count) (λ _, True).
Proof.
  intros Hc. unfold vtpc_write. pres_go.
  match goal with H : ∀ h, Some ?v = Some h → _ |- _ =>
    pose proof (H v eq_refl) as Hv; destruct Hv as (? & E & ? & ?) end.
  rewrite E.
  eapply (pres_bind _ _ _ (λ _, True)).
  - destruct (negb (Z.land (flags v) O_APPEND =? 0)); [|by apply pres_ret].
    apply pres_mod_h. intros h (? & ? & ? & ?). by split_and!.
  - intros. apply pres_write_loop; unfold OFF_MAX in *; lia.
Qed.
End funcs.

(** ** The API keeps the invariant *)

Lemma get_handle_open w : is_open w → get_handle 3 w = Ret (Some (hnd w)) w.
Proof.
  unfold is_open, get_handle. intros H. prims. simpl.
  replace (used (hnd w) =? 0) with false by lia. done.
Qed.

Lemma get_handle_closed fd w : used (hnd w) = 0 → get_handle fd w = Ret None w.
Proof.
  unfold get_handle. intros H. prims.
  destruct ((fd <? 0) || (fd >=? VTPC_MAX_HANDLES)); [done|].
  rewrite H. simpl. by rewrite orb_true_r.
Qed.

Lemma get_handle_other fd w : fd ≠ 3 → get_handle fd w = Ret None w.
Proof.
  unfold get_handle. intros H. prims.
  destruct ((fd <? 0) || (fd >=? VTPC_MAX_HANDLES)); [done|].
  replace (fd =? 3) with false by lia. done.
Qed.


Lemma pres_vtpc_lseek PS fd off wh :
  0 < PS < 2 ^ 32 → pres PS (vtpc_lseek fd off wh) (λ _, True).
Proof.
  intros HPS. unfold vtpc_lseek.
  eapply pres_bind; [by apply pres_get_handle|]. intros oh Hoh.
  destruct oh as [h|]; [|pres_go].
  set (ob := if wh =? SEEK_SET then Some 0
             else if wh =? SEEK_CUR then Some (pos h)
             else if wh =? SEEK_END then Some (h_size h) else None).
  destruct ob as [base|]; [|pres_go]. cbv zeta.
  destruct ((base + off >? OFF_MAX) || (base + off <? - OFF_MAX - 1)); [pres_go|].
  destruct (base + off <? 0) eqn:E; [pres_go|].
  eapply pres_bind; [apply pres_set_pos; lia|intros; pres_go].
Qed.

Lemma pres_vtpc_fsync PS fd :
  0 < PS < 2 ^ 32 → pres PS (vtpc_fsync fd) (λ _, True).
Proof.
  intros HPS. unfold vtpc_fsync.
  eapply pres_bind; [by apply pres_get_handle|]. intros oh Hoh.
  destruct oh; [by apply pres_cache_flush_all|pres_go].
Qed.

Lemma same_core_refl w : same_core w w.
Proof. done. Qed.

Lemma same_core_trans w1 w2 w3 :
  same_core w1 w2 → same_core w2 w3 → same_core w1 w3.
Proof. intros (A1 & A2 & A3) (B1 & B2 & B3). split_and!; congruence. Qed.

Lemma api_ok_same_core w w' : same_core w w' → api_ok w → api_ok w'.
Proof.
  intros (E1 & E2 & E3). unfold api_ok, heap_ok, eff_page_size.
  rewrite E1, E2, E3. done.
Qed.

Lemma api_inner w :
  api_ok w → used (hnd w) ≠ 0 → inner_ok (eff_page_size w) w.
Proof. intros (H1 & H2 & H3 & H4) Hu. split_and!; auto; lia. Qed.

Lemma inner_api PS w : inner_ok PS w → api_ok w.
Proof.
  intros (H1 & H2 & H3 & H4). unfold api_ok. rewrite H3.
  split_and!; try done; try lia. intros Hu. by destruct H2.
Qed.

Lemma pres_api PS {A : Type} (m : M A) R w :
  pres PS m R → inner_ok PS w → wp m (λ _ w', api_ok w') w.
Proof.
  intros Hm Hw. eapply wp_mono; [by apply Hm|].
  intros a w' [Hw' _]. by eapply inner_api.
Qed.

Lemma closed_api {A : Type} (k : option vtpc_handle_t → M A) fd w (a : A) :
  api_ok w → used (hnd w) = 0 →
  k None = (let* _ := set_errno EBADF in ret a) →
  wp (let* oh := get_handle fd in k oh) (λ _ w', api_ok w') w.
Proof.
  intros Hw Hu Hk. unfold wp, bind. rewrite get_handle_closed by done.
  rewrite Hk. simpl. by eapply api_ok_same_core.
Qed.

Lemma quiet_ret {A : Type} (a : A) : quiet (ret a).
Proof. intros w. apply same_core_refl. Qed.

Lemma quiet_bind {A B : Type} (m : M A) (k : A → M B) :
  quiet m → (∀ a, quiet (k a)) → quiet (bind m k).
Proof.
  intros Hm Hk w. apply wp_bind. eapply wp_mono; [apply Hm|].
  intros a w' Hs. cbv beta. eapply wp_mono; [apply Hk|].
  intros b w'' Hs'. exact (same_core_trans _ _ _ Hs Hs').
Qed.

Lemma quiet_modify f :
  (∀ w, same_core w (f w)) → quiet (modify f).
Proof. intros Hf w. apply Hf. Qed.

Lemma quiet_get_w : quiet get_w.
Proof. intros w. apply same_core_refl. Qed.

Lemma quiet_get_h : quiet get_h.
Proof. intros w. apply same_core_refl. Qed.

Lemma quiet_next_fault : quiet next_fault.
Proof. intros w. unfold wp, next_fault. by destruct (oracle w). Qed.

Lemma quiet_set_errno e : quiet (set_errno e).
Proof. by apply quiet_modify. Qed.

Create HintDb quiet.
Global Hint Resolve quiet_ret quiet_get_w quiet_get_h quiet_next_fault
  quiet_set_errno : quiet.
Global Hint Extern 1 (quiet (modify _)) => (apply quiet_modify; intros; done) : quiet.

Ltac quiet_step :=
  lazymatch goal with
  | |- quiet (bind _ _) => apply quiet_bind; [solve [auto with quiet] | intros ?]
  | |- quiet (if ?b then _ else _) => destruct b eqn:?
  | |- quiet (match ?x with _ => _ end) => destruct x eqn:?
  | |- quiet _ => solve [auto with quiet]
  end.
Ltac quiet_go := cbv beta iota zeta; repeat (quiet_step; cbv beta iota zeta in *).

Lemma quiet_sys_open fl : quiet (sys_open fl).
Proof.
  unfold sys_open. quiet_go.
  apply quiet_bind; [|intros; quiet_go].
  destruct (negb (Z.land fl O_TRUNC =? 0) && negb (acc_mode fl =? O_RDONLY));
    quiet_go.
Qed.

Lemma quiet_sys_fstat : quiet sys_fstat.
Proof. unfold sys_fstat. quiet_go. Qed.

Lemma quiet_sys_close : quiet sys_close.
Proof. unfold sys_close. quiet_go. Qed.

Global Hint Resolve quiet_sys_open quiet_sys_fstat quiet_sys_close : quiet.

Lemma quiet_api {A : Type} (m : M A) w :
  quiet m → api_ok w → wp m (λ _ w', api_ok w') w.
Proof.
  intros Hm Hw. eapply wp_mono; [apply Hm|].
  intros a w' Hs. exact (api_ok_same_core _ _ Hs Hw).
Qed.

Lemma init_once_api w :
  api_ok w → wp vtpc_init_once (λ _ w', api_ok w') w.
Proof.
  intros (H1 & H2 & H3 & H4). unfold vtpc_init_once, wp. prims.
  destruct (negb (g_inited w =? 0)); simpl; [done|].
  unfold api_ok, heap_ok, eff_page_size in *. simpl.
  split_and!; auto; try lia; done.
Qed.

Lemma cache_init_spec ps w :
  wp (cache_init ps)
    (λ _ w', pages w' = pages w ∧ sys_pagesize w' = sys_pagesize w
             ∧ used (hnd w') = used (hnd w) ∧ pos (hnd w') = pos (hnd w)
             ∧ h_size (hnd w') = h_size (hnd w)
             ∧ page_size (cache (hnd w')) = ps) w.
Proof.
  unfold wp, cache_init, ht_init. prims. simpl.
  repeat (case_goal; simpl; try done).
Qed.

Lemma vtpc_page_size_eq w : vtpc_page_size w = Ret (eff_page_size w) w.
Proof.
  unfold vtpc_page_size, eff_page_size. prims.
  by destruct (sys_pagesize w <=? 0).
Qed.

(** The part of [vtpc_open] that runs once the slot and the descriptor
    are there. *)
Lemma open_tail_api fd fl dir sz slot w :
  api_ok w → 0 ≤ sz →
  wp (let* _ := mod_h (λ _, mk_handle 1 fd fl dir 0 sz cache_zero) in
      let* ps := vtpc_page_size in
      let* rc := cache_init ps in
      if negb (rc =? 0) then
        let* w := get_w in
        let* _ := sys_close in
        let* _ := mod_h (λ _, handle_zero) in
        let* _ := set_errno (errno w) in
        ret (-1)
      else ret slot) (λ _ w', api_ok w') w.
Proof.
  intros (H1 & H2 & H3 & H4) Hsz.
  apply wp_bind. unfold wp at 1, mod_h, modify. cbv beta iota.
  set (w1 := with_hnd _ w).
  apply wp_bind. unfold wp at 1. rewrite vtpc_page_size_eq. cbv beta iota.
  replace (eff_page_size w1) with (eff_page_size w) by done.
  apply wp_bind.
  eapply wp_mono; [apply cache_init_spec|].
  intros rc w2 (E1 & E2 & E3 & E4 & E5 & E6). cbv beta.
  assert (Hes : eff_page_size w2 = eff_page_size w)
    by (unfold eff_page_size; by rewrite E2).
  subst w1. simpl in E1, E2, E3, E4, E5.
  destruct (negb (rc =? 0)).
  - apply wp_bind. unfold wp at 1. prims. apply wp_bind.
    eapply wp_mono; [apply quiet_sys_close|].
    intros r w3 (F1 & F2 & F3). cbv beta. unfold wp. prims. simpl.
    unfold api_ok, heap_ok, eff_page_size in *. simpl.
    rewrite F1, F3, E1, E2. split_and!; auto; try lia; done.
  - unfold wp. simpl. unfold api_ok, hnd_ok, heap_ok. rewrite Hes.
    rewrite E1, E3, E4, E5, E6.
    split_and!; try done; try lia; auto.
Qed.

Lemma vtpc_open_api path mode access w :
  api_ok w → wp (vtpc_open path mode access) (λ _ w', api_ok w') w.
Proof.
  intros Hw. unfold vtpc_open. apply wp_bind.
  eapply wp_mono; [by apply init_once_api|]. intros [] w1 Hw1. cbv beta.
  destruct (negb path); [apply quiet_api; [quiet_go|done]|].
  apply wp_bind. unfold alloc_handle_slot. apply wp_bind_get_h.
  destruct (used (hnd w1) =? 0) eqn:Eu.
  2: { unfold set_errno. apply wp_bind_modify. unfold wp at 1, ret.
       simpl. by eapply api_ok_same_core. }
  unfold wp at 1, ret. simpl (3 <? 0). cbv iota.
  apply wp_bind. eapply wp_mono; [apply quiet_sys_open|].
  intros fd1 w2 Hs2. cbv beta.
  assert (Hw2 : api_ok w2) by exact (api_ok_same_core _ _ Hs2 Hw1).
  apply wp_bind_get_w. apply wp_bind.
  eapply (wp_mono _ (λ _ w', api_ok w')).
  { destruct ((fd1 <? 0) && bool_decide (errno w2 = EINVAL));
      (apply quiet_api; [quiet_go|done]). }
  intros [fd dir] w3 Hw3. cbv beta iota.
  destruct (fd <? 0); [by apply quiet_api; [quiet_go|]|].
  apply wp_bind. unfold sys_fstat. apply wp_bind.
  eapply wp_mono; [apply quiet_next_fault|]. intros f w4 Hs4.
  assert (Hw4 : api_ok w4) by exact (api_ok_same_core _ _ Hs4 Hw3).
  destruct f as [e|].
  - apply wp_bind. unfold set_errno. unfold wp at 1, modify. cbv beta iota.
    unfold wp at 1, ret. cbn [fst snd]. simpl negb. cbv iota.
    apply quiet_api; [quiet_go|]. by eapply api_ok_same_core.
  - apply wp_bind_get_w. unfold wp at 1, ret. cbn [fst snd]. simpl negb. cbv iota.
    apply open_tail_api; [done|lia].
Qed.

Lemma get_handle_cases fd w :
  get_handle fd w = Ret None w
  ∨ (get_handle fd w = Ret (Some (hnd w)) w ∧ used (hnd w) ≠ 0).
Proof.
  unfold get_handle. prims.
  destruct ((fd <? 0) || (fd >=? VTPC_MAX_HANDLES)); [by left|].
  destruct (negb (fd =? 3) || (used (hnd w) =? 0)) eqn:E; [by left|].
  right. split; [done|]. apply orb_false_iff in E as [_ E]. lia.
Qed.

Lemma foldr_delete_lookup (m : gmap Z page_entry_t) l p e :
  foldr delete m l !! p = Some e → m !! p = Some e.
Proof.
  induction l as [|x l IH]; simpl; [done|].
  intros H. apply lookup_delete_Some in H as [_ H]. by apply IH.
Qed.

Lemma vtpc_close_api fd w :
  api_ok w → wp (vtpc_close fd) (λ _ w', api_ok w') w.
Proof.
  intros Hw. unfold vtpc_close. apply wp_bind. unfold wp at 1.
  destruct (get_handle_cases fd w) as [E|[E Hu]]; rewrite E.
  { apply quiet_api; [quiet_go|done]. }
  pose proof (api_inner w Hw Hu) as Hi. set (PS := eff_page_size w) in *.
  assert (HPS : 0 < PS < 2 ^ 32) by apply Hi.
  apply wp_bind. eapply wp_mono; [by apply (pres_cache_flush_all PS)|].
  intros rc1 w1 [Hi1 _]. cbv beta.
  apply wp_bind_get_w. apply wp_bind. eapply wp_mono; [apply quiet_sys_close|].
  intros rc2 w2 (F1 & F2 & F3). cbv beta. apply wp_bind_get_w.
  unfold cache_destroy, mod_c, mod_h.
  apply wp_bind. apply wp_bind_get_c. apply wp_bind_modify. apply wp_bind_modify.
  unfold wp at 1, modify. cbv beta iota. apply wp_bind_modify.
  apply quiet_api.
  - destruct (negb (rc1 =? 0)); [quiet_go|]. destruct (negb (rc2 =? 0)); quiet_go.
  - destruct Hi1 as (Hh & Hn & He & _).
    unfold api_ok, heap_ok, eff_page_size in *. simpl. rewrite F3.
    split_and!; try done.
    + intros p e H. apply foldr_delete_lookup in H. rewrite F1 in H.
      rewrite He. by eapply Hh.
    + rewrite He. lia.
    + rewrite He. lia.
Qed.

Lemma inner_api_wp PS {A : Type} (m : option vtpc_handle_t → M A) R fd w :
  0 < PS < 2 ^ 32 → PS = eff_page_size w →
  pres PS (let* oh := get_handle fd in m oh) R →
  quiet (m None) →
  api_ok w → wp (let* oh := get_handle fd in m oh) (λ _ w', api_ok w') w.
Proof.
  intros HPS -> Hm Hq Hw.
  destruct (get_handle_cases fd w) as [E|[E Hu]].
  - apply wp_bind. unfold wp at 1. rewrite E. by apply quiet_api.
  - eapply pres_api; [exact Hm|]. by apply api_inner.
Qed.

Lemma exec_api o w :
  api_ok w → op_ok o → wp (exec o) (λ _ w', api_ok w') w.
Proof.
  intros Hw Ho. pose proof Hw as (_ & HPS & _).
  destruct o as [path mode access|fd|fd off wh|fd buf n|fd buf n|fd]; simpl in *.
  - by apply vtpc_open_api.
  - by apply vtpc_close_api.
  - unfold vtpc_lseek.
    eapply inner_api_wp; [exact HPS|done|by apply pres_vtpc_lseek|quiet_go|done].
  - apply wp_bind.
    eapply (wp_mono _ (λ _ w', api_ok w')); [|intros r w' H; exact H].
    unfold vtpc_read.
    eapply inner_api_wp; [exact HPS|done|by apply pres_vtpc_read|quiet_go|done].
  - unfold vtpc_write.
    eapply inner_api_wp; [exact HPS|done|by apply pres_vtpc_write|quiet_go|done].
  - unfold vtpc_fsync.
    eapply inner_api_wp; [exact HPS|done|by apply pres_vtpc_fsync|quiet_go|done].
Qed.

Lemma step_api o faults w :
  api_ok w → op_ok o → wp (step o faults) (λ _ w', api_ok w') w.
Proof.
  intros Hw Ho. unfold step. apply wp_bind_modify.
  apply exec_api; [|done]. by eapply api_ok_same_core.
Qed.

Lemma boot_api env ps f : ps < 2 ^ 32 → api_ok (boot env ps f []).
Proof.
  intros Hps. unfold api_ok, heap_ok, eff_page_size. simpl.
  split_and!; try done.
  - destruct (ps <=? 0) eqn:E; lia.
  - destruct (ps <=? 0) eqn:E; lia.
Qed.

Lemma reachable_api w : reachable w → api_ok w.
Proof.
  induction 1 as [env ps f Hps Hf|w o faults r w' Hr IH Ho Hs].
  - by apply boot_api.
  - eapply (wp_elim _ _ _ _ _ (step_api o faults w IH Ho) Hs).
Qed.

Lemma closed_no_resident w e : hnd w = handle_zero → ¬ resident_entry w e.
Proof.
  intros E (i & p & H & _). rewrite E in H. simpl in H.
  unfold rd in H. rewrite lookup_nil in H. simpl in H. lia.
Qed.

(** * The cache leaves the cursor and the size of the file alone *)

Lemma keeps_ret {A : Type} (a : A) : keeps (ret a).
Proof. by intros w. Qed.

Lemma keeps_diverge {A : Type} : keeps (@diverge A).
Proof. by intros w. Qed.

Lemma keeps_undef {A : Type} : keeps (@undef A).
Proof. by intros w. Qed.

Lemma keeps_bind {A B : Type} (m : M A) (k : A → M B) :
  keeps m → (∀ a, keeps (k a)) → keeps (bind m k).
Proof.
  intros Hm Hk w. apply wp_bind. eapply wp_mono; [apply Hm|].
  intros a w' Hs. cbv beta. eapply wp_mono; [apply Hk|].
  intros b w'' Hs'. cbv beta in *. congruence.
Qed.

Lemma keeps_modify f : (∀ w, hdr (f w) = hdr w) → keeps (modify f).
Proof. intros Hf w. apply Hf. Qed.

Lemma keeps_get_w : keeps get_w.
Proof. by intros w. Qed.

Lemma keeps_get_h : keeps get_h.
Proof. by intros w. Qed.

Lemma keeps_get_c : keeps get_c.
Proof. by intros w. Qed.

Lemma keeps_lift_ht {A : Type} (o : option A) : keeps (lift_ht o).
Proof. intros w. by destruct o. Qed.

Lemma keeps_deref p : keeps (deref p).
Proof. intros w. unfold wp, deref. by destruct (pages w !! p). Qed.

Lemma keeps_deref_ghost g : keeps (deref_ghost g).
Proof. intros w. unfold wp, deref_ghost. by destruct (ghost_objs w !! g). Qed.

Lemma keeps_next_fault : keeps next_fault.
Proof. intros w. unfold wp, next_fault. by destruct (oracle w). Qed.

Lemma keeps_set_errno e : keeps (set_errno e).
Proof. by apply keeps_modify. Qed.

Lemma keeps_mod_c f : keeps (mod_c f).
Proof. by apply keeps_modify. Qed.

Lemma keeps_store p e : keeps (store p e).
Proof. by apply keeps_modify. Qed.

Lemma keeps_update p f : keeps (update p f).
Proof.
  apply keeps_bind; [apply keeps_deref|]. intros e. apply keeps_store.
Qed.

Create HintDb keeps.
Global Hint Resolve keeps_ret keeps_diverge keeps_undef keeps_get_w keeps_get_h
  keeps_get_c keeps_lift_ht keeps_deref keeps_deref_ghost keeps_next_fault
  keeps_set_errno keeps_mod_c keeps_store keeps_update : keeps.
Global Hint Extern 1 (keeps (modify _)) =>
  (apply keeps_modify; intros; reflexivity) : keeps.

Ltac keeps_step :=
  lazymatch goal with
  | |- keeps (bind _ _) => apply keeps_bind; [solve [auto with keeps] | intros ?]
  | |- keeps (if ?b then _ else _) => destruct b eqn:?
  | |- keeps (match ?x with _ => _ end) => destruct x eqn:?
  | |- keeps _ => solve [auto with keeps]
  end.
Ltac keeps_go := cbv beta iota zeta; repeat (keeps_step; cbv beta iota zeta in *).

Lemma keeps_calloc : keeps calloc.
Proof. unfold calloc. keeps_go. Qed.

Lemma keeps_posix_memalign : keeps posix_memalign.
Proof. unfold posix_memalign. keeps_go. Qed.

Lemma keeps_sys_pread n off : keeps (sys_pread n off).
Proof. unfold sys_pread. keeps_go. Qed.

Lemma keeps_sys_pwrite buf off : keeps (sys_pwrite buf off).
Proof. unfold sys_pwrite. keeps_go. Qed.

Lemma keeps_sys_ftruncate len : keeps (sys_ftruncate len).
Proof. unfold sys_ftruncate. keeps_go. Qed.

Lemma keeps_sys_fsync : keeps sys_fsync.
Proof. unfold sys_fsync. keeps_go. Qed.

Lemma keeps_drop_os_cache : keeps drop_os_cache.
Proof. unfold drop_os_cache. keeps_go. Qed.

Global Hint Resolve keeps_calloc keeps_posix_memalign keeps_sys_pread
  keeps_sys_pwrite keeps_sys_ftruncate keeps_sys_fsync keeps_drop_os_cache : keeps.

Lemma keeps_pread_fullpage ps off : keeps (pread_fullpage ps off).
Proof.
  unfold pread_fullpage. keeps_go.
  apply keeps_bind; [destruct ((direct a0 =? 0) && (fst a >=? 0)); auto with keeps|].
  intros; keeps_go.
Qed.

Lemma keeps_pwrite_fullpage buf ps off : keeps (pwrite_fullpage buf ps off).
Proof.
  unfold pwrite_fullpage. keeps_go.
  apply keeps_bind; [destruct ((direct a0 =? 0) && (a >=? 0)); auto with keeps|].
  intros; keeps_go.
Qed.

Lemma keeps_cache_free_page p : keeps (cache_free_page p).
Proof. unfold cache_free_page. keeps_go. Qed.

Lemma keeps_cache_free_ghost g : keeps (cache_free_ghost g).
Proof. unfold cache_free_ghost. keeps_go. Qed.

Global Hint Resolve keeps_pread_fullpage keeps_pwrite_fullpage
  keeps_cache_free_page keeps_cache_free_ghost : keeps.

Lemma keeps_cache_flush_page p : keeps (cache_flush_page p).
Proof. unfold cache_flush_page. keeps_go. Qed.

Global Hint Resolve keeps_cache_flush_page : keeps.

Lemma keeps_trim_a1out fuel : keeps (trim_a1out fuel).
Proof. induction fuel as [|fuel IH]; simpl; keeps_go; apply IH. Qed.

Global Hint Resolve keeps_trim_a1out : keeps.

Lemma keeps_cache_add_ghost pno : keeps (cache_add_ghost pno).
Proof. unfold cache_add_ghost. keeps_go. Qed.

Global Hint Resolve keeps_cache_add_ghost : keeps.

Lemma keeps_evict_from_a1in : keeps evict_from_a1in.
Proof. unfold evict_from_a1in. keeps_go. Qed.

Lemma keeps_evict_from_am : keeps evict_from_am.
Proof. unfold evict_from_am. keeps_go. Qed.

Global Hint Resolve keeps_evict_from_a1in keeps_evict_from_am : keeps.

Lemma keeps_a1in_total_loop fuel : keeps (a1in_total_loop fuel).
Proof. induction fuel as [|fuel IH]; simpl; keeps_go; apply IH. Qed.

Lemma keeps_am_cap_loop fuel : keeps (am_cap_loop fuel).
Proof. induction fuel as [|fuel IH]; simpl; keeps_go; apply IH. Qed.

Lemma keeps_am_total_loop fuel : keeps (am_total_loop fuel).
Proof. induction fuel as [|fuel IH]; simpl; keeps_go; apply IH. Qed.

Global Hint Resolve keeps_a1in_total_loop keeps_am_cap_loop
  keeps_am_total_loop : keeps.

Lemma keeps_ensure_space_for_a1in : keeps ensure_space_for_a1in.
Proof. unfold ensure_space_for_a1in. keeps_go; auto with keeps. Qed.

Lemma keeps_ensure_space_for_am : keeps ensure_space_for_am.
Proof. unfold ensure_space_for_am. keeps_go; auto with keeps. Qed.

Global Hint Resolve keeps_ensure_space_for_a1in keeps_ensure_space_for_am : keeps.

Lemma keeps_load_page pno : keeps (load_page pno).
Proof. unfold load_page. keeps_go. Qed.

Global Hint Resolve keeps_load_page : keeps.

Lemma keeps_cache_get pno : keeps (cache_get pno).
Proof. unfold cache_get. keeps_go. Qed.

Lemma keeps_flush_list l : keeps (flush_list l).
Proof. induction l as [|p l IH]; simpl; keeps_go; apply IH. Qed.

Global Hint Resolve keeps_cache_get keeps_flush_list : keeps.

Lemma keeps_cache_flush_all : keeps cache_flush_all.
Proof. unfold cache_flush_all. keeps_go. Qed.

(** * Deleting a key and putting it back; [next_pow2] *)

Section reindex.
Context (t : ht_t) (Hok : table_ok t).

(** A deletion that leaves the table as it was has met an empty slot. *)
Lemma ht_del_loop_same key : ∀ fuel i,
  0 ≤ i < cap t → ht_del_loop fuel t key i = Some t →
  ht_get_loop fuel t key i = Some NULL.
Proof.
  induction fuel as [|fuel IH]; intros i Hi H; [done|].
  simpl in *. destruct (rd 0 (state t) i =? 0) eqn:E0; [done|].
  destruct ((rd 0 (state t) i =? 1) && (rd 0 (keys t) i =? key)) eqn:E1.
  - exfalso. apply andb_true_iff in E1 as [E1 E2]. injection H as E.
    pose proof (f_equal (λ x, rd 0 (state x) i) E) as E'. simpl in E'.
    rewrite rd_wr_same in E' by (lia || by apply in_state). lia.
  - apply IH; [by apply land_mask_range|done].
Qed.

(** The probe for another key does not see the deletion of [key]. *)
Lemma ht_get_loop_del_other key k' idx :
  k' ≠ key → 0 ≤ idx < cap t →
  rd 0 (state t) idx = 1 → rd 0 (keys t) idx = key →
  ∀ fuel i, 0 ≤ i < cap t →
    ht_get_loop fuel (slot_del t idx) k' i = ht_get_loop fuel t k' i.
Proof.
  intros Hne Hidx Hs Hk. induction fuel as [|fuel IH]; intros i Hi; [done|].
  cbn [ht_get_loop]. change (ht_mask (slot_del t idx)) with (ht_mask t).
  cbn [slot_del state keys vals].
  destruct (decide (i = idx)) as [->|Hi'].
  - rewrite rd_wr_same by (lia || by apply in_state). rewrite Hs, Hk.
    replace (key =? k') with false by lia. simpl.
    apply IH. by apply land_mask_range.
  - rewrite !rd_wr_ne by lia.
    destruct (rd 0 (state t) i =? 0); [done|].
    destruct ((rd 0 (state t) i =? 1) && (rd 0 (keys t) i =? k')); [done|].
    apply IH. by apply land_mask_range.
Qed.

(** An insertion that has already seen a tombstone writes to a tombstone
    or to the slot of the key. *)
Lemma ht_put_loop_tomb key val : ∀ fuel i ft t',
  0 ≤ i < cap t → 0 ≤ ft < cap t → rd 0 (state t) ft = 2 →
  ht_put_loop fuel t key val i ft = Some t' →
  ∃ j, 0 ≤ j < cap t
       ∧ (rd 0 (state t) j = 2 ∨ (rd 0 (state t) j = 1 ∧ rd 0 (keys t) j = key))
       ∧ t' = slot_set t j key val.
Proof.
  induction fuel as [|fuel IH]; intros i ft t' Hi Hft Htomb H; [done|].
  cbn [ht_put_loop] in H. cbv zeta in H.
  rewrite (in_bounds_not_max t Hok ft Hft) in H.
  rewrite andb_false_r in H. cbn [negb] in H.
  destruct (rd 0 (state t) i =? 0) eqn:E0.
  - injection H as <-. exists ft. split_and!; [lia|lia|by left|done].
  - destruct ((rd 0 (state t) i =? 1) && (rd 0 (keys t) i =? key)) eqn:E1.
    + apply andb_true_iff in E1 as [E1 E2]. injection H as <-.
      exists i. split_and!; [lia|lia|right; lia|].
      unfold slot_set. f_equal.
      * symmetry. replace key with (rd 0 (keys t) i) by lia.
        apply rd_wr_id. by apply in_keys.
      * symmetry. replace 1 with (rd 0 (state t) i) by lia.
        apply rd_wr_id. by apply in_state.
    + eapply IH; [by apply land_mask_range|exact Hft|exact Htomb|exact H].
Qed.

(** A write to a tombstone or to the slot of [key] is not seen by the
    probe for another key. *)
Lemma ht_get_loop_set_other key val k' j :
  k' ≠ key → 0 ≤ j < cap t →
  rd 0 (state t) j = 2 ∨ (rd 0 (state t) j = 1 ∧ rd 0 (keys t) j = key) →
  ∀ fuel i, 0 ≤ i < cap t →
    ht_get_loop fuel (slot_set t j key val) k' i = ht_get_loop fuel t k' i.
Proof.
  intros Hne Hj Hst. induction fuel as [|fuel IH]; intros i Hi; [done|].
  cbn [ht_get_loop]. change (ht_mask (slot_set t j key val)) with (ht_mask t).
  cbn [slot_set state keys vals].
  destruct (decide (i = j)) as [->|Hi'].
  - rewrite !rd_wr_same by (lia || by apply in_state || by apply in_keys).
    replace (key =? k') with false by lia.
    change (1 =? 0) with false. change (1 =? 1) with true. cbn [andb].
    replace (rd 0 (state t) j =? 0) with false by (destruct Hst; lia).
    replace ((rd 0 (state t) j =? 1) && (rd 0 (keys t) j =? k')) with false
      by (symmetry; apply andb_false_iff; destruct Hst; lia).
    apply IH. by apply land_mask_range.
  - rewrite !rd_wr_ne by lia.
    destruct (rd 0 (state t) i =? 0); [done|].
    destruct ((rd 0 (state t) i =? 1) && (rd 0 (keys t) i =? k')); [done|].
    apply IH. by apply land_mask_range.
Qed.
End reindex.

(** The insertion that follows the deletion of the same key along the
    same probe writes to a tombstone or to a slot of the key. *)
Lemma ht_put_after_del t key val idx :
  table_ok t → 0 ≤ idx < cap t →
  rd 0 (state t) idx = 1 → rd 0 (keys t) idx = key →
  ∀ fuel i t2, 0 ≤ i < cap t →
    ht_del_loop fuel t key i = Some (slot_del t idx) →
    ht_put_loop fuel (slot_del t idx) key val i SIZE_MAX = Some t2 →
    ∃ j, 0 ≤ j < cap t
         ∧ (rd 0 (state (slot_del t idx)) j = 2
            ∨ (rd 0 (state (slot_del t idx)) j = 1
               ∧ rd 0 (keys (slot_del t idx)) j = key))
         ∧ t2 = slot_set (slot_del t idx) j key val.
Proof.
  intros Hok Hidx Hs Hk.
  assert (Hok1 : table_ok (slot_del t idx)) by (by apply slot_del_ok).
  assert (Hneq : slot_del t idx ≠ t).
  { intros E. pose proof (f_equal (λ x, rd 0 (state x) idx) E) as E'. simpl in E'.
    rewrite rd_wr_same in E' by (lia || by apply in_state). lia. }
  induction fuel as [|fuel IH]; intros i t2 Hi Hd Hp; [done|].
  cbn [ht_del_loop] in Hd. cbv zeta in Hd.
  cbn [ht_put_loop] in Hp. cbv zeta in Hp.
  change (ht_mask (slot_del t idx)) with (ht_mask t) in Hp.
  destruct (rd 0 (state t) i =? 0) eqn:E0; [congruence|].
  destruct ((rd 0 (state t) i =? 1) && (rd 0 (keys t) i =? key)) eqn:E1.
  - assert (i = idx) as ->.
    { destruct (decide (i = idx)) as [|Hne]; [done|exfalso].
      injection Hd as _ Hst'.
      pose proof (f_equal (λ l, rd 0 l i) Hst') as E'. simpl in E'.
      rewrite rd_wr_same in E' by (lia || by apply in_state).
      rewrite rd_wr_ne in E' by lia. apply andb_true_iff in E1. lia. }
    cbn [slot_del state keys] in Hp.
    rewrite rd_wr_same in Hp by (lia || by apply in_state).
    replace (SIZE_MAX =? SIZE_MAX) with true in Hp by lia.
    change (2 =? 0) with false in Hp. change (2 =? 1) with false in Hp.
    change (2 =? 2) with true in Hp. cbn [andb] in Hp.
    eapply (ht_put_loop_tomb _ Hok1); [| |  |exact Hp].
    + exact (land_mask_range t Hok _).
    + exact Hidx.
    + simpl. apply rd_wr_same; [lia|by apply in_state].
  - assert (i ≠ idx) as Hne.
    { intros ->. rewrite Hs, Hk in E1. rewrite !Z.eqb_refl in E1. done. }
    cbn [slot_del state keys] in Hp. rewrite rd_wr_ne in Hp by lia.
    rewrite E0, E1 in Hp.
    destruct ((rd 0 (state t) i =? 2) && (SIZE_MAX =? SIZE_MAX)) eqn:E2.
    + eapply (ht_put_loop_tomb _ Hok1); [| | |exact Hp].
      * exact (land_mask_range t Hok _).
      * exact Hi.
      * simpl. rewrite rd_wr_ne by lia. apply andb_true_iff in E2. lia.
    + eapply IH; [|exact Hd|exact Hp]. exact (land_mask_range t Hok _).
Qed.

(** Deleting the key of an indexed value and putting the value back
    leaves an index that answers every lookup as before. *)
Lemma ht_reindex t key v t1 t2 :
  table_ok t → ht_get t key = Some v → v ≠ NULL →
  ht_del t key = Some t1 → ht_put t1 key v = Some t2 →
  ∀ k, ht_get t2 k = ht_get t k.
Proof.
  intros Hok Hg Hv Hd Hp k.
  pose proof Hd as Hsh. apply ht_del_shape in Hsh; [|done].
  destruct Hsh as [->|(idx & Hidx & H1 & H2 & ->)].
  { exfalso. unfold ht_del in Hd. unfold ht_get in Hg.
    rewrite cap_nonzero in Hg by done.
    apply (ht_del_loop_same _ Hok) in Hd; [congruence|by apply land_mask_range]. }
  assert (Hok1 : table_ok (slot_del t idx)) by (by apply slot_del_ok).
  destruct (decide (k = key)) as [->|Hne].
  { rewrite Hg. by apply (ht_put_get _ Hok1). }
  unfold ht_del in Hd. unfold ht_put in Hp.
  change (cap (slot_del t idx)) with (cap t) in Hp.
  change (ht_mask (slot_del t idx)) with (ht_mask t) in Hp.
  destruct (ht_put_after_del t key v idx Hok Hidx H1 H2 _ _ _
              (land_mask_range t Hok _) Hd Hp) as (j & Hj & Hst & ->).
  unfold ht_get. cbn [slot_set slot_del cap].
  change (ht_mask (slot_set (slot_del t idx) j key v)) with (ht_mask t).
  destruct (cap t =? 0); [done|].
  rewrite (ht_get_loop_set_other _ Hok1 key v k j Hne Hj Hst)
    by exact (land_mask_range t Hok _).
  apply (ht_get_loop_del_other t Hok key); try done. by apply land_mask_range.
Qed.

(** ** [next_pow2] *)

Lemma next_pow2_loop_zero x : 0 < x → ∀ fuel, next_pow2_loop fuel 0 x = None.
Proof.
  intros Hx. induction fuel as [|fuel IH]; [done|].
  cbn [next_pow2_loop]. replace (0 <? x) with true by lia.
  change (wrap64 (Z.shiftl 0 1)) with 0. exact IH.
Qed.

Lemma shiftl_pow2 k : 0 ≤ k → Z.shiftl (2 ^ k) 1 = 2 ^ (k + 1).
Proof.
  intros Hk. rewrite Z.shiftl_mul_pow2 by lia. rewrite Z.pow_add_r by lia. done.
Qed.

Lemma next_pow2_loop_big x : 2 ^ 63 < x →
  ∀ fuel k, 0 ≤ k ≤ 63 → next_pow2_loop fuel (2 ^ k) x = None.
Proof.
  intros Hx. induction fuel as [|fuel IH]; intros k Hk; [done|].
  cbn [next_pow2_loop].
  assert (2 ^ k ≤ 2 ^ 63) by (apply Z.pow_le_mono_r; lia).
  replace (2 ^ k <? x) with true by lia.
  rewrite shiftl_pow2 by lia.
  destruct (decide (k = 63)) as [->|Hne].
  - change (wrap64 (2 ^ (63 + 1))) with 0. apply next_pow2_loop_zero. lia.
  - rewrite wrap64_small; [apply IH; lia|].
    split; [apply Z.pow_nonneg; lia|apply Z.pow_lt_mono_r; lia].
Qed.

Lemma next_pow2_loop_ok x : 0 ≤ x ≤ 2 ^ 63 →
  ∀ fuel k, 0 ≤ k ≤ 63 → 63 - k < Z.of_nat fuel → k = 0 ∨ 2 ^ (k - 1) < x →
    ∃ j, 0 ≤ j ≤ 63 ∧ next_pow2_loop fuel (2 ^ k) x = Some (2 ^ j)
         ∧ x ≤ 2 ^ j ∧ (j = 0 ∨ 2 ^ (j - 1) < x).
Proof.
  intros Hx. induction fuel as [|fuel IH]; intros k Hk Hf Hlow; [lia|].
  cbn [next_pow2_loop]. destruct (2 ^ k <? x) eqn:E.
  - assert (k < 63).
    { destruct (decide (k = 63)) as [->|]; lia. }
    rewrite shiftl_pow2 by lia.
    rewrite wrap64_small
      by (split; [apply Z.pow_nonneg; lia|apply Z.pow_lt_mono_r; lia]).
    apply IH; [lia|lia|]. right. replace (k + 1 - 1) with k by lia. lia.
  - exists k. split_and!; [lia|lia|done|lia|done].
Qed.


(** * The ghost list under capacity 4 *)



(** * A failed write-back during a promotion *)

Lemma failed_promotion_reachable : reachable (final failed_promotion five_pages).
Proof. scenario_reachable. Qed.

Lemma retried_promotion_reachable : reachable (final retried_promotion five_pages).
Proof. scenario_reachable. Qed.

(** C3 on the code: the cache is full (Am holds pages 2,1,0, page 0 dirty,
    A1in holds page 3); the second read of page 3 unlinks it from A1in,
    the write-back of Am's victim fails, and [cache_get] returns without
    linking page 3 again: it stays in the resident index, on neither list,
    still tagged A1in. *)
Theorem C3_page_off_both_lists :
  let w := final failed_promotion five_pages in
  reachable w
  ∧ results failed_promotion five_pages
    = [3; 0; 1; 0; 4096; 4096; 4096; 4096; 4096; 8192; 4096; 8192; 4096;
       12288; 4096; 12288; -1]
  ∧ in_resident_index w 3
  ∧ a1in_pages w = [] ∧ am_pages w = [0; 2; 1]
  ∧ tag_of w 3 = Some Q_A1IN
  ∧ ¬ index_matches_lists w.
Proof.
  cbv zeta.
  assert (E1 : a1in_pages (final failed_promotion five_pages) = [])
    by (vm_compute; reflexivity).
  assert (E2 : am_pages (final failed_promotion five_pages) = [0; 2; 1])
    by (vm_compute; reflexivity).
  assert (E3 : in_resident_index (final failed_promotion five_pages) 3).
  { exists 4. split; [vm_compute; reflexivity | discriminate]. }
  split; [apply failed_promotion_reachable|].
  split; [vm_compute; reflexivity|].
  split_and!; try assumption.
  - vm_compute; reflexivity.
  - intros H. apply (H 3) in E3. rewrite E1, E2 in E3.
    destruct E3 as [(H1 & _)|(_ & _ & H1)].
    + by apply elem_of_nil in H1.
    + revert H1. vm_compute. discriminate.
Qed.

(** C2 on the code: the next read of page 3 finds it in the index, tagged
    A1in, and decrements [a1in_sz], which is 0: the counter wraps to
    2^64 - 1, above Kin = 1. *)
Theorem C2_counter_wraps :
  let w := final retried_promotion five_pages in
  reachable w
  ∧ a1in_sz (cache (hnd w)) = 2 ^ 64 - 1
  ∧ kin (cache (hnd w)) = 1
  ∧ a1in_pages w = [] ∧ am_pages w = [3; 0; 2]
  ∧ ¬ bounds (cache (hnd w)).
Proof.
  cbv zeta.
  assert (E1 : a1in_sz (cache (hnd (final retried_promotion five_pages))) = 2 ^ 64 - 1)
    by (vm_compute; reflexivity).
  assert (E2 : kin (cache (hnd (final retried_promotion five_pages))) = 1)
    by (vm_compute; reflexivity).
  split; [apply retried_promotion_reachable|].
  split_and!; try assumption; try (vm_compute; reflexivity).
  intros (H & _). rewrite E1, E2 in H. lia.
Qed.

(** * Configuration from the environment *)

Lemma configured_capacity_parse env :
  configured_capacity env = parse_cache_pages env 0.
Proof. reflexivity. Qed.

Lemma digit_of_range c d : digit_of c = Some d → 0 ≤ d ≤ 9.
Proof.
  unfold digit_of. intros H.
  destruct ((48 <=? Z.of_nat (nat_of_ascii c)) && (Z.of_nat (nat_of_ascii c) <=? 57)) eqn:E;
    [|discriminate].
  inversion H; subst. lia.
Qed.

Lemma digit_not_space_sign c d :
  digit_of c = Some d →
  isspace c = false ∧ Ascii.eqb c "-" = false ∧ Ascii.eqb c "+" = false.
Proof.
  unfold digit_of, isspace. intros H.
  destruct ((48 <=? Z.of_nat (nat_of_ascii c)) && (Z.of_nat (nat_of_ascii c) <=? 57)) eqn:E;
    [|discriminate].
  split_and!.
  - lia.
  - destruct (Ascii.eqb_spec c "-") as [->|]; [|done]. vm_compute in E. discriminate.
  - destruct (Ascii.eqb_spec c "+") as [->|]; [|done]. vm_compute in E. discriminate.
Qed.

Lemma digits_value_ge s : ∀ acc, 0 ≤ acc → acc ≤ digits_value s acc.
Proof.
  induction s as [|c s IH]; intros acc Hacc; simpl; [lia|].
  destruct (digit_of c) as [d|] eqn:E; simpl.
  - apply digit_of_range in E. specialize (IH (10 * acc + d)). lia.
  - specialize (IH (10 * acc + 0)). lia.
Qed.

Lemma strtol_digits_all s : ∀ acc seen,
  all_digits s = true →
  strtol_digits s acc seen
  = (digits_value s acc, seen || negb (String.eqb s "")).
Proof.
  induction s as [|c s IH]; intros acc seen H; simpl in *.
  - by rewrite orb_false_r.
  - destruct (digit_of c) as [d|] eqn:E; [|discriminate]. simpl.
    rewrite IH by done. f_equal. by rewrite orb_true_r.
Qed.

Lemma strtol_digits_prefix d t : ∀ acc seen,
  all_digits d = true → no_digit_first t →
  strtol_digits (d ++ t) acc seen = strtol_digits d acc seen.
Proof.
  induction d as [|c d IH]; intros acc seen H Ht; simpl in *.
  - destruct t as [|c t]; simpl in *; [done|]. by rewrite Ht.
  - destruct (digit_of c) as [v|] eqn:E; [|discriminate]. by apply IH.
Qed.

Lemma parse_range env : 0 < parse_cache_pages env 0 < 10000000.
Proof.
  unfold parse_cache_pages, VTPC_DEFAULT_CACHE_PAGES.
  destruct env as [[|c s]|]; simpl; try lia.
  destruct (strtol10 (String c s)) as [v moved].
  destruct (moved && (v >? 0) && (v <? 10 * 1000 * 1000)) eqn:E.
  - destruct (v =? 0) eqn:E0; lia.
  - simpl. lia.
Qed.

Lemma clamp_accept v :
  0 ≤ v →
  (let v' := if v >? LONG_MAX then LONG_MAX else if v <? LONG_MIN then LONG_MIN else v in
   if (v' >? 0) && (v' <? 10 * 1000 * 1000) then v' else 0)
  = if (0 <? v) && (v <? 10000000) then v else 0.
Proof.
  intros Hv. cbv zeta. unfold LONG_MAX, LONG_MIN.
  destruct (v >? 2 ^ 63 - 1) eqn:E1.
  - simpl. destruct ((0 <? v) && (v <? 10000000)) eqn:E2; [lia|done].
  - destruct (v <? - 2 ^ 63) eqn:E2; [lia|].
    replace (v >? 0) with (0 <? v) by lia. done.
Qed.

Lemma parse_all_digits c s :
  all_digits (String c s) = true →
  parse_cache_pages (Some (String c s)) 0
  = let v := digits_value (String c s) 0 in
    if (0 <? v) && (v <? 10000000) then v else VTPC_DEFAULT_CACHE_PAGES.
Proof.
  intros H. unfold parse_cache_pages, strtol10.
  assert (Hc : ∃ d, digit_of c = Some d).
  { simpl in H. destruct (digit_of c); [eauto|discriminate]. }
  destruct Hc as [d Hd]. destruct (digit_not_space_sign _ _ Hd) as (Hs & Hm & Hp).
  cbn [skip_space]. rewrite Hs, Hm, Hp.
  rewrite strtol_digits_all by done. cbn [String.eqb negb orb].
  pose proof (digits_value_ge (String c s) 0 ltac:(lia)) as Hge.
  set (v := digits_value (String c s) 0) in *.
  pose proof (clamp_accept v Hge) as Hcl. cbv zeta in Hcl.
  simpl andb. cbv zeta.
  destruct (v >? LONG_MAX) eqn:E1; [|destruct (v <? LONG_MIN) eqn:E2].
  all: unfold LONG_MAX, LONG_MIN, VTPC_DEFAULT_CACHE_PAGES in *.
  - simpl. replace ((0 <? v) && (v <? 10000000)) with false by lia. done.
  - lia.
  - destruct ((v >? 0) && (v <? 10 * 1000 * 1000)) eqn:E3.
    + replace ((0 <? v) && (v <? 10000000)) with true by lia.
      destruct (v =? 0) eqn:E4; [lia|done].
    + replace ((0 <? v) && (v <? 10000000)) with false by lia. done.
Qed.

Lemma parse_decimal s v :
  decimal_value s = Some v →
  parse_cache_pages (Some s) 0 = spec_capacity (Some s).
Proof.
  intros Hv. unfold spec_capacity. rewrite Hv.
  destruct s as [|c d]; [discriminate|]. unfold decimal_value in Hv.
  destruct (Ascii.eqb c "-") eqn:Em; [|destruct (Ascii.eqb c "+") eqn:Ep].
  - apply Ascii.eqb_eq in Em. subst c.
    destruct (all_digits d && negb (String.eqb d "")) eqn:E; [|discriminate].
    apply andb_true_iff in E as [Ed Hne]. inversion Hv; subst v.
    unfold parse_cache_pages, strtol10. cbn [skip_space].
    replace (isspace "-") with false by reflexivity.
    replace (Ascii.eqb "-" "-") with true by reflexivity.
    rewrite strtol_digits_all by done. rewrite Hne. cbn [orb].
    pose proof (digits_value_ge d 0 ltac:(lia)) as Hge.
    set (dv := digits_value d 0) in *.
    replace ((0 <? - dv) && (- dv <? 10000000)) with false by lia.
    unfold LONG_MAX, LONG_MIN, VTPC_DEFAULT_CACHE_PAGES.
    destruct (- dv >? 2 ^ 63 - 1) eqn:E1; [lia|].
    destruct (- dv <? - 2 ^ 63) eqn:E2; simpl.
    + done.
    + replace (- dv >? 0) with false by lia. done.
  - apply Ascii.eqb_eq in Ep. subst c.
    destruct (all_digits d && negb (String.eqb d "")) eqn:E; [|discriminate].
    apply andb_true_iff in E as [Ed Hne]. inversion Hv; subst v.
    unfold parse_cache_pages, strtol10. cbn [skip_space].
    replace (isspace "+") with false by reflexivity.
    replace (Ascii.eqb "+" "-") with false by reflexivity.
    replace (Ascii.eqb "+" "+") with true by reflexivity.
    rewrite strtol_digits_all by done. rewrite Hne. cbn [orb].
    pose proof (digits_value_ge d 0 ltac:(lia)) as Hge.
    set (dv := digits_value d 0) in *.
    pose proof (clamp_accept dv Hge) as Hcl. cbv zeta in Hcl.
    simpl andb. rewrite Hcl. unfold VTPC_DEFAULT_CACHE_PAGES.
    destruct ((0 <? dv) && (dv <? 10000000)) eqn:E3; [|done].
    destruct (dv =? 0) eqn:E4; [lia|done].
  - destruct (all_digits (String c d)) eqn:Ed; [|discriminate].
    inversion Hv; subst v. by rewrite parse_all_digits.
Qed.

Lemma parse_nothing_converted s v :
  strtol10 s = (v, false) → parse_cache_pages (Some s) 0 = VTPC_DEFAULT_CACHE_PAGES.
Proof.
  intros H. unfold parse_cache_pages. destruct s as [|c s]; [done|].
  rewrite H. done.
Qed.

Lemma parse_leading_space c s :
  isspace c = true →
  parse_cache_pages (Some (String c s)) 0 = parse_cache_pages (Some s) 0.
Proof.
  intros Hc. unfold parse_cache_pages.
  assert (E : strtol10 (String c s) = strtol10 s).
  { unfold strtol10. cbn [skip_space]. by rewrite Hc. }
  rewrite E. destruct s as [|c' s']; [|done].
  vm_compute. done.
Qed.

Lemma strtol10_digit_head c s x :
  digit_of c = Some x →
  strtol10 (String c s)
  = let '(v, seen) := strtol_digits (String c s) 0 false in
    ((if v >? LONG_MAX then LONG_MAX else if v <? LONG_MIN then LONG_MIN else v),
     seen).
Proof.
  intros Hx. destruct (digit_not_space_sign _ _ Hx) as (Hs & Hm & Hp).
  unfold strtol10. cbn [skip_space]. by rewrite Hs, Hm, Hp.
Qed.

Lemma parse_trailing d t :
  all_digits d = true → d ≠ ""%string → no_digit_first t →
  parse_cache_pages (Some (d ++ t)%string) 0 = parse_cache_pages (Some d) 0.
Proof.
  intros Hd Hne Ht. destruct d as [|c d]; [done|].
  assert (Hc : ∃ x, digit_of c = Some x).
  { simpl in Hd. destruct (digit_of c); [eauto|discriminate]. }
  destruct Hc as [x Hx].
  replace (String c d ++ t)%string with (String c (d ++ t)%string) by reflexivity.
  unfold parse_cache_pages.
  rewrite !(strtol10_digit_head _ _ x Hx).
  replace (String c (d ++ t)%string) with (String c d ++ t)%string by reflexivity.
  by rewrite strtol_digits_prefix.
Qed.

Lemma all_digits_take s : all_digits (take_digits s) = true.
Proof.
  induction s as [|c s IH]; simpl; [done|].
  destruct (digit_of c) eqn:E; simpl; [by rewrite E|done].
Qed.

Lemma strtol_digits_take s : ∀ acc seen,
  strtol_digits s acc seen
  = (digits_value (take_digits s) acc,
     seen || negb (String.eqb (take_digits s) "")).
Proof.
  induction s as [|c s IH]; intros acc seen; simpl.
  - by rewrite orb_false_r.
  - destruct (digit_of c) as [d|] eqn:E; simpl.
    + rewrite IH, E. simpl. by rewrite orb_true_r.
    + by rewrite orb_false_r.
Qed.

Lemma take_digits_app d t :
  all_digits d = true → no_digit_first t → take_digits (d ++ t) = d.
Proof.
  intros Hd Ht. induction d as [|c d IH]; simpl in *.
  - destruct t as [|c t]; simpl in *; [done|]. by rewrite Ht.
  - destruct (digit_of c) eqn:E; [|discriminate]. by rewrite IH.
Qed.

(** What [vtpc_init_once] accepts of [strtol]'s result, from the number
    at the start of the string. *)
Lemma strtol10_prefix s :
  (let '(v, moved) := strtol10 s in
   if moved && (v >? 0) && (v <? 10 * 1000 * 1000) then v else 0)
  = match decimal_value (number_prefix (skip_space s)) with
    | Some v => if (0 <? v) && (v <? 10000000) then v else 0
    | None => 0
    end.
Proof.
  unfold strtol10. destruct (skip_space s) as [|c s'] eqn:Es; [reflexivity|].
  unfold number_prefix.
  destruct (Ascii.eqb c "-") eqn:Em; [|destruct (Ascii.eqb c "+") eqn:Ep].
  - cbn [orb]. rewrite strtol_digits_take. cbn [orb].
    unfold decimal_value. rewrite Em, all_digits_take. cbn [andb].
    pose proof (digits_value_ge (take_digits s') 0 ltac:(lia)) as Hge.
    set (dv := digits_value (take_digits s') 0) in *.
    destruct (negb (String.eqb (take_digits s') "")); cbn [andb]; [|done].
    unfold LONG_MAX, LONG_MIN.
    replace (0 <? - dv) with false by lia. cbn [andb].
    destruct (- dv >? 2 ^ 63 - 1) eqn:E1; [lia|].
    destruct (- dv <? - 2 ^ 63) eqn:E2; [done|].
    replace (- dv >? 0) with false by lia. done.
  - cbn [orb]. rewrite strtol_digits_take. cbn [orb].
    unfold decimal_value. rewrite Em, Ep, all_digits_take. cbn [andb].
    pose proof (digits_value_ge (take_digits s') 0 ltac:(lia)) as Hge.
    set (dv := digits_value (take_digits s') 0) in *.
    destruct (negb (String.eqb (take_digits s') "")); cbn [andb]; [|done].
    exact (clamp_accept dv Hge).
  - cbn [orb]. rewrite strtol_digits_take. cbn [orb].
    pose proof (digits_value_ge (take_digits (String c s')) 0 ltac:(lia)) as Hge.
    pose proof (all_digits_take (String c s')) as Had.
    set (dv := digits_value (take_digits (String c s')) 0) in *.
    destruct (take_digits (String c s')) as [|c1 d1] eqn:Etd; [reflexivity|].
    assert (c1 = c) as ->.
    { simpl in Etd. destruct (digit_of c); [by injection Etd|discriminate]. }
    unfold decimal_value. rewrite Em, Ep, Had. cbn [String.eqb negb andb].
    exact (clamp_accept dv Hge).
Qed.

Lemma parse_prefix s :
  parse_cache_pages (Some s) 0
  = spec_capacity (Some (number_prefix (skip_space s))).
Proof.
  unfold spec_capacity, VTPC_DEFAULT_CACHE_PAGES.
  destruct s as [|c0 s0]; [reflexivity|].
  unfold parse_cache_pages. rewrite strtol10_prefix.
  destruct (decimal_value (number_prefix (skip_space (String c0 s0)))) as [v|];
    [|reflexivity].
  unfold VTPC_DEFAULT_CACHE_PAGES.
  destruct ((0 <? v) && (v <? 10000000)) eqn:E; [|reflexivity].
  replace (v =? 0) with false by lia. done.
Qed.

Lemma append_empty s : (s ++ "")%string = s.
Proof.
  induction s as [|c s IH]; [done|].
  change (String c (s ++ "")%string = String c s). by f_equal.
Qed.

(** A decimal number followed by something that is no digit: the number
    is the prefix that [strtol] reads. *)
Lemma number_prefix_app s t v :
  decimal_value s = Some v → no_digit_first t →
  number_prefix (skip_space (s ++ t)) = s.
Proof.
  intros Hv Ht. destruct s as [|c d]; [discriminate|].
  unfold decimal_value in Hv.
  replace (String c d ++ t)%string with (String c (d ++ t)%string) by reflexivity.
  destruct (Ascii.eqb c "-") eqn:Em; [|destruct (Ascii.eqb c "+") eqn:Ep].
  - apply Ascii.eqb_eq in Em. subst c.
    destruct (all_digits d && negb (String.eqb d "")) eqn:E; [|discriminate].
    apply andb_true_iff in E as [Ed _].
    cbn [skip_space]. replace (isspace "-") with false by reflexivity.
    unfold number_prefix. replace (Ascii.eqb "-" "-") with true by reflexivity.
    cbn [orb]. by rewrite take_digits_app.
  - apply Ascii.eqb_eq in Ep. subst c.
    destruct (all_digits d && negb (String.eqb d "")) eqn:E; [|discriminate].
    apply andb_true_iff in E as [Ed _].
    cbn [skip_space]. replace (isspace "+") with false by reflexivity.
    unfold number_prefix. replace (Ascii.eqb "+" "-") with false by reflexivity.
    replace (Ascii.eqb "+" "+") with true by reflexivity.
    cbn [orb]. by rewrite take_digits_app.
  - destruct (all_digits (String c d)) eqn:Ed; [|discriminate].
    assert (∃ x, digit_of c = Some x) as [x Hx].
    { simpl in Ed. destruct (digit_of c); [eauto|discriminate]. }
    destruct (digit_not_space_sign _ _ Hx) as (Hs & _ & _).
    cbn [skip_space]. rewrite Hs.
    unfold number_prefix. rewrite Em, Ep. cbn [orb].
    replace (String c (d ++ t)%string) with (String c d ++ t)%string by reflexivity.
    by rewrite take_digits_app.
Qed.

Lemma parse_number_then_tail s t v :
  decimal_value s = Some v → no_digit_first t →
  parse_cache_pages (Some (s ++ t)%string) 0 = parse_cache_pages (Some s) 0.
Proof.
  intros Hv Ht. rewrite !parse_prefix.
  rewrite (number_prefix_app s t v Hv Ht).
  pose proof (number_prefix_app s "" v Hv I) as E.
  rewrite append_empty in E. by rewrite E.
Qed.

(** C8, as the specification states it, fails: a value that starts with a
    decimal number and goes on with other characters is not a decimal
    value, and the specification gives it the default, but the code takes
    the leading number. *)
Lemma C8_counterexample :
  ¬ (∀ env, configured_capacity env = spec_capacity env).
Proof.
  intros H. specialize (H (Some "12abc"%string)).
  vm_compute in H. discriminate.
Qed.

(** C8, amended: the configured capacity is always strictly between 0
    and 10,000,000.  It is the capacity the specification gives to the
    number at the start of the value: the longest prefix, after leading
    white space, made of an optional sign and decimal digits; whatever
    follows that prefix is ignored.  So it is the default 256 when the
    variable is unset or empty or when [strtol] converts nothing; for a
    value that is a decimal number it is that number when it lies
    strictly between 0 and 10,000,000 and 256 otherwise; leading white
    space is skipped; and a decimal number, signed or not, followed by
    anything that is not a digit counts as that number. *)
Theorem C8_capacity_from_environment :
  (∀ env, 0 < configured_capacity env < 10000000)
  ∧ configured_capacity None = 256
  ∧ configured_capacity (Some ""%string) = 256
  ∧ (∀ s, configured_capacity (Some s)
          = spec_capacity (Some (number_prefix (skip_space s))))
  ∧ (∀ s v, decimal_value s = Some v →
       configured_capacity (Some s)
       = if (0 <? v) && (v <? 10000000) then v else 256)
  ∧ (∀ s v, strtol10 s = (v, false) → configured_capacity (Some s) = 256)
  ∧ (∀ c s, isspace c = true →
       configured_capacity (Some (String c s)) = configured_capacity (Some s))
  ∧ (∀ s t v, decimal_value s = Some v → no_digit_first t →
       configured_capacity (Some (s ++ t)%string) = configured_capacity (Some s)).
Proof.
  split_and!.
  - intros env. rewrite configured_capacity_parse. apply parse_range.
  - reflexivity.
  - reflexivity.
  - intros s. rewrite configured_capacity_parse. apply parse_prefix.
  - intros s v Hv. rewrite configured_capacity_parse, (parse_decimal s v Hv).
    unfold spec_capacity. by rewrite Hv.
  - intros s v Hv. rewrite configured_capacity_parse.
    by rewrite (parse_nothing_converted s v Hv).
  - intros c s Hc. rewrite !configured_capacity_parse. by apply parse_leading_space.
  - intros s t v Hv Ht. rewrite !configured_capacity_parse.
    by apply (parse_number_then_tail s t v).
Qed.

Lemma C8_capacity_from_environment_witness :
  configured_capacity (Some "42"%string) = 42
  ∧ configured_capacity (Some "abc"%string) = 256
  ∧ configured_capacity (Some " 7"%string) = configured_capacity (Some "7"%string)
  ∧ configured_capacity (Some "12abc"%string) = configured_capacity (Some "12"%string)
  ∧ configured_capacity (Some "+12abc"%string) = configured_capacity (Some "+12"%string)
  ∧ configured_capacity (Some "-5x"%string) = configured_capacity (Some "-5"%string)
  ∧ configured_capacity (Some "+7 "%string) = configured_capacity (Some "+7"%string)
  ∧ configured_capacity (Some " +12abc"%string) = spec_capacity (Some "+12"%string).
Proof.
  destruct C8_capacity_from_environment
    as (_ & _ & _ & Hpre & Hdec & Hno & Hsp & Htr).
  split_and!.
  - apply (Hdec "42"%string 42). reflexivity.
  - apply (Hno "abc"%string 0). reflexivity.
  - apply (Hsp " "%char "7"%string). reflexivity.
  - apply (Htr "12"%string "abc"%string 12); reflexivity.
  - apply (Htr "+12"%string "abc"%string 12); reflexivity.
  - apply (Htr "-5"%string "x"%string (-5)); reflexivity.
  - apply (Htr "+7"%string " "%string 7); reflexivity.
  - apply (Hpre " +12abc"%string).
Defined.

(** * Cache construction *)

Lemma cache_init_geometry ps w w' :
  cache_init ps w = Ret 0 w' →
  ∃ tr tg, cache (hnd w')
           = with_ghosts tg (with_resident tr (cache_geometry (g_cfg_cache_pages w) ps)).
Proof.
  unfold cache_init, ht_init. prims. simpl.
  repeat (case_goal; simpl; try discriminate).
  all: intros H; inversion H; subst; simpl; eauto.
Qed.

Lemma cache_geometry_small cfg ps :
  cfg < 4 →
  let c := cache_geometry cfg ps in
  capacity c = 4 ∧ kin c = 1 ∧ am_cap c = 3 ∧ kout c = 2.
Proof.
  intros H. unfold cache_geometry. replace (cfg <? 4) with true by lia.
  vm_compute. done.
Qed.

Lemma cache_geometry_range cfg ps :
  0 ≤ cfg < 2 ^ 61 →
  let g := cache_geometry cfg ps in
  capacity g = Z.max cfg 4 ∧ 4 ≤ capacity g ≤ 2 ^ 61 ∧ 1 ≤ kout g ≤ 2 ^ 61.
Proof.
  intros Hc. unfold cache_geometry. cbv zeta. cbn [capacity kout].
  set (C := if cfg <? 4 then 4 else cfg).
  assert (C = Z.max cfg 4) as HC by (unfold C; destruct (Z.ltb_spec cfg 4); lia).
  assert (2 ≤ C / 2 ≤ C) by (Z.div_mod_to_equations; lia).
  destruct (Z.ltb_spec (C / 2) 1); lia.
Qed.

Lemma next_pow2_returns x : 0 ≤ x ≤ 2 ^ 63 → ∃ p, next_pow2 x = Some p.
Proof.
  intros Hx.
  destruct (next_pow2_loop_ok x Hx 66 0) as (j & _ & E & _); [lia|lia|by left|].
  by exists (2 ^ j).
Qed.

(** C10: [cache_init] returns, with 0 when none of its six allocations
    fails and with -1 otherwise, and the cache it leaves has capacity
    max(configured, 4); for a configured value below 4 it has C = 4,
    Kin = 1, Am_cap = 3 and Kout = 2, and its capacity is not the
    configured value.  (The configured value is a [size_t]; the bound
    2^61 keeps the sizes of the two tables within [next_pow2]'s range and
    is far above what [vtpc_init_once] accepts.) *)
Theorem C10_capacity_at_least_4 w ps :
  0 ≤ g_cfg_cache_pages w < 2 ^ 61 →
  ∃ r w', cache_init ps w = Ret r w'
    ∧ (r = 0 ∨ r = -1)
    ∧ (Forall (λ f, f = None) (take 6 (oracle w)) → r = 0)
    ∧ let c := cache (hnd w') in
      capacity c = Z.max (g_cfg_cache_pages w) 4
      ∧ (g_cfg_cache_pages w < 4 →
         capacity c = 4 ∧ kin c = 1 ∧ am_cap c = 3 ∧ kout c = 2
         ∧ capacity c ≠ g_cfg_cache_pages w).
Proof.
  intros Hc.
  pose proof (cache_geometry_range _ ps Hc) as (Hcap & Hcr & Hkr). cbv zeta in *.
  assert (g_cfg_cache_pages w < 4 →
          capacity (cache_geometry (g_cfg_cache_pages w) ps) = 4
          ∧ kin (cache_geometry (g_cfg_cache_pages w) ps) = 1
          ∧ am_cap (cache_geometry (g_cfg_cache_pages w) ps) = 3
          ∧ kout (cache_geometry (g_cfg_cache_pages w) ps) = 2
          ∧ capacity (cache_geometry (g_cfg_cache_pages w) ps)
            ≠ g_cfg_cache_pages w) as Hsmall.
  { intros Hlt. pose proof (cache_geometry_small _ ps Hlt) as (H1 & H2 & H3 & H4).
    cbv zeta in *. rewrite H1. split_and!; try done. lia. }
  unfold cache_init.
  rewrite (bind_eq _ _ _ _ _ (eq_refl : get_w w = Ret w w)). cbv beta zeta.
  set (g := cache_geometry (g_cfg_cache_pages w) ps) in *.
  destruct (next_pow2_returns (sz_mul (capacity g) 4)) as [p1 E1].
  { unfold sz_mul. rewrite wrap64_small by lia. lia. }
  destruct (next_pow2_returns (sz_mul (kout g) 4)) as [p2 E2].
  { unfold sz_mul. rewrite wrap64_small by lia. lia. }
  clearbody g. unfold ht_init. prims. rewrite E1, E2.
  destruct (oracle w)
    as [|[e1|] [|[e2|] [|[e3|] [|[e4|] [|[e5|] [|[e6|] o]]]]]] eqn:Eo;
    repeat (progress (simpl; rewrite ?Eo));
    eexists _, _; (split; [reflexivity|]); simpl;
    (split; [auto|]); (split; [|by split]);
    rewrite ?Forall_cons; intros HF; try done; intuition congruence.
Qed.

Lemma C10_capacity_at_least_4_witness :
  ∃ w', cache_init 4096 (configured 3) = Ret 0 w'
        ∧ capacity (cache (hnd w')) = 4 ∧ kin (cache (hnd w')) = 1
        ∧ am_cap (cache (hnd w')) = 3 ∧ kout (cache (hnd w')) = 2.
Proof.
  destruct (C10_capacity_at_least_4 (configured 3) 4096)
    as (r & w' & E & _ & Hz & _ & Hsmall).
  - vm_compute. split; [discriminate|reflexivity].
  - assert (r = 0) as -> by (apply Hz; vm_compute; constructor).
    destruct Hsmall as (H1 & H2 & H3 & H4 & _); [vm_compute; reflexivity|].
    exists w'. split_and!; assumption.
Defined.

(** * Reading a handle opened for writing only *)

Lemma vtpc_read_cases w buf count :
  is_open w →
  vtpc_read 3 buf count w =
    if negb buf && (count >? 0) then Ret (-1, []) (with_errno EINVAL w)
    else if count =? 0 then Ret (0, []) w
    else if acc_mode (flags (hnd w)) =? O_WRONLY
         then Ret (-1, []) (with_errno EBADF w)
         else read_loop (S (Z.to_nat count)) count (page_size (cache (hnd w))) 0 [] w.
Proof.
  intros H. unfold vtpc_read. unfold bind at 1. rewrite get_handle_open by done.
  destruct (negb buf && (count >? 0)); [done|].
  destruct (count =? 0); [done|].
  destruct (acc_mode (flags (hnd w)) =? O_WRONLY); done.
Qed.

Lemma open_wo_write_only : write_only (final open_wo five_pages).
Proof. split; [unfold is_open|]; vm_compute; congruence. Qed.

(** C7, as the specification states it, fails: on a handle opened for
    writing only a read of count 0 returns 0 and sets no error. *)
Lemma C7_counterexample :
  ¬ (∀ w buf count, write_only w → 0 ≤ count →
       ∃ w', vtpc_read 3 buf count w = Ret (-1, []) w' ∧ errno w' = EBADF).
Proof.
  intros H.
  destruct (H (final open_wo five_pages) true 0 open_wo_write_only ltac:(lia))
    as (w' & E & _).
  rewrite vtpc_read_cases in E by apply open_wo_write_only.
  simpl in E. discriminate.
Qed.

(** C7, amended: on a handle opened for writing only, a read of a positive
    count into a buffer fails with a bad-descriptor error, transfers no
    bytes and leaves the handle and its cache as they were; a read of
    count 0 returns 0 without an error; a read of a positive count with a
    null buffer fails with an invalid-argument error. *)
Theorem C7_read_on_write_only w buf count :
  write_only w → 0 ≤ count →
  (0 < count → buf = true →
     vtpc_read 3 buf count w = Ret (-1, []) (with_errno EBADF w))
  ∧ (count = 0 → vtpc_read 3 buf count w = Ret (0, []) w)
  ∧ (0 < count → buf = false →
     vtpc_read 3 buf count w = Ret (-1, []) (with_errno EINVAL w)).
Proof.
  intros [Ho Hw] Hc. rewrite vtpc_read_cases by done. split_and!.
  - intros H ->. simpl. replace (count =? 0) with false by lia.
    rewrite Hw. done.
  - intros ->. simpl. by rewrite andb_false_r.
  - intros H ->. simpl. replace (count >? 0) with true by lia. done.
Qed.

Lemma C7_read_on_write_only_witness :
  let w := final open_wo five_pages in
  vtpc_read 3 true 4096 w = Ret (-1, []) (with_errno EBADF w)
  ∧ vtpc_read 3 true 0 w = Ret (0, []) w.
Proof.
  intros w. split.
  - apply (C7_read_on_write_only w true 4096 open_wo_write_only); [lia|lia|done].
  - apply (C7_read_on_write_only w true 0 open_wo_write_only); [lia|done].
Defined.

(** * A resident index without an empty slot *)

Lemma no_stopb_ok t key : no_stopb t key = true → no_stop t key.
Proof.
  unfold no_stopb, no_stop. rewrite forallb_forall. intros H i Hi Hs.
  specialize (H i). rewrite negb_true_iff in H.
  assert (E : stopsb t key i = false).
  { apply H. apply list_elem_of_In, elem_of_seqZ. lia. }
  unfold stopsb in E. apply (stops_dec t) in Hs.
  destruct Hs as [Hs|Hs]; rewrite Hs in E; simpl in E; try discriminate.
  by rewrite orb_true_r in E.
Qed.

Lemma file_34_pages_reachable : reachable file_34_pages.
Proof.
  unfold file_34_pages. apply reach_boot; [lia|].
  rewrite length_replicate. unfold OFF_MAX. lia.
Qed.

Lemma ten_bytes_reachable : reachable ten_bytes.
Proof.
  unfold ten_bytes. apply reach_boot; [lia|].
  rewrite length_replicate. unfold OFF_MAX. lia.
Qed.

(** C1 on the code: with capacity 4 the resident index has 16 slots.
    Pages 0 to 25 are read twice each; every deletion leaves a tombstone
    and one empty slot is left.  A write of 4097 bytes at the start of
    page 32 returns 4097: it loads page 32, then page 33, whose insertion
    takes the last empty slot while page 32 is evicted (and written
    back).  The read of the same 4097 bytes probes the index for page 32,
    which is neither there nor followed by an empty slot: the probe of
    [ht_get] never ends, for any number of steps, and the read does not
    return. *)
Theorem C1_read_after_write_hangs :
  let w := final write_pages_32_33 file_34_pages in
  let t := resident (cache (hnd w)) in
  reachable w
  ∧ nth 106 (results write_pages_32_33 file_34_pages) 0 = 4097
  ∧ pos (hnd w) = 32 * 4096
  ∧ a1in_pages w = [33] ∧ a1out_pages w = [32]
  ∧ table_ok t ∧ no_stop t 32
  ∧ (∀ fuel, ht_get_loop fuel t 32 (Z.land (hash_u64 32) (ht_mask t)) = None)
  ∧ vtpc_read 3 true 4097 w = Diverge.
Proof.
  cbv zeta.
  assert (Hok : table_ok (resident (cache (hnd (final write_pages_32_33 file_34_pages))))).
  { split; [exists 4; split; [lia|vm_compute; reflexivity]|].
    split_and!; vm_compute; reflexivity. }
  assert (Hns : no_stop (resident (cache (hnd (final write_pages_32_33 file_34_pages)))) 32).
  { apply no_stopb_ok. vm_compute. reflexivity. }
  split_and!; try assumption.
  - apply final_reachable;
      [apply file_34_pages_reachable | ops_ok | vm_compute; reflexivity].
  - vm_compute; reflexivity.
  - vm_compute; reflexivity.
  - vm_compute; reflexivity.
  - vm_compute; reflexivity.
  - intros fuel. apply ht_get_loop_never; [done|done|by apply land_mask_range].
  - vm_compute; reflexivity.
Qed.

(** * A cached page and a file that grows behind it *)

(** C4 on the code: the only page of a 10-byte file is read and stays
    cached with [valid_len] = 10; a byte written at offset 5000 makes the
    file 5001 bytes long.  A read of 100 bytes at offset 10 finds the
    cached page, takes [in_page >= valid_len] for the end of the file and
    returns 0, with the cursor 4991 bytes before the end. *)
Theorem C4_read_zero_before_eof :
  let w := final extend_behind_cached_page ten_bytes in
  reachable w
  ∧ results extend_behind_cached_page ten_bytes = [3; 10; 5000; 1; 10]
  ∧ acc_mode (flags (hnd w)) = O_RDWR
  ∧ pos (hnd w) = 10 ∧ h_size (hnd w) = 5001
  ∧ Z.of_nat (length (file w)) = 5001
  ∧ value (vtpc_read 3 true 100 w) = Some (0, []).
Proof.
  cbv zeta. split_and!.
  - apply final_reachable;
      [apply ten_bytes_reachable | ops_ok | vm_compute; reflexivity].
  - vm_compute; reflexivity.
  - vm_compute; reflexivity.
  - vm_compute; reflexivity.
  - vm_compute; reflexivity.
  - vm_compute; reflexivity.
  - vm_compute; reflexivity.
Qed.

(** * The buffers of resident pages *)

(** C9: in every reachable state, every entry the resident index points
    to has [valid_len] within the page size, a buffer of one page, and
    zeros from [valid_len] to the end of the buffer.  [page_ok_loaded]
    establishes this when a page is loaded and [page_ok_written] keeps it
    through a write, also one that starts after [valid_len]. *)
Theorem C9_valid_len_zero_tail w e :
  reachable w → resident_entry w e →
  page_ok (page_size (cache (hnd w))) e.
Proof.
  intros Hr He. apply reachable_api in Hr as (Hh & HPS & Hopen & Hclosed).
  destruct (decide (used (hnd w) = 0)) as [Hu|Hu].
  - exfalso. by eapply closed_no_resident; [apply Hclosed|].
  - destruct (Hopen Hu) as (_ & -> & _). destruct He as (i & p & _ & _ & Hp).
    by eapply Hh.
Qed.

Lemma C9_valid_len_zero_tail_witness :
  let w := final extend_behind_cached_page ten_bytes in
  page_ok (page_size (cache (hnd w))) (entry_at w 2)
  ∧ valid_len (entry_at w 2) = 905.
Proof.
  intros w. split; [|vm_compute; reflexivity].
  apply C9_valid_len_zero_tail.
  - apply final_reachable;
      [apply ten_bytes_reachable | ops_ok | vm_compute; reflexivity].
  - exists (Z.land (hash_u64 1) 1023), 2. split_and!.
    + vm_compute; reflexivity.
    + vm_compute; reflexivity.
    + vm_compute; reflexivity.
Defined.

(** * A write-back that fails during an eviction *)

Lemma flush_fails p e err w :
  p ≠ NULL → pages w !! p = Some e → dirty e ≠ 0 → wb_fails w e err →
  ∃ w3, cache_flush_page p w = Ret (-1) w3
        ∧ pages w3 = pages w ∧ hnd w3 = hnd w
        ∧ ghost_objs w3 = ghost_objs w ∧ errno w3 = err.
Proof.
  intros Hp He Hd (Hacc & Hoff & Hsz & o & Ho).
  unfold cache_flush_page, pwrite_fullpage, sys_pwrite, sys_ftruncate,
    drop_os_cache. prims.
  replace (p =? NULL) with false by (unfold NULL in *; lia).
  rewrite He. replace (dirty e =? 0) with false by lia.
  replace (acc_mode (flags (hnd w)) =? O_RDONLY) with false by lia.
  replace (to_off (sz_mul (page_no e) (page_size (cache (hnd w)))) <? 0)
    with false by lia.
  destruct Ho as [Ho|Ho]; rewrite Ho; simpl.
  - rewrite andb_false_r. simpl. eexists. split; [reflexivity|]. done.
  - destruct ((direct (hnd w) =? 0) && _); simpl.
    all: assert (Hlen : ∀ n : nat, (Z.of_nat n <? 0) = false)
           by (intros; apply Z.ltb_ge; lia).
    all: rewrite Hlen.
    all: simpl.
    all: replace (acc_mode (flags (hnd w)) =? O_RDONLY) with false by lia.
    all: replace (h_size (hnd w) <? 0) with false by lia.
    all: simpl; eexists; (split; [reflexivity|done]).
Qed.

Lemma has_empty_del t key t' :
  table_ok t → has_empty t → ht_del t key = Some t' → has_empty t'.
Proof.
  intros Hok (s & Hs & Hz) H.
  apply ht_del_shape in H as [->|(idx & Hi & H1 & _ & ->)]; [by exists s| |done].
  exists s. split; [done|]. simpl. rewrite rd_wr_ne; [done|lia|lia|].
  intros ->. lia.
Qed.

Lemma round_trip_counter n : 0 ≤ n < 2 ^ 64 → sz_add (sz_sub n 1) 1 = n.
Proof.
  intros Hn. unfold sz_add, sz_sub, wrap64.
  rewrite Zplus_mod_idemp_l. replace (n - 1 + 1) with n by lia.
  by apply Z.mod_small.
Qed.

Lemma pop_back_last l victim :
  last l = Some victim →
  page_list_pop_back l = (victim, page_list_remove l victim).
Proof. unfold page_list_pop_back. by intros ->. Qed.

Ltac bauto := erewrite bind_eq by reflexivity; cbv beta iota.
Ltac bstep H := erewrite (bind_eq _ _ _ _ _ H); cbv beta iota.

Lemma evict_from_am_fails w victim e err :
  let c := cache (hnd w) in
  last (am c) = Some victim → victim ≠ NULL →
  pages w !! victim = Some e → dirty e ≠ 0 → wb_fails w e err →
  ht_get (resident c) (page_no e) = Some victim →
  table_ok (resident c) → has_empty (resident c) → 0 ≤ am_sz c < 2 ^ 64 →
  ∃ w', evict_from_am w = Ret (-1) w' ∧ errno w' = err
        ∧ restored w w' victim (am c) (am (cache (hnd w')))
            (without_am c) (without_am (cache (hnd w')))
        ∧ a1in (cache (hnd w')) = a1in c
        ∧ a1in_sz (cache (hnd w')) = a1in_sz c.
Proof.
  intros c Hlast Hv He Hd Hwb Hidx Hok Hemp Hsz.
  pose proof Hemp as (s & Hs & Hz).
  destruct (ht_del_ends (resident c) Hok (page_no e) s Hs (or_introl Hz)) as [t1 Ht1].
  assert (Hok1 : table_ok t1) by (eapply ht_del_ok; eauto).
  destruct (has_empty_del _ _ _ Hok Hemp Ht1) as (s1 & Hs1 & Hz1).
  destruct (ht_put_ends t1 Hok1 (page_no e) victim s1 Hs1 (or_introl Hz1)) as [t2 Ht2].
  set (w1 := with_hnd (with_cache
               (with_am (page_list_remove (am c) victim) (sz_sub (am_sz c) 1))) w).
  set (w2 := with_hnd (with_cache (with_resident t1)) w1).
  destruct (flush_fails victim e err w2 Hv He Hd Hwb) as (w3 & Hf & F1 & F2 & F3 & F4).
  eexists. split_and!.
  - unfold evict_from_am. bauto. fold c.
    rewrite (pop_back_last _ _ Hlast). cbv iota.
    replace (victim =? NULL) with false by (unfold NULL in *; lia).
    bauto. fold w1. bstep (deref_eq victim e w1 He).
    rewrite Ht1. bauto. bauto. fold w2. bstep Hf.
    simpl (negb (-1 =? 0)). cbv iota. bauto. bauto.
    erewrite bind_eq by (apply deref_eq; simpl; rewrite F1; exact He).
    cbv beta iota. rewrite F2. simpl resident. rewrite Ht2.
    bauto. bauto. reflexivity.
  - simpl. exact F4.
  - unfold restored, without_am. simpl. rewrite F1, F2, F3. simpl.
    rewrite round_trip_counter by done.
    split_and!; try done.
    intros k. by apply (ht_reindex (resident c) (page_no e) victim t1 t2).
  - simpl. by rewrite F2.
  - simpl. by rewrite F2.
Qed.

Lemma evict_from_a1in_fails w victim e err :
  let c := cache (hnd w) in
  last (a1in c) = Some victim → victim ≠ NULL →
  pages w !! victim = Some e → dirty e ≠ 0 → wb_fails w e err →
  ht_get (resident c) (page_no e) = Some victim →
  table_ok (resident c) → has_empty (resident c) → 0 ≤ a1in_sz c < 2 ^ 64 →
  ∃ w', evict_from_a1in w = Ret (-1) w' ∧ errno w' = err
        ∧ restored w w' victim (a1in c) (a1in (cache (hnd w')))
            (without_a1in c) (without_a1in (cache (hnd w')))
        ∧ am (cache (hnd w')) = am c
        ∧ am_sz (cache (hnd w')) = am_sz c.
Proof.
  intros c Hlast Hv He Hd Hwb Hidx Hok Hemp Hsz.
  pose proof Hemp as (s & Hs & Hz).
  destruct (ht_del_ends (resident c) Hok (page_no e) s Hs (or_introl Hz)) as [t1 Ht1].
  assert (Hok1 : table_ok t1) by (eapply ht_del_ok; eauto).
  destruct (has_empty_del _ _ _ Hok Hemp Ht1) as (s1 & Hs1 & Hz1).
  destruct (ht_put_ends t1 Hok1 (page_no e) victim s1 Hs1 (or_introl Hz1)) as [t2 Ht2].
  set (w1 := with_hnd (with_cache
               (with_a1in (page_list_remove (a1in c) victim) (sz_sub (a1in_sz c) 1))) w).
  set (w2 := with_hnd (with_cache (with_resident t1)) w1).
  destruct (flush_fails victim e err w2 Hv He Hd Hwb) as (w3 & Hf & F1 & F2 & F3 & F4).
  eexists. split_and!.
  - unfold evict_from_a1in. bauto. fold c.
    rewrite (pop_back_last _ _ Hlast). cbv iota.
    replace (victim =? NULL) with false by (unfold NULL in *; lia).
    bauto. fold w1. bstep (deref_eq victim e w1 He).
    rewrite Ht1. bauto. bauto. fold w2. bstep Hf.
    simpl (negb (-1 =? 0)). cbv iota. bauto. bauto.
    erewrite bind_eq by (apply deref_eq; simpl; rewrite F1; exact He).
    cbv beta iota. rewrite F2. simpl resident. rewrite Ht2.
    bauto. bauto. reflexivity.
  - simpl. exact F4.
  - unfold restored, without_a1in. simpl. rewrite F1, F2, F3. simpl.
    rewrite round_trip_counter by done.
    split_and!; try done.
    intros k. by apply (ht_reindex (resident c) (page_no e) victim t1 t2).
  - simpl. by rewrite F2.
  - simpl. by rewrite F2.
Qed.

Lemma ensure_space_for_am_fails w w' r :
  am_cap (cache (hnd w)) ≤ am_sz (cache (hnd w)) →
  evict_from_am w = Ret r w' → r ≠ 0 →
  ensure_space_for_am w = Ret (-1) w'.
Proof.
  intros Hfull He Hr. unfold ensure_space_for_am. bauto.
  cbn [am_cap_loop]. erewrite bind_eq; cycle 1.
  { bauto. replace (am_sz (cache (hnd w)) >=? am_cap (cache (hnd w))) with true by lia.
    bstep He. replace (negb (r =? 0)) with true by lia. reflexivity. }
  reflexivity.
Qed.

Lemma ensure_space_for_a1in_fails w w' r :
  kin (cache (hnd w)) ≤ a1in_sz (cache (hnd w)) →
  evict_from_a1in w = Ret r w' →
  ensure_space_for_a1in w = Ret r w'.
Proof.
  intros Hfull He. unfold ensure_space_for_a1in. bauto.
  replace (a1in_sz (cache (hnd w)) >=? kin (cache (hnd w))) with true by lia.
  done.
Qed.

Lemma ghost_hit_reachable : reachable ghost_hit_wb_fails.
Proof.
  apply final_reachable;
    [apply five_pages_reachable | ops_ok | vm_compute; reflexivity].
Qed.




(** * More on the open-addressing table and on [next_pow2] *)

Section lookups.
Context (t : ht_t) (Hok : table_ok t).

(** What a lookup returns is [NULL] or the value of a slot that holds the
    key. *)
Lemma ht_get_loop_found key : ∀ fuel i v,
  0 ≤ i < cap t → ht_get_loop fuel t key i = Some v →
  v = NULL ∨ ∃ j, 0 ≤ j < cap t ∧ rd 0 (state t) j = 1
                  ∧ rd 0 (keys t) j = key ∧ rd NULL (vals t) j = v.
Proof.
  induction fuel as [|fuel IH]; intros i v Hi H; [done|].
  simpl in H. destruct (rd 0 (state t) i =? 0) eqn:E0.
  - left. by inversion H.
  - destruct ((rd 0 (state t) i =? 1) && (rd 0 (keys t) i =? key)) eqn:E1.
    + apply andb_true_iff in E1 as [E1 E2]. inversion H.
      right. exists i. split_and!; [lia|lia|lia|lia|done].
    + eapply IH; [|done]. by apply land_mask_range.
Qed.

Lemma ht_get_found key v :
  ht_get t key = Some v →
  v = NULL ∨ ∃ j, 0 ≤ j < cap t ∧ rd 0 (state t) j = 1
                  ∧ rd 0 (keys t) j = key ∧ rd NULL (vals t) j = v.
Proof.
  unfold ht_get. rewrite cap_nonzero by done.
  apply ht_get_loop_found. by apply land_mask_range.
Qed.

(** The probe that found another key finds it after the insertion of
    [key]. *)
Lemma ht_get_loop_put_other key val k' idx v :
  k' ≠ key → 0 ≤ idx < cap t → writable t key idx → v ≠ NULL →
  ∀ fuel i, 0 ≤ i < cap t →
    ht_get_loop fuel t k' i = Some v →
    ht_get_loop fuel (slot_set t idx key val) k' i = Some v.
Proof.
  intros Hne Hidx Hw Hv. induction fuel as [|fuel IH]; intros i Hi H; [done|].
  cbn [ht_get_loop] in *. change (ht_mask (slot_set t idx key val)) with (ht_mask t).
  cbn [slot_set state keys vals].
  destruct (rd 0 (state t) i =? 0) eqn:E0; [by inversion H|].
  destruct ((rd 0 (state t) i =? 1) && (rd 0 (keys t) i =? k')) eqn:E1.
  - apply andb_true_iff in E1 as [E1 E2].
    assert (i ≠ idx) as Hi'.
    { intros ->. destruct Hw as [Hw|[Hw|[_ Hw]]]; lia. }
    rewrite !rd_wr_ne by lia. rewrite E0, E1, E2. done.
  - destruct (decide (i = idx)) as [->|Hi'].
    + rewrite !rd_wr_same by (lia || by apply in_state || by apply in_keys).
      replace (key =? k') with false by lia. simpl.
      apply IH; [by apply land_mask_range|done].
    + rewrite !rd_wr_ne by lia. rewrite E0, E1.
      apply IH; [by apply land_mask_range|done].
Qed.
End lookups.

Lemma rd_replicate n i : rd 0 (replicate n 0) i = 0.
Proof.
  unfold rd. destruct (replicate n 0 !! Z.to_nat i) eqn:E; [|done].
  by apply lookup_replicate in E as [-> _].
Qed.

Lemma ht_fresh_ok n : 0 ≤ n < 64 → table_ok (ht_fresh (2 ^ n)).
Proof.
  intros Hn. unfold table_ok, ht_fresh. simpl.
  rewrite !length_replicate. split_and!; try done. by exists n.
Qed.

Lemma small_table_ok : table_ok small_table.
Proof. split; [exists 4; split; [lia|done]|]. split_and!; vm_compute; reflexivity. Qed.

Lemma small_table_empty : has_empty small_table.
Proof. exists 0. split; [vm_compute; split; [discriminate|reflexivity]|vm_compute; reflexivity]. Qed.

(** X1: in a well-formed table with an empty slot an insertion returns,
    the table it leaves is well formed, and a lookup of the key in it
    returns the value inserted. *)
Theorem ht_put_then_get t key val :
  table_ok t → has_empty t →
  ∃ t', ht_put t key val = Some t' ∧ table_ok t'
        ∧ ht_get t' key = Some val.
Proof.
  intros Hok (s & Hs & Hz).
  destruct (ht_put_ends t Hok key val s Hs (or_introl Hz)) as [t' Ht'].
  exists t'. split_and!; [done|by eapply ht_put_ok|by eapply ht_put_get].
Qed.

Lemma ht_put_then_get_witness :
  ∃ t', ht_put small_table 39 9 = Some t' ∧ table_ok t'
        ∧ ht_get t' 39 = Some 9.
Proof.
  apply (ht_put_then_get small_table 39 9);
    [exact small_table_ok|exact small_table_empty].
Defined.

(** X2: each of the three probes fails to end exactly when the table has
    no empty slot and no slot that holds the key. *)
Theorem probe_never_ends_iff t key val :
  table_ok t →
  (ht_get t key = None ↔ no_stop t key)
  ∧ (ht_put t key val = None ↔ no_stop t key)
  ∧ (ht_del t key = None ↔ no_stop t key).
Proof.
  intros Hok. split_and!; split.
  - intros H i Hi Hs. destruct (ht_get_ends t Hok key i Hi Hs) as [v Hv]. congruence.
  - by apply ht_get_never.
  - intros H i Hi Hs. destruct (ht_put_ends t Hok key val i Hi Hs) as [v Hv]. congruence.
  - intros H. apply ht_put_loop_never; [done|done|by apply land_mask_range].
  - intros H i Hi Hs. destruct (ht_del_ends t Hok key i Hi Hs) as [v Hv]. congruence.
  - intros H. apply ht_del_loop_never; [done|done|by apply land_mask_range].
Qed.

Lemma probe_never_ends_iff_witness :
  (ht_get small_table 39 = None ↔ no_stop small_table 39)
  ∧ (ht_put small_table 39 9 = None ↔ no_stop small_table 39)
  ∧ (ht_del small_table 39 = None ↔ no_stop small_table 39).
Proof. apply (probe_never_ends_iff small_table 39 9). exact small_table_ok. Defined.

(** X3: neither an insertion nor a deletion gives a slot back: a slot
    that is empty afterwards was empty before. *)
Theorem no_slot_is_emptied t key val t' s :
  table_ok t → ht_put t key val = Some t' ∨ ht_del t key = Some t' →
  0 ≤ s → rd 0 (state t') s = 0 → rd 0 (state t) s = 0.
Proof.
  intros Hok [H|H] Hs Hz.
  - by eapply ht_put_keeps_full.
  - by eapply ht_del_keeps_full.
Qed.

Lemma no_slot_is_emptied_witness :
  rd 0 (state (default ht_zero (ht_del small_table 23))) 6 = 2
  ∧ rd 0 (state small_table) 5 = 0.
Proof.
  split; [vm_compute; reflexivity|].
  apply (no_slot_is_emptied small_table 23 0
           (default ht_zero (ht_del small_table 23)) 5);
    [exact small_table_ok|right; vm_compute; reflexivity|lia
    |vm_compute; reflexivity].
Defined.

(** X4: in a well-formed table with an empty slot that holds the key at
    most once, a deletion returns and a lookup of the key in the table it
    leaves returns [NULL]. *)
Theorem ht_del_then_get t key :
  table_ok t → has_empty t → key_once t key →
  ∃ t', ht_del t key = Some t' ∧ table_ok t' ∧ ht_get t' key = Some NULL.
Proof.
  intros Hok Hemp Hone. pose proof Hemp as (s & Hs & Hz).
  destruct (ht_del_ends t Hok key s Hs (or_introl Hz)) as [t' Ht'].
  assert (Hok' : table_ok t') by (by eapply ht_del_ok).
  exists t'. split_and!; [done|done|].
  pose proof Ht' as Hsh. apply ht_del_shape in Hsh; [|done].
  destruct Hsh as [->|(idx & Hidx & H1 & H2 & ->)].
  - unfold ht_get. rewrite cap_nonzero by done.
    apply ht_del_loop_same; [done|by apply land_mask_range|done].
  - destruct (has_empty_del _ _ _ Hok Hemp Ht') as (s' & Hs' & Hz').
    destruct (ht_get_ends _ Hok' key s' Hs' (or_introl Hz')) as [v Hv].
    rewrite Hv. f_equal.
    apply (ht_get_found _ Hok') in Hv as [Hv|(j & Hj & Hj1 & Hj2 & _)]; [done|].
    exfalso. simpl in *. destruct (decide (j = idx)) as [->|Hne].
    + rewrite rd_wr_same in Hj1 by (lia || by apply in_state). lia.
    + rewrite rd_wr_ne in Hj1 by lia. apply Hne. by apply Hone.
Qed.

Lemma small_table_once : key_once small_table 23.
Proof.
  intros i j Hi Hj Hi1 Hi2 Hj1 Hj2.
  assert (∀ k, 0 ≤ k < 16 → rd 0 (state small_table) k = 1 →
               rd 0 (keys small_table) k = 23 → k = 6) as H.
  { intros k Hk Hs Hk2.
    assert (k = 0 ∨ k = 1 ∨ k = 2 ∨ k = 3 ∨ k = 4 ∨ k = 5 ∨ k = 6 ∨ k = 7
            ∨ k = 8 ∨ k = 9 ∨ k = 10 ∨ k = 11 ∨ k = 12 ∨ k = 13 ∨ k = 14
            ∨ k = 15) as Hc by lia.
    repeat (destruct Hc as [->|Hc]); try subst k; try reflexivity;
      vm_compute in Hs, Hk2; discriminate. }
  change (cap small_table) with 16 in *. rewrite (H i), (H j); done.
Qed.

Lemma ht_del_then_get_witness :
  ∃ t', ht_del small_table 23 = Some t' ∧ table_ok t'
        ∧ ht_get t' 23 = Some NULL.
Proof.
  apply (ht_del_then_get small_table 23);
    [exact small_table_ok|exact small_table_empty|exact small_table_once].
Defined.

(** X5: a deletion does not disturb the other keys: the lookup of any
    other key returns in the table it leaves what it returned before. *)
Theorem ht_del_other_key t key k' t' :
  table_ok t → k' ≠ key → ht_del t key = Some t' →
  ht_get t' k' = ht_get t k'.
Proof.
  intros Hok Hne H. apply ht_del_shape in H; [|done].
  destruct H as [->|(idx & Hidx & H1 & H2 & ->)]; [done|].
  unfold ht_get. change (cap (slot_del t idx)) with (cap t).
  change (ht_mask (slot_del t idx)) with (ht_mask t).
  destruct (cap t =? 0); [done|].
  apply (ht_get_loop_del_other t Hok key); try done. by apply land_mask_range.
Qed.

Lemma ht_del_other_key_witness :
  ht_get (default ht_zero (ht_del small_table 23)) 7 = ht_get small_table 7.
Proof.
  apply (ht_del_other_key small_table 23 7);
    [exact small_table_ok|lia|vm_compute; reflexivity].
Defined.

(** X6: an insertion does not lose the other keys: a lookup that found
    another key finds the same value in the table the insertion leaves. *)
Theorem ht_put_other_key t key val k' v t' :
  table_ok t → k' ≠ key → ht_put t key val = Some t' →
  v ≠ NULL → ht_get t k' = Some v → ht_get t' k' = Some v.
Proof.
  intros Hok Hne H Hv Hg. apply ht_put_shape in H; [|done].
  destruct H as (idx & Hidx & Hw & ->).
  unfold ht_get in *. change (cap (slot_set t idx key val)) with (cap t).
  change (ht_mask (slot_set t idx key val)) with (ht_mask t).
  destruct (cap t =? 0); [done|].
  apply (ht_get_loop_put_other t Hok key); try done. by apply land_mask_range.
Qed.

Lemma ht_put_other_key_witness :
  ht_get (default ht_zero (ht_put small_table 39 9)) 23 = Some 6.
Proof.
  apply (ht_put_other_key small_table 39 9 23 6);
    [exact small_table_ok|lia|vm_compute; reflexivity|discriminate
    |vm_compute; reflexivity].
Defined.

(** X7: a lookup in the table that [ht_init] leaves returns [NULL] for
    every key. *)
Theorem ht_fresh_get n key :
  0 ≤ n < 64 → ht_get (ht_fresh (2 ^ n)) key = Some NULL.
Proof.
  intros Hn. pose proof (ht_fresh_ok n Hn) as Hok.
  assert (0 < 2 ^ n) by (apply Z.pow_pos_nonneg; lia).
  destruct (ht_get_ends _ Hok key 0) as [v Hv].
  - simpl. lia.
  - left. simpl. apply rd_replicate.
  - rewrite Hv. f_equal.
    apply (ht_get_found _ Hok) in Hv as [Hv|(j & Hj & Hj1 & _)]; [done|].
    simpl in Hj1. rewrite rd_replicate in Hj1. lia.
Qed.

Lemma ht_fresh_get_witness : ht_get (ht_fresh (2 ^ 10)) 77 = Some NULL.
Proof. apply (ht_fresh_get 10 77). lia. Defined.

(** ** [next_pow2] *)

(** X8: for [x] up to 2^63, [next_pow2 x] is the least power of two that
    is at least [x] (and at least 1); for a larger [x] the loop never
    ends, the shift having wrapped to zero. *)
Theorem next_pow2_least x :
  0 ≤ x < 2 ^ 64 →
  (x ≤ 2 ^ 63 →
   ∃ j, 0 ≤ j ≤ 63 ∧ next_pow2 x = Some (2 ^ j)
        ∧ x ≤ 2 ^ j ∧ (j = 0 ∨ 2 ^ (j - 1) < x))
  ∧ (2 ^ 63 < x → next_pow2 x = None).
Proof.
  intros Hx. replace (next_pow2 x) with (next_pow2_loop 66 (2 ^ 0) x) by reflexivity.
  split; intros H.
  - apply next_pow2_loop_ok; [lia|lia|lia|by left].
  - apply next_pow2_loop_big; [done|lia].
Qed.

Lemma next_pow2_least_witness :
  ∃ j, 0 ≤ j ≤ 63 ∧ next_pow2 1000 = Some (2 ^ j)
       ∧ 1000 ≤ 2 ^ j ∧ (j = 0 ∨ 2 ^ (j - 1) < 1000).
Proof. apply (next_pow2_least 1000); lia. Defined.

(** * The cursor and the size of the file across reads and writes *)

Lemma hdr_inv w w' : hdr w' = hdr w →
  used (hnd w') = used (hnd w) ∧ flags (hnd w') = flags (hnd w)
  ∧ pos (hnd w') = pos (hnd w) ∧ h_size (hnd w') = h_size (hnd w).
Proof. unfold hdr. intros [= ? ? ? ? ? ? ?]. done. Qed.

Lemma inner_ok_with_pos PS w x :
  inner_ok PS w → 0 ≤ x → inner_ok PS (with_hnd (with_pos x) w).
Proof.
  intros (H1 & (Hu & Hp & Hpos & Hsz) & H3 & H4) Hx.
  split_and!; simpl; try done; try lia.
Qed.

Lemma inner_ok_with_size PS w x :
  inner_ok PS w → 0 ≤ x → inner_ok PS (with_hnd (with_size x) w).
Proof.
  intros (H1 & (Hu & Hp & Hpos & Hsz) & H3 & H4) Hx.
  split_and!; simpl; try done; try lia.
Qed.

Lemma min_sz_spec a b : min_sz a b = Z.min a b.
Proof. unfold min_sz. destruct (a <? b) eqn:E; lia. Qed.

Lemma open_rw_reachable : reachable (final open_rw five_pages).
Proof.
  apply final_reachable;
    [apply five_pages_reachable | ops_ok | vm_compute; reflexivity].
Qed.

Section cursor.
Context (PS : Z) (HPS : 0 < PS < 2 ^ 32).

Lemma frame_of {A : Type} (m : M A) R w :
  pres PS m R → keeps m → inner_ok PS w →
  wp m (λ _ w', inner_ok PS w' ∧ hdr w' = hdr w) w.
Proof.
  intros Hp Hk Hw. eapply wp_mono; [apply wp_conj; [apply (Hp w Hw)|apply Hk]|].
  intros a w' [[H _] H']. done.
Qed.

Lemma read_loop_cursor count p0 hs0 fl0 : count < 2 ^ 63 →
  ∀ fuel total buf w,
  inner_ok PS w → 0 ≤ total ≤ count →
  pos (hnd w) = p0 + total → Z.of_nat (length buf) = total →
  h_size (hnd w) = hs0 → flags (hnd w) = fl0 →
  wp (read_loop fuel count PS total buf)
    (λ r w', h_size (hnd w') = hs0 ∧ flags (hnd w') = fl0
       ∧ ((fst r = -1 ∧ pos (hnd w') = p0 ∧ snd r = [])
          ∨ (total ≤ fst r ≤ count ∧ pos (hnd w') = p0 + fst r
             ∧ Z.of_nat (length (snd r)) = fst r))) w.
Proof.
  intros Hcount. induction fuel as [|fuel IH];
    intros total buf w Hw Htot Hpos Hlen Hsz Hfl; [done|].
  cbn [read_loop]. destruct (total <? count) eqn:Elt;
    [|apply wp_ret; split_and!; try done; right; simpl; lia].
  apply wp_bind_get_h. cbv beta zeta.
  pose proof Hw as (Hheap & (Hu & Hps & Hp0 & Hs0) & _).
  destruct (rem_page (pos (hnd w)) PS Hp0 HPS) as [Erem Hrem]. rewrite Erem.
  apply wp_bind. eapply wp_mono;
    [exact (frame_of _ _ w (pres_cache_get PS HPS _) (keeps_cache_get _) Hw)|].
  intros p w1 [Hw1 Hh]. cbv beta. apply hdr_inv in Hh as (Hu1 & Hfl1 & Hpos1 & Hsz1).
  destruct (p =? NULL).
  { destruct (total >? 0) eqn:Egt; apply wp_ret; simpl; split_and!; try congruence.
    - right. split_and!; [lia|lia|congruence|done].
    - left. assert (total = 0) by lia. split_and!; [done|lia|].
      destruct buf; [done|simpl in *; lia]. }
  apply wp_bind. unfold wp at 1, deref.
  destruct (pages w1 !! p) as [e|] eqn:Ep; [|done].
  pose proof Hw1 as (Hheap1 & _). pose proof (Hheap1 p e Ep) as (Hvl & Hdl & _).
  destruct (pos (hnd w) mod PS >=? valid_len e) eqn:Eeof.
  { apply wp_ret. simpl. split_and!; try congruence.
    right. split_and!; [lia|lia|congruence|done]. }
  set (want := min_sz (sz_sub count total) (sz_sub PS (pos (hnd w) mod PS))).
  set (tk := min_sz want (sz_sub (valid_len e) (pos (hnd w) mod PS))).
  assert (Hwant : 0 < want ≤ count - total ∧ want ≤ PS - pos (hnd w) mod PS).
  { unfold want, sz_sub. rewrite min_sz_spec, !wrap64_small by lia. lia. }
  assert (Htk : 0 < tk ≤ want ∧ tk ≤ valid_len e - pos (hnd w) mod PS).
  { unfold tk, sz_sub. rewrite min_sz_spec, !wrap64_small by lia. lia. }
  apply wp_bind_get_h. cbv beta.
  destruct (pos (hnd w1) + tk >? OFF_MAX) eqn:Eov; [done|].
  apply wp_bind_modify.
  assert (Hw2 : inner_ok PS (with_hnd (with_pos (pos (hnd w1) + tk)) w1))
    by (apply inner_ok_with_pos; [done|lia]).
  assert (Hlen' : Z.of_nat (length (buf ++ take (Z.to_nat tk)
            (drop (Z.to_nat (pos (hnd w) mod PS)) (data e)))) = total + tk).
  { rewrite length_app, length_take, length_drop. lia. }
  assert (Htot' : sz_add total tk = total + tk)
    by (unfold sz_add; apply wrap64_small; lia).
  rewrite Htot'.
  destruct (tk <? want).
  - apply wp_ret. simpl. split_and!; [congruence|congruence|].
    right. split_and!; [lia|lia|lia|done].
  - eapply wp_mono;
      [apply (IH (total + tk) _ _ Hw2);
         [lia|simpl; lia|exact Hlen'|simpl; congruence|simpl; congruence]|].
    intros [r bs] w3 (H1 & H2 & H3). split_and!; [done|done|].
    destruct H3 as [H3|H3]; [by left|right]. simpl in *. lia.
Qed.

Lemma write_loop_cursor src count p0 hs0 fl0 :
  0 < count ≤ OFF_MAX → count ≤ Z.of_nat (length src) → 0 ≤ p0 →
  ∀ fuel total w,
  inner_ok PS w → 0 ≤ total ≤ count →
  pos (hnd w) = p0 + total → flags (hnd w) = fl0 →
  (total = 0 ∧ h_size (hnd w) = hs0)
  ∨ (0 < total ∧ h_size (hnd w) = Z.max hs0 (p0 + total)) →
  wp (write_loop fuel src count PS total)
    (λ r w', flags (hnd w') = fl0
       ∧ ((r = -1 ∧ pos (hnd w') = p0 ∧ h_size (hnd w') = hs0)
          ∨ (0 < r ≤ count ∧ pos (hnd w') = p0 + r
             ∧ h_size (hnd w') = Z.max hs0 (p0 + r)))) w.
Proof.
  intros Hcount Hsrc Hp0. unfold OFF_MAX in Hcount.
  induction fuel as [|fuel IH];
    intros total w Hw Htot Hpos Hfl Hsz; [done|].
  cbn [write_loop]. destruct (total <? count) eqn:Elt;
    [|apply wp_ret; split; [done|]; right; split_and!; lia].
  apply wp_bind_get_h. cbv beta zeta.
  pose proof Hw as (Hheap & (Hu & Hps & Hpw & Hsw) & _).
  destruct (rem_page (pos (hnd w)) PS Hpw HPS) as [Erem Hrem]. rewrite Erem.
  apply wp_bind. eapply wp_mono;
    [exact (frame_of _ _ w (pres_cache_get PS HPS _) (keeps_cache_get _) Hw)|].
  intros p w1 [Hw1 Hh]. cbv beta. apply hdr_inv in Hh as (Hu1 & Hfl1 & Hpos1 & Hsz1).
  destruct (p =? NULL).
  { destruct (total >? 0) eqn:Egt; apply wp_ret; (split; [congruence|]).
    - right. split_and!; lia.
    - left. split_and!; lia. }
  apply wp_bind. unfold wp at 1, deref.
  destruct (pages w1 !! p) as [e|] eqn:Ep; [|done].
  pose proof Hw1 as (Hheap1 & _). pose proof (Hheap1 p e Ep) as Hpok.
  set (chunk := min_sz (sz_sub count total) (sz_sub PS (pos (hnd w) mod PS))).
  assert (Hch : 0 < chunk ≤ count - total ∧ chunk ≤ PS - pos (hnd w) mod PS).
  { unfold chunk, sz_sub. rewrite min_sz_spec, !wrap64_small by lia. lia. }
  unfold store. apply wp_bind_modify.
  set (e' := write_page e _ _ _).
  assert (Hw2 : inner_ok PS (with_pages <[p:=e']> w1)).
  { assert (page_ok PS e') as He'.
    { apply page_ok_written; try done; try lia.
      rewrite length_take, length_drop. lia. }
    pose proof (pres_store PS p e' He' w1 Hw1) as X.
    unfold wp, store, modify in X. by destruct X. }
  assert (Htot' : sz_add total chunk = total + chunk)
    by (unfold sz_add; apply wrap64_small; lia).
  rewrite Htot'.
  apply wp_bind_get_h. cbv beta. cbn [hnd with_pages].
  destruct (pos (hnd w1) + chunk >? OFF_MAX) eqn:Eov; [done|].
  apply wp_bind_modify.
  set (w3 := with_hnd (with_pos (pos (hnd w1) + chunk)) _).
  assert (Hw3 : inner_ok PS w3) by (apply inner_ok_with_pos; [done|lia]).
  destruct (pos (hnd w1) + chunk >? h_size (hnd w1)) eqn:Egrow.
  - apply wp_bind_modify.
    set (w4 := with_hnd (with_size (pos (hnd w1) + chunk)) w3).
    assert (Hw4 : inner_ok PS w4) by (apply inner_ok_with_size; [done|lia]).
    apply wp_bind. eapply wp_mono;
      [exact (frame_of _ _ w4 (pres_sys_ftruncate PS _) (keeps_sys_ftruncate _) Hw4)|].
    intros r w5 [Hw5 Hh5]. cbv beta.
    apply hdr_inv in Hh5 as (Hu5 & Hfl5 & Hpos5 & Hsz5).
    subst w4 w3. simpl in Hfl5, Hpos5, Hsz5.
    destruct (negb (r =? 0)).
    + destruct (total + chunk >? 0) eqn:Egt; apply wp_ret; (split; [congruence|]).
      * right. split_and!; lia.
      * lia.
    + eapply wp_mono; [apply (IH (total + chunk) _ Hw5); [lia|lia|congruence|right; lia]|].
      intros r' w6 (H1 & H2). split; [done|].
      destruct H2 as [H2|H2]; [by left|right; lia].
  - subst w3. eapply wp_mono;
      [apply (IH (total + chunk) _ Hw3); [lia|simpl; lia|simpl; congruence|right; simpl; lia]|].
    intros r' w6 (H1 & H2). split; [done|].
    destruct H2 as [H2|H2]; [by left|right; lia].
Qed.
End cursor.

Lemma wp_true {A : Type} (m : M A) w : wp m (λ _ _, True) w.
Proof. unfold wp. by destruct (m w). Qed.

Lemma get_handle_none fd w :
  used (hnd w) = 0 ∨ fd < 0 ∨ VTPC_MAX_HANDLES ≤ fd →
  get_handle fd w = Ret None w.
Proof.
  intros [H|H]; [by apply get_handle_closed|].
  unfold get_handle. replace ((fd <? 0) || (fd >=? VTPC_MAX_HANDLES)) with true; [done|].
  symmetry. apply orb_true_iff. lia.
Qed.

Lemma exec_no_handle o fd w :
  fd_of o = Some fd → get_handle fd w = Ret None w →
  exec o w = Ret (-1) (with_errno EBADF w).
Proof.
  intros Hfd E. destruct o; simpl in Hfd; try discriminate;
    injection Hfd as ->;
    unfold exec, vtpc_close, vtpc_lseek, vtpc_read, vtpc_write, vtpc_fsync, bind;
    rewrite E; reflexivity.
Qed.

(** X9: a read moves nothing but the cursor.  From a reachable state a
    read that returns leaves the size of the file and the flags of the
    handle as they were; when it returns -1 the cursor has not moved and
    no byte was transferred; otherwise it returns a number of bytes
    between 0 and [count], has transferred that many bytes and has
    advanced the cursor by as much. *)
Theorem vtpc_read_cursor fd buf count w r bs w' :
  reachable w → 0 ≤ count ≤ OFF_MAX →
  vtpc_read fd buf count w = Ret (r, bs) w' →
  h_size (hnd w') = h_size (hnd w) ∧ flags (hnd w') = flags (hnd w)
  ∧ ((r = -1 ∧ pos (hnd w') = pos (hnd w) ∧ bs = [])
     ∨ (0 ≤ r ≤ count ∧ pos (hnd w') = pos (hnd w) + r
        ∧ Z.of_nat (length bs) = r)).
Proof.
  intros Hr Hc H. apply reachable_api in Hr. unfold OFF_MAX in Hc.
  unfold vtpc_read in H.
  destruct (get_handle_cases fd w) as [E|[E Hu]];
    rewrite (bind_eq _ _ _ _ _ E) in H; cbv beta iota in H.
  { injection H as <- <- <-. split_and!; try done. by left. }
  destruct (negb buf && (count >? 0)).
  { injection H as <- <- <-. split_and!; try done. by left. }
  destruct (count =? 0) eqn:E0.
  { injection H as <- <- <-. split_and!; try done. right. split_and!; try done; lia. }
  destruct (acc_mode (flags (hnd w)) =? O_WRONLY).
  { injection H as <- <- <-. split_and!; try done. by left. }
  pose proof (api_inner w Hr Hu) as Hw.
  pose proof Hw as (_ & (_ & Hps & _) & _ & HPS).
  rewrite Hps in H.
  pose proof (read_loop_cursor _ HPS count (pos (hnd w)) (h_size (hnd w))
                (flags (hnd w)) ltac:(lia) (S (Z.to_nat count)) 0 [] w Hw
                ltac:(lia) ltac:(lia) eq_refl eq_refl eq_refl) as Hspec.
  apply (wp_elim _ _ _ _ _ Hspec) in H. simpl in H.
  destruct H as (H1 & H2 & H3). split_and!; [done|done|].
  destruct H3 as [H3|H3]; [by left|by right].
Qed.

Lemma vtpc_read_cursor_witness :
  let w := final open_rw five_pages in
  let w' := after (vtpc_read 3 true 100) w in
  h_size (hnd w') = h_size (hnd w) ∧ flags (hnd w') = flags (hnd w)
  ∧ ((100 = -1 ∧ pos (hnd w') = pos (hnd w) ∧ replicate 100 x01 = [])
     ∨ (0 ≤ 100 ≤ 100 ∧ pos (hnd w') = pos (hnd w) + 100
        ∧ Z.of_nat (length (replicate 100 x01)) = 100)).
Proof.
  intros w w'.
  apply (vtpc_read_cursor 3 true 100 w 100 (replicate 100 x01) w').
  - exact open_rw_reachable.
  - unfold OFF_MAX. lia.
  - apply (ret_after (vtpc_read 3 true 100) w). vm_compute. reflexivity.
Defined.

(** X10: a write moves the cursor and grows the file by what it wrote.
    From a reachable state, a write of [count] bytes from a buffer that
    holds as many leaves the flags alone and either returns -1 with the
    size of the file unchanged, or returns 0 for [count = 0] with the
    handle unchanged, or returns a number [r] of bytes between 1 and
    [count], with the cursor [r] bytes after where the write started (the
    end of the file under [O_APPEND]) and the size of the file the larger
    of its old value and the new cursor. *)
Theorem vtpc_write_cursor fd src count w r w' :
  reachable w → 0 ≤ count ≤ OFF_MAX → count ≤ Z.of_nat (length src) →
  vtpc_write fd (Some src) count w = Ret r w' →
  flags (hnd w') = flags (hnd w)
  ∧ ((r = -1 ∧ h_size (hnd w') = h_size (hnd w)
      ∧ (pos (hnd w') = pos (hnd w) ∨ pos (hnd w') = write_start (hnd w)))
     ∨ (r = 0 ∧ count = 0 ∧ hnd w' = hnd w)
     ∨ (0 < r ≤ count ∧ pos (hnd w') = write_start (hnd w) + r
        ∧ h_size (hnd w') = Z.max (h_size (hnd w)) (write_start (hnd w) + r))).
Proof.
  intros Hr Hc Hsrc H. apply reachable_api in Hr.
  unfold vtpc_write in H.
  destruct (get_handle_cases fd w) as [E|[E Hu]];
    rewrite (bind_eq _ _ _ _ _ E) in H; cbv beta iota in H.
  { injection H as <- <-. split; [done|]. left. split_and!; try done. by left. }
  destruct (count =? 0) eqn:E0.
  { injection H as <- <-. split; [done|]. right. left. split_and!; try done. lia. }
  destruct (acc_mode (flags (hnd w)) =? O_RDONLY).
  { injection H as <- <-. split; [done|]. left. split_and!; try done. by left. }
  destruct (Z.of_nat (length src) <? count); [done|].
  pose proof (api_inner w Hr Hu) as Hw.
  pose proof Hw as (_ & (_ & Hps & Hpw & Hsw) & _ & HPS).
  rewrite Hps in H. unfold write_start.
  destruct (negb (Z.land (flags (hnd w)) O_APPEND =? 0));
    erewrite bind_eq in H by reflexivity.
  - pose proof (write_loop_cursor _ HPS src count (h_size (hnd w)) (h_size (hnd w))
                  (flags (hnd w)) ltac:(lia) Hsrc Hsw (S (Z.to_nat count)) 0
                  (with_hnd (with_pos (h_size (hnd w))) w)
                  (inner_ok_with_pos _ _ _ Hw Hsw)
                  ltac:(lia) ltac:(simpl; lia) eq_refl
                  (or_introl (conj eq_refl eq_refl))) as Hspec.
    apply (wp_elim _ _ _ _ _ Hspec) in H. destruct H as (H1 & H2).
    split; [done|]. destruct H2 as [(-> & H2 & H3)|H2].
    + left. split_and!; try done. by right.
    + right. right. done.
  - pose proof (write_loop_cursor _ HPS src count (pos (hnd w)) (h_size (hnd w))
                  (flags (hnd w)) ltac:(lia) Hsrc Hpw (S (Z.to_nat count)) 0
                  w Hw ltac:(lia) ltac:(lia) eq_refl
                  (or_introl (conj eq_refl eq_refl))) as Hspec.
    apply (wp_elim _ _ _ _ _ Hspec) in H. destruct H as (H1 & H2).
    split; [done|]. destruct H2 as [(-> & H2 & H3)|H2].
    + left. split_and!; try done. by left.
    + right. right. done.
Qed.

Lemma vtpc_write_cursor_witness :
  let w := final (open_rw ++ [(Lseek 3 20470 SEEK_SET, [])]) five_pages in
  let w' := after (vtpc_write 3 (Some (replicate 30 x42)) 30) w in
  pos (hnd w) = 20470 ∧ h_size (hnd w) = 20480
  ∧ pos (hnd w') = 20500 ∧ h_size (hnd w') = 20500.
Proof.
  intros w w'.
  destruct (vtpc_write_cursor 3 (replicate 30 x42) 30 w 30 w') as (_ & H).
  - apply final_reachable;
      [apply five_pages_reachable | ops_ok | vm_compute; reflexivity].
  - unfold OFF_MAX. lia.
  - rewrite length_replicate. lia.
  - apply (ret_after (vtpc_write 3 (Some (replicate 30 x42)) 30) w).
    vm_compute. reflexivity.
  - assert (write_start (hnd w) = 20470) as Hs by (vm_compute; reflexivity).
    assert (h_size (hnd w) = 20480) as Hz by (vm_compute; reflexivity).
    rewrite Hs, Hz in H. split_and!; [exact Hs|exact Hz|lia|lia].
Defined.

(** X11: without a handle every operation on a descriptor fails.  When
    no handle is open, or the descriptor is negative or not below
    [VTPC_MAX_HANDLES], a close, seek, read, write or sync returns -1 with
    [errno = EBADF] and changes nothing else. *)
Theorem bad_descriptor o fd w :
  fd_of o = Some fd →
  used (hnd w) = 0 ∨ fd < 0 ∨ VTPC_MAX_HANDLES ≤ fd →
  exec o w = Ret (-1) (with_errno EBADF w).
Proof. intros Hfd H. by apply (exec_no_handle o fd), get_handle_none. Qed.

Lemma bad_descriptor_witness :
  exec (Write 5000 (Some [x42]) 1) (final open_rw five_pages)
  = Ret (-1) (with_errno EBADF (final open_rw five_pages)).
Proof.
  apply (bad_descriptor _ 5000); [reflexivity|].
  right. right. unfold VTPC_MAX_HANDLES. lia.
Defined.

(** X12: a seek returns the new cursor or fails without a trace.  A seek
    that returns -1 has changed nothing but [errno], which is [EBADF] or
    [EINVAL]; any other seek returns the new cursor, which is not
    negative and is [offset] plus 0, the old cursor or the size of the
    file as [whence] says, and has changed nothing but the cursor. *)
Theorem vtpc_lseek_result fd off wh w r w' :
  vtpc_lseek fd off wh w = Ret r w' →
  (r = -1 ∧ (w' = with_errno EBADF w ∨ w' = with_errno EINVAL w))
  ∨ (0 ≤ r ∧ w' = with_hnd (with_pos r) w
     ∧ ((wh = SEEK_SET ∧ r = off) ∨ (wh = SEEK_CUR ∧ r = pos (hnd w) + off)
        ∨ (wh = SEEK_END ∧ r = h_size (hnd w) + off))).
Proof.
  intros H. unfold vtpc_lseek in H.
  destruct (get_handle_cases fd w) as [E|[E Hu]];
    rewrite (bind_eq _ _ _ _ _ E) in H; cbv beta iota zeta in H.
  { injection H as <- <-. left. split; [done|by left]. }
  destruct (wh =? SEEK_SET) eqn:E0; [|destruct (wh =? SEEK_CUR) eqn:E1;
    [|destruct (wh =? SEEK_END) eqn:E2]].
  4: { injection H as <- <-. left. split; [done|by right]. }
  all: match type of H with
       | (if ?b then _ else _) _ = _ => destruct b; [done|]
       end;
    match type of H with
    | (if ?b then _ else _) _ = _ => destruct b eqn:En
    end;
    [injection H as <- <-; left; split; [done|by right]|];
    injection H as <- <-; right; split_and!; [lia|done|].
  - left. split; lia.
  - right. left. split; lia.
  - right. right. split; lia.
Qed.

Lemma vtpc_lseek_result_witness :
  let w := final open_rw five_pages in
  (20380 = -1 ∧ (after (vtpc_lseek 3 (-100) SEEK_END) w = with_errno EBADF w
                 ∨ after (vtpc_lseek 3 (-100) SEEK_END) w = with_errno EINVAL w))
  ∨ (0 ≤ 20380 ∧ after (vtpc_lseek 3 (-100) SEEK_END) w = with_hnd (with_pos 20380) w
     ∧ ((SEEK_END = SEEK_SET ∧ 20380 = -100)
        ∨ (SEEK_END = SEEK_CUR ∧ 20380 = pos (hnd w) + -100)
        ∨ (SEEK_END = SEEK_END ∧ 20380 = h_size (hnd w) + -100))).
Proof.
  intros w. apply (vtpc_lseek_result 3 (-100) SEEK_END w 20380).
  apply (ret_after (vtpc_lseek 3 (-100) SEEK_END) w). vm_compute. reflexivity.
Defined.

(** X13: a close always releases the handle.  A close of the open handle
    that returns has returned 0 or -1 and, also when the flush or the
    [close] of the system failed, has left the slot zeroed; from then on
    every operation on the descriptor that was closed fails with
    [EBADF]. *)
Theorem vtpc_close_releases w r w' :
  is_open w → vtpc_close 3 w = Ret r w' →
  (r = 0 ∨ r = -1) ∧ hnd w' = handle_zero
  ∧ ∀ o, fd_of o = Some 3 → exec o w' = Ret (-1) (with_errno EBADF w').
Proof.
  intros Ho H.
  assert ((r = 0 ∨ r = -1) ∧ hnd w' = handle_zero) as [Hr Hz].
  { unfold vtpc_close in H. rewrite (bind_eq _ _ _ _ _ (get_handle_open w Ho)) in H.
    revert H. apply (wp_elim _ (λ r w', (r = 0 ∨ r = -1) ∧ hnd w' = handle_zero)).
    apply wp_bind. eapply wp_mono; [apply wp_true|]. intros flush_rc w1 _.
    apply wp_bind_get_w. apply wp_bind. eapply wp_mono; [apply wp_true|].
    intros rc w2 _. apply wp_bind_get_w.
    apply wp_bind. eapply wp_mono; [apply wp_true|]. intros [] w3 _.
    apply wp_bind_modify.
    destruct (negb (flush_rc =? 0)); [apply wp_bind_modify, wp_ret; auto|].
    destruct (negb (rc =? 0)); [apply wp_bind_modify, wp_ret; auto|].
    apply wp_ret; auto. }
  split_and!; [done|done|]. intros o Hfd.
  apply (exec_no_handle o 3 w' Hfd), get_handle_closed. by rewrite Hz.
Qed.

Lemma vtpc_close_releases_witness :
  let w' := after (vtpc_close 3) (with_oracle [Some EIO] (final full_cache five_pages)) in
  (-1 = 0 ∨ -1 = -1) ∧ hnd w' = handle_zero
  ∧ ∀ o, fd_of o = Some 3 → exec o w' = Ret (-1) (with_errno EBADF w').
Proof.
  intros w'. apply (vtpc_close_releases
                      (with_oracle [Some EIO] (final full_cache five_pages)) (-1) w').
  - unfold is_open. vm_compute. discriminate.
  - apply (ret_after (vtpc_close 3)
             (with_oracle [Some EIO] (final full_cache five_pages))).
    vm_compute. reflexivity.
Defined.

(** X14: a handle opened read-only is never written through.  On such a
    handle a write of no bytes returns 0 and changes nothing, a write of
    a positive count from a buffer returns -1 with [errno = EBADF] and a
    write of a positive count from the null pointer returns -1 with
    [errno = EINVAL]; neither changes anything but [errno]. *)
Theorem vtpc_write_read_only w src count :
  is_open w → acc_mode (flags (hnd w)) = O_RDONLY → 0 < count →
  (∀ buf, vtpc_write 3 buf 0 w = Ret 0 w)
  ∧ vtpc_write 3 (Some src) count w = Ret (-1) (with_errno EBADF w)
  ∧ vtpc_write 3 None count w = Ret (-1) (with_errno EINVAL w).
Proof.
  intros Ho Hro Hc. unfold vtpc_write. split_and!; [intros buf|..];
    rewrite (bind_eq _ _ _ _ _ (get_handle_open w Ho)); cbv beta iota.
  - by destruct buf.
  - replace (count =? 0) with false by lia. rewrite Hro. reflexivity.
  - replace (count >? 0) with true by lia. reflexivity.
Qed.

Lemma vtpc_write_read_only_witness :
  let w := final open_ro five_pages in
  (∀ buf, vtpc_write 3 buf 0 w = Ret 0 w)
  ∧ vtpc_write 3 (Some [x42]) 1 w = Ret (-1) (with_errno EBADF w)
  ∧ vtpc_write 3 None 1 w = Ret (-1) (with_errno EINVAL w).
Proof.
  intros w. apply (vtpc_write_read_only w [x42] 1).
  - unfold is_open. vm_compute. discriminate.
  - vm_compute. reflexivity.
  - lia.
Defined.

(** * Flushing, the geometry of the cache, the benchmark *)

Lemma quiet_sys_pwrite buf off : quiet (sys_pwrite buf off).
Proof. unfold sys_pwrite. quiet_go. Qed.

Lemma quiet_sys_ftruncate len : quiet (sys_ftruncate len).
Proof. unfold sys_ftruncate. quiet_go. Qed.

Lemma quiet_sys_fsync : quiet sys_fsync.
Proof. unfold sys_fsync. quiet_go. Qed.

Lemma quiet_pwrite_fullpage buf ps off : quiet (pwrite_fullpage buf ps off).
Proof.
  unfold pwrite_fullpage.
  apply quiet_bind; [apply quiet_sys_pwrite|]. intros r.
  apply quiet_bind; [apply quiet_get_h|]. intros h.
  apply quiet_bind; [|intros; apply quiet_ret].
  destruct ((direct h =? 0) && (r >=? 0)); apply quiet_ret.
Qed.

Lemma cache_flush_page_clean p w :
  wp (cache_flush_page p)
    (λ r w', hnd w' = hnd w ∧ (∀ p', clean w p' → clean w' p')
             ∧ (r = 0 → p ≠ NULL → clean w' p)) w.
Proof.
  unfold cache_flush_page. destruct (p =? NULL) eqn:En.
  { apply wp_ret. split_and!; try done. intros _ Hp. lia. }
  apply wp_bind. unfold wp at 1, deref.
  destruct (pages w !! p) as [e|] eqn:Ep; [|done].
  destruct (dirty e =? 0) eqn:Ed.
  { apply wp_ret. split_and!; try done. intros _ _ e' He'.
    rewrite Ep in He'. injection He' as <-. lia. }
  apply wp_bind_get_h. cbv beta zeta.
  apply wp_bind. eapply wp_mono; [apply quiet_pwrite_fullpage|].
  intros r1 w1 (Hp1 & Hh1 & _). cbv beta.
  destruct (r1 <? 0).
  { apply wp_ret. split_and!; [done| |intros; lia].
    intros p' Hc e' He'. rewrite Hp1 in He'. by apply Hc. }
  apply wp_bind. eapply wp_mono; [apply quiet_sys_ftruncate|].
  intros r2 w2 (Hp2 & Hh2 & _). cbv beta.
  destruct (negb (r2 =? 0)).
  { apply wp_ret. split_and!; [congruence| |intros; lia].
    intros p' Hc e' He'. rewrite Hp2, Hp1 in He'. by apply Hc. }
  unfold wp, update, bind, deref, store, modify, ret. rewrite Hp2, Hp1, Ep.
  split_and!; [simpl; congruence| |].
  - intros p' Hc e' He'. simpl in He'. destruct (decide (p' = p)) as [->|Hne].
    + rewrite lookup_insert_eq in He'. by injection He' as <-.
    + rewrite lookup_insert_ne, Hp2, Hp1 in He' by done. by apply Hc.
  - intros _ _ e' He'. simpl in He'.
    rewrite lookup_insert_eq in He'. by injection He' as <-.
Qed.

Lemma flush_list_clean l : ∀ w,
  wp (flush_list l)
    (λ r w', hnd w' = hnd w ∧ (∀ p', clean w p' → clean w' p')
             ∧ (r = 0 → ∀ p, p ∈ l → p ≠ NULL → clean w' p)) w.
Proof.
  induction l as [|p l IH]; intros w.
  - apply wp_ret. split_and!; try done. intros _ p Hp. by apply elem_of_nil in Hp.
  - cbn [flush_list]. apply wp_bind. eapply wp_mono; [apply cache_flush_page_clean|].
    intros r w1 (Hh & Hc & Hp). cbv beta. destruct (negb (r =? 0)) eqn:Er.
    + apply wp_ret. split_and!; try done; intros; lia.
    + eapply wp_mono; [apply IH|]. intros r' w2 (Hh' & Hc' & Hl).
      split_and!; [congruence|auto|].
      intros Hr' x Hx Hxn. apply elem_of_cons in Hx as [->|Hx].
      * apply Hc', Hp; [lia|done].
      * by apply Hl.
Qed.

Lemma cache_flush_all_clean w :
  wp cache_flush_all
    (λ r w', hnd w' = hnd w
             ∧ (r = 0 → ∀ p, p ∈ a1in (cache (hnd w)) ++ am (cache (hnd w)) →
                        p ≠ NULL → clean w' p)) w.
Proof.
  unfold cache_flush_all. apply wp_bind_get_c. cbv beta.
  apply wp_bind. eapply wp_mono; [apply flush_list_clean|].
  intros r1 w1 (Hh1 & Hc1 & Hl1). cbv beta.
  destruct (negb (r1 =? 0)) eqn:E1; [apply wp_ret; split; [done|intros; lia]|].
  apply wp_bind. eapply wp_mono; [apply flush_list_clean|].
  intros r2 w2 (Hh2 & Hc2 & Hl2). cbv beta.
  destruct (negb (r2 =? 0)) eqn:E2; [apply wp_ret; split; [congruence|intros; lia]|].
  assert (∀ p, p ∈ a1in (cache (hnd w)) ++ am (cache (hnd w)) → p ≠ NULL →
               clean w2 p) as Hall.
  { intros p Hp Hn. apply elem_of_app in Hp as [Hp|Hp].
    - apply Hc2, Hl1; [lia|done|done].
    - apply Hl2; [lia|done|done]. }
  apply wp_bind. eapply wp_mono; [apply quiet_sys_fsync|].
  intros r3 w3 (Hp3 & Hh3 & _). cbv beta.
  assert (∀ w', pages w' = pages w3 → ∀ p, clean w2 p → clean w' p) as Hsame.
  { intros w' E p Hc e He. rewrite E, Hp3 in He. by apply Hc. }
  destruct (negb (r3 =? 0)); [apply wp_ret; split; [congruence|intros; lia]|].
  apply wp_bind_get_h. apply wp_bind. eapply wp_mono; [apply quiet_sys_ftruncate|].
  intros r4 w4 (Hp4 & Hh4 & _). cbv beta.
  destruct (negb (r4 =? 0)); apply wp_ret; (split; [congruence|]); [intros; lia|].
  intros _ p Hp Hn. apply (Hsame w4 Hp4), Hall; done.
Qed.

(** X15: a sync that succeeds leaves nothing to write back.  When
    [vtpc_fsync] returns 0, the handle and with it the lists of the cache
    are as before and no entry on A1in or Am is dirty. *)
Theorem vtpc_fsync_cleans fd w w' :
  vtpc_fsync fd w = Ret 0 w' →
  hnd w' = hnd w
  ∧ ∀ p, p ∈ a1in (cache (hnd w)) ++ am (cache (hnd w)) → p ≠ NULL → clean w' p.
Proof.
  intros H. unfold vtpc_fsync in H.
  destruct (get_handle_cases fd w) as [E|[E Hu]];
    rewrite (bind_eq _ _ _ _ _ E) in H; cbv beta iota in H; [done|].
  pose proof (wp_elim _ _ _ _ _ (cache_flush_all_clean w) H) as (H1 & H2).
  split; [done|]. by apply H2.
Qed.

Lemma vtpc_fsync_cleans_witness :
  let w := final full_cache five_pages in
  dirty (entry_at w 1) = 1 ∧ clean (after (vtpc_fsync 3) w) 1.
Proof.
  intros w. split; [vm_compute; reflexivity|].
  destruct (vtpc_fsync_cleans 3 w (after (vtpc_fsync 3) w)) as [_ H].
  - apply (ret_after (vtpc_fsync 3) w). vm_compute. reflexivity.
  - apply H; [|discriminate].
    assert (a1in (cache (hnd w)) ++ am (cache (hnd w)) = [4; 3; 2; 1]) as ->
      by (vm_compute; reflexivity).
    rewrite !elem_of_cons. tauto.
Defined.

(** X21: a clean page is never written back.  For the null pointer and
    for an entry whose dirty flag is not set, [cache_flush_page] returns 0
    and leaves the world as it is: no system call is made, the file is
    not touched. *)
Theorem cache_flush_page_noop p w :
  p = NULL ∨ (∃ e, pages w !! p = Some e ∧ dirty e = 0) →
  cache_flush_page p w = Ret 0 w.
Proof.
  intros [->|(e & He & Hd)]; [done|]. unfold cache_flush_page.
  destruct (p =? NULL); [done|].
  rewrite (bind_eq _ _ _ _ _ (deref_eq _ _ _ He)). by rewrite Hd.
Qed.

Lemma cache_flush_page_noop_witness :
  cache_flush_page 2 (final full_cache five_pages)
  = Ret 0 (final full_cache five_pages).
Proof.
  apply (cache_flush_page_noop 2 (final full_cache five_pages)).
  right. exists (entry_at (final full_cache five_pages) 2).
  split; vm_compute; reflexivity.
Defined.

(** X16: the geometry [cache_init] computes.  For a configured capacity
    below 2^62 the capacity is the configured one raised to at least 4,
    Kin is a quarter of it and Kout a half (both rounded down), the Am
    capacity is the rest, so that Kin and the Am capacity add up to the
    capacity, and Kin ≥ 1, Am capacity ≥ 3, Kout ≥ 2. *)
Theorem cache_geometry_bounds cfg ps :
  0 ≤ cfg < 2 ^ 62 →
  let c := cache_geometry cfg ps in
  capacity c = Z.max cfg 4 ∧ kin c = capacity c / 4 ∧ kout c = capacity c / 2
  ∧ kin c + am_cap c = capacity c
  ∧ 1 ≤ kin c ∧ 3 ≤ am_cap c ∧ 2 ≤ kout c ∧ page_size c = ps.
Proof.
  intros Hc. unfold cache_geometry, sz_sub, wrap64. cbv zeta.
  cbn [capacity kin kout am_cap page_size].
  set (C := if cfg <? 4 then 4 else cfg).
  assert (C = Z.max cfg 4) as HC by (unfold C; destruct (Z.ltb_spec cfg 4); lia).
  assert (4 ≤ C < 2 ^ 62) as HCr by lia. clearbody C.
  assert (1 ≤ C / 4 ∧ C / 4 < C ∧ 2 ≤ C / 2 ∧ 3 ≤ C - C / 4) as (K1 & K2 & K3 & K4)
    by (Z.div_mod_to_equations; lia).
  destruct (Z.ltb_spec (C / 4) 1); [lia|].
  rewrite Z.geb_leb. destruct (Z.leb_spec C (C / 4)); [lia|].
  rewrite (Z.mod_small (C - C / 4)) by lia.
  destruct (Z.ltb_spec (C - C / 4) 1); [lia|].
  destruct (Z.ltb_spec (C / 2) 1); [lia|].
  split_and!; try done; lia.
Qed.

Lemma cache_geometry_bounds_witness :
  let c := cache_geometry 256 4096 in
  capacity c = Z.max 256 4 ∧ kin c = capacity c / 4 ∧ kout c = capacity c / 2
  ∧ kin c + am_cap c = capacity c
  ∧ 1 ≤ kin c ∧ 3 ≤ am_cap c ∧ 2 ≤ kout c ∧ page_size c = 4096.
Proof. apply (cache_geometry_bounds 256 4096). lia. Defined.

(** ** The generator of the benchmark *)

Lemma lxor_range a b :
  0 ≤ a < 2 ^ 64 → 0 ≤ b < 2 ^ 64 → 0 ≤ Z.lxor a b < 2 ^ 64.
Proof.
  intros Ha Hb. assert (0 ≤ Z.lxor a b) as H0 by (apply Z.lxor_nonneg; lia).
  split; [done|]. destruct (decide (Z.lxor a b = 0)) as [->|Hne]; [lia|].
  apply Z.log2_lt_pow2; [lia|].
  pose proof (Z.log2_lxor a b ltac:(lia) ltac:(lia)).
  assert (∀ x, 0 ≤ x < 2 ^ 64 → Z.log2 x < 64) as Hl.
  { intros x Hx. destruct (decide (x = 0)) as [->|]; [done|].
    apply Z.log2_lt_pow2; lia. }
  pose proof (Hl a Ha). pose proof (Hl b Hb). lia.
Qed.

Lemma shiftr_range a n : 0 ≤ a < 2 ^ 64 → 0 ≤ n → 0 ≤ Z.shiftr a n < 2 ^ 64.
Proof.
  intros Ha Hn. rewrite Z.shiftr_div_pow2 by done.
  assert (0 < 2 ^ n) by (apply Z.pow_pos_nonneg; lia).
  split; [apply Z.div_pos; lia|].
  apply Z.le_lt_trans with a; [|lia]. apply Z.div_le_upper_bound; nia.
Qed.

(** [x ^= x << k] gives zero only from zero. *)
Lemma xor_shiftl_zero x k :
  0 ≤ x < 2 ^ 64 → 0 < k → Z.gcd (2 ^ 64) (2 ^ k - 1) = 1 →
  Z.lxor x (wrap64 (Z.shiftl x k)) = 0 → x = 0.
Proof.
  intros Hx Hk Hg H. apply Z.lxor_eq in H. unfold wrap64 in H.
  rewrite Z.shiftl_mul_pow2 in H by lia.
  assert (2 ^ 64 | (2 ^ k - 1) * x) as Hd.
  { exists ((x * 2 ^ k) / 2 ^ 64).
    pose proof (Z.div_mod (x * 2 ^ k) (2 ^ 64) ltac:(lia)). lia. }
  apply Z.gauss in Hd; [|done].
  destruct Hd as [q Hq]. destruct (decide (q = 0)); [lia|]. nia.
Qed.

(** [x ^= x >> k] gives zero only from zero. *)
Lemma xor_shiftr_zero x k :
  0 ≤ x → 0 < k → Z.lxor x (Z.shiftr x k) = 0 → x = 0.
Proof.
  intros Hx Hk H. apply Z.lxor_eq in H. rewrite Z.shiftr_div_pow2 in H by lia.
  assert (2 ≤ 2 ^ k).
  { replace k with (Z.succ (k - 1)) by lia. rewrite Z.pow_succ_r by lia.
    assert (0 < 2 ^ (k - 1)) by (apply Z.pow_pos_nonneg; lia). lia. }
  destruct (decide (x = 0)); [done|].
  assert (x / 2 ^ k < x) by (apply Z.div_lt; lia). lia.
Qed.

Lemma xorshift64_range_aux s : 0 ≤ s < 2 ^ 64 → 0 ≤ xorshift64 s < 2 ^ 64.
Proof.
  intros Hs. unfold xorshift64. cbv zeta.
  repeat first [apply lxor_range | apply wrap64_range | apply shiftr_range; [|lia]
               | exact Hs].
Qed.

(** X17: the state of the generator stays a 64-bit number, and it is
    zero after a step only when it was zero before: a run that starts
    from a seed other than zero never gets stuck at zero, one that starts
    from zero stays there. *)
Theorem xorshift64_state s :
  0 ≤ s < 2 ^ 64 →
  0 ≤ xorshift64 s < 2 ^ 64 ∧ (xorshift64 s = 0 ↔ s = 0).
Proof.
  intros Hs. unfold xorshift64. cbv zeta.
  set (x1 := Z.lxor s (wrap64 (Z.shiftl s 13))).
  assert (0 ≤ x1 < 2 ^ 64) as H1 by (apply lxor_range; [done|apply wrap64_range]).
  set (x2 := Z.lxor x1 (Z.shiftr x1 7)).
  assert (0 ≤ x2 < 2 ^ 64) as H2 by (apply lxor_range; [done|apply shiftr_range; lia]).
  split; [apply lxor_range; [done|apply wrap64_range]|]. split.
  - intros H3. apply (xor_shiftl_zero x2 17) in H3; [|done|lia|reflexivity].
    apply (xor_shiftr_zero x1 7) in H3; [|lia|lia].
    apply (xor_shiftl_zero s 13) in H3; [done|done|lia|reflexivity].
  - intros ->. reflexivity.
Qed.

Lemma xorshift64_state_witness :
  0 ≤ xorshift64 1 < 2 ^ 64 ∧ (xorshift64 1 = 0 ↔ 1 = 0).
Proof. apply (xorshift64_state 1). lia. Defined.

(** X18: every read of the benchmark is a whole page of the file.  With
    a working set and a file of at least one page, whatever the state of
    the generator, the offset a round reads at is a multiple of the page
    size, is not negative, and the page read there ends inside the
    [file_pages] pages that the benchmark has filled. *)
Theorem bench_offset_in_file seed ws_pages file_pages ps :
  0 ≤ seed < 2 ^ 64 → 0 < ws_pages → 0 < file_pages → 0 < ps →
  file_pages * ps ≤ OFF_MAX →
  let off := bench_offset seed ws_pages file_pages ps in
  0 ≤ off ∧ off + ps ≤ file_pages * ps ∧ off mod ps = 0.
Proof.
  intros Hseed Hws Hfp Hps Hfit off. subst off.
  unfold bench_offset, clamp_ws, sz_mul, to_off. unfold OFF_MAX in *.
  pose proof (xorshift64_range_aux seed Hseed) as Hr.
  set (W := if ws_pages >? file_pages then file_pages else ws_pages).
  assert (0 < W ≤ file_pages) as HW
    by (unfold W; rewrite Z.gtb_ltb; destruct (Z.ltb_spec file_pages ws_pages); lia).
  pose proof (Z.mod_pos_bound (xorshift64 seed) W ltac:(lia)) as Hpage.
  set (page := xorshift64 seed mod W) in *.
  assert (0 ≤ page * ps ∧ page * ps + ps ≤ file_pages * ps) as [Ha Hb] by nia.
  rewrite wrap64_small by lia.
  rewrite Z.gtb_ltb. destruct (Z.ltb_spec (2 ^ 63 - 1) (page * ps)); [lia|].
  split_and!; [done|done|]. apply Z.mod_mul. lia.
Qed.

Lemma bench_offset_in_file_witness :
  let off := bench_offset 1 256 4096 4096 in
  0 ≤ off ∧ off + 4096 ≤ 4096 * 4096 ∧ off mod 4096 = 0.
Proof.
  apply (bench_offset_in_file 1 256 4096 4096); unfold OFF_MAX; lia.
Defined.

(** * Opening a file, and the handle in every reachable state *)

Lemma init_once_hnd w :
  hnd w = handle_zero →
  wp vtpc_init_once
    (λ _ w', hnd w' = handle_zero ∧ pages w' = pages w) w.
Proof.
  intros Hz. unfold vtpc_init_once, wp. prims.
  by destruct (negb (g_inited w =? 0)).
Qed.

Lemma sys_fstat_size w :
  wp sys_fstat
    (λ st w', same_core w w' ∧ file w' = file w
              ∧ (fst st = 0 → snd st = Z.of_nat (length (file w')))) w.
Proof.
  unfold wp, sys_fstat. prims.
  destruct (oracle w) as [|[e|] o]; simpl; split_and!; try done.
Qed.

Lemma cache_init_open ps w :
  wp (cache_init ps)
    (λ _ w', pages w' = pages w ∧ file w' = file w
             ∧ sys_pagesize w' = sys_pagesize w
             ∧ used (hnd w') = used (hnd w) ∧ flags (hnd w') = flags (hnd w)
             ∧ pos (hnd w') = pos (hnd w) ∧ h_size (hnd w') = h_size (hnd w)
             ∧ page_size (cache (hnd w')) = ps
             ∧ a1in (cache (hnd w')) = [] ∧ am (cache (hnd w')) = []
             ∧ a1out (cache (hnd w')) = []) w.
Proof.
  unfold wp, cache_init, ht_init. prims. simpl.
  repeat (case_goal; simpl; try done).
Qed.

Lemma open_tail_result fd fl dir slot w :
  hnd w = handle_zero →
  wp (if fd <? 0 then ret (-1) else
      let* st := sys_fstat in
      if negb (fst st =? 0) then
        let* w := get_w in
        let* _ := sys_close in
        let* _ := set_errno (errno w) in
        ret (-1)
      else
      let* _ := mod_h (λ _, mk_handle 1 fd fl dir 0 (snd st) cache_zero) in
      let* ps := vtpc_page_size in
      let* rc := cache_init ps in
      if negb (rc =? 0) then
        let* w := get_w in
        let* _ := sys_close in
        let* _ := mod_h (λ _, handle_zero) in
        let* _ := set_errno (errno w) in
        ret (-1)
      else ret slot)
    (λ r w', pages w' = pages w
             ∧ ((r = -1 ∧ hnd w' = handle_zero) ∨ (r = slot ∧ opened fl w'))) w.
Proof.
  intros Hz. destruct (fd <? 0); [apply wp_ret; split; [done|by left]|].
  apply wp_bind. eapply wp_mono; [apply sys_fstat_size|].
  intros st w1 ((Hp1 & Hh1 & Hs1) & Hf1 & Hst). cbv beta.
  destruct (fst st =? 0) eqn:Est; simpl.
  2: { apply wp_bind_get_w. apply wp_bind. eapply wp_mono; [apply quiet_sys_close|].
       intros rc w2 (Hp2 & Hh2 & Hs2). cbv beta.
       unfold set_errno. apply wp_bind_modify, wp_ret. simpl.
       split; [congruence|left; split; [done|congruence]]. }
  unfold mod_h at 1. apply wp_bind_modify.
  set (w2 := with_hnd _ w1).
  apply wp_bind. unfold wp at 1. rewrite vtpc_page_size_eq. cbv beta iota.
  apply wp_bind. eapply wp_mono; [apply cache_init_open|].
  intros rc w3 (Hp3 & Hf3 & Hs3 & Hu3 & Hfl3 & Hpos3 & Hsz3 & Hps3 & Ha & Hb & Hc).
  cbv beta. destruct (negb (rc =? 0)).
  - apply wp_bind_get_w. apply wp_bind. eapply wp_mono; [apply quiet_sys_close|].
    intros rc' w4 (Hp4 & Hh4 & Hs4). cbv beta.
    unfold mod_h, set_errno. apply wp_bind_modify, wp_bind_modify, wp_ret. simpl.
    split; [|by left]. rewrite Hp4, Hp3. subst w2. simpl. done.
  - apply wp_ret. split; [rewrite Hp3; subst w2; simpl; done|]. right.
    split; [done|]. unfold opened. subst w2. simpl in *.
    split_and!; try done.
    + rewrite Hsz3, Hf3. apply Hst. lia.
    + rewrite Hps3. unfold eff_page_size. simpl. by rewrite Hs3.
Qed.

(** X19: what [vtpc_open] leaves.  Called with a path while no handle is
    open, an open that returns has returned 3 or -1 and has not touched
    the page entries; after -1 the slot is still zeroed; after 3 the
    handle is in use with the flags given, its cursor is 0, its size is
    the length of the file, and its cache is empty with pages of the
    system's page size. *)
Theorem vtpc_open_result mode access w r w' :
  hnd w = handle_zero → vtpc_open true mode access w = Ret r w' →
  pages w' = pages w
  ∧ ((r = -1 ∧ hnd w' = handle_zero) ∨ (r = 3 ∧ opened mode w')).
Proof.
  intros Hz. apply (wp_elim _ (λ r w', pages w' = pages w
    ∧ ((r = -1 ∧ hnd w' = handle_zero) ∨ (r = 3 ∧ opened mode w')))).
  unfold vtpc_open.
  apply wp_bind. eapply wp_mono; [by apply init_once_hnd|].
  intros [] w1 (Hh1 & Hp1). cbv beta. cbn [negb].
  apply wp_bind. unfold alloc_handle_slot. apply wp_bind_get_h.
  rewrite Hh1. cbn. apply wp_ret.
  apply wp_bind. eapply wp_mono; [apply quiet_sys_open|].
  intros fd1 w2 (Hp2 & Hh2 & Hs2). cbv beta.
  apply wp_bind_get_w. cbv beta. apply wp_bind.
  destruct ((fd1 <? 0) && bool_decide (errno w2 = EINVAL)).
  - apply wp_bind. eapply wp_mono; [apply quiet_sys_open|].
    intros fd2 w3 (Hp3 & Hh3 & Hs3). apply wp_ret. cbv beta iota.
    eapply wp_mono; [apply open_tail_result; congruence|].
    intros r0 w4 (H1 & H2). split; [congruence|done].
  - apply wp_ret. cbv beta iota.
    eapply wp_mono; [apply open_tail_result; congruence|].
    intros r0 w4 (H1 & H2). split; [congruence|done].
Qed.

Lemma vtpc_open_result_witness :
  let w' := final open_rw five_pages in
  pages w' = pages five_pages
  ∧ ((3 = -1 ∧ hnd w' = handle_zero) ∨ (3 = 3 ∧ opened O_RDWR w')).
Proof.
  intros w'. apply (vtpc_open_result O_RDWR 0 five_pages 3 w').
  - reflexivity.
  - apply (ret_after (vtpc_open true O_RDWR 0) five_pages). vm_compute. reflexivity.
Defined.

(** X20: the handle in every reachable state.  The page size in use is
    positive and below 2^32; while the handle is open its cursor and the
    size of its file are not negative and its cache has pages of that
    size; while it is closed its slot is zeroed. *)
Theorem reachable_handle w :
  reachable w →
  0 < eff_page_size w < 2 ^ 32
  ∧ (is_open w → 0 ≤ pos (hnd w) ∧ 0 ≤ h_size (hnd w)
                 ∧ page_size (cache (hnd w)) = eff_page_size w)
  ∧ (¬ is_open w → hnd w = handle_zero).
Proof.
  intros Hr. apply reachable_api in Hr as (_ & HPS & Hopen & Hclosed).
  split_and!; [lia|lia| |].
  - intros Ho. by destruct (Hopen Ho) as (_ & ? & ? & ?).
  - intros Hn. apply Hclosed. unfold is_open in Hn.
    destruct (decide (used (hnd w) = 0)); [done|]. by destruct Hn.
Qed.

Lemma reachable_handle_witness :
  let w := final extend_behind_cached_page ten_bytes in
  0 < eff_page_size w < 2 ^ 32
  ∧ (is_open w → 0 ≤ pos (hnd w) ∧ 0 ≤ h_size (hnd w)
                 ∧ page_size (cache (hnd w)) = eff_page_size w)
  ∧ (¬ is_open w → hnd w = handle_zero).
Proof.
  intros w. apply (reachable_handle w).
  apply final_reachable;
    [apply ten_bytes_reachable | ops_ok | vm_compute; reflexivity].
Defined.

